(** * LuaJIT 2.0 bytecode dump decoder (format/luajit/luajit.go)

    A shallow embedding of the decoder and of the part of the host decoding
    toolkit it calls, followed by the properties of the decoder.

    Layout of the development:
    - machine integers (Go's uint64 / int64 arithmetic on [Z]);
    - [u64tof64], the float reinterpretation helper;
    - [Module decode]: the cursor, the field tree and the reading primitives;
    - the decoder itself, routine by routine, with the source's names;
    - generic facts on the cursor (what a routine may change, how far it reads);
    - the properties. *)

From Stdlib Require Import ZArith List String Bool Lia.
From Stdlib Require Import Strings.Byte.
Import ListNotations.
Open Scope Z_scope.
Set Warnings "-register-all".

(* ===================================================================== *)
(** * Machine integers *)
(* ===================================================================== *)

(** Go's [uint64] is [Z] reduced modulo 2^64; [int64(u)] is the two's
    complement reading of the same 64 bits. *)

Definition wrap64 (z : Z) : Z := z mod 2 ^ 64.

Definition int64 (z : Z) : Z := (z + 2 ^ 63) mod 2 ^ 64 - 2 ^ 63.

(** [x + y], [x - y], [x << n] on uint64 *)
Definition add64 (x y : Z) : Z := wrap64 (x + y).
Definition sub64 (x y : Z) : Z := wrap64 (x - y).
Definition shl64 (x n : Z) : Z := wrap64 (Z.shiftl x n).

(** [x * y] on int64 *)
Definition mul_int64 (x y : Z) : Z := int64 (x * y).

Definition byte_to_Z (b : byte) : Z := Z.of_N (Byte.to_N b).

(* ===================================================================== *)
(** * Floats and the reinterpretation helper *)
(* ===================================================================== *)

(** A [float64] is identified by its IEEE-754 binary64 bit pattern: Go's
    [math.Float64frombits] and [math.Float64bits] are the two directions.
    NaN payloads and signed zeros stay distinct, as they do in Go. *)
Record float64 : Type := Float64frombits { Float64bits : Z }.

Module binary.

(** [binary.BigEndian.PutUint64]: the eight bytes of [u], most significant
    first. *)
Definition BigEndian_PutUint64 (u : Z) : list Z :=
  map (fun k => Z.land (Z.shiftr u k) 255) [56; 48; 40; 32; 24; 16; 8; 0].

(** [binary.BigEndian.Uint64]: eight bytes back to one integer. *)
Definition BigEndian_Uint64 (bs : list Z) : Z :=
  fold_left (fun acc b => Z.lor (Z.shiftl acc 8) b) bs 0.

(** [binary.Read(r, binary.BigEndian, &f)] on a float64 *)
Definition Read_BigEndian_float64 (bs : list Z) : float64 :=
  Float64frombits (BigEndian_Uint64 bs).

End binary.

(** reinterpret an int as a float *)
Definition u64tof64 (u : Z) : float64 :=
  let buf := binary.BigEndian_PutUint64 u in
  binary.Read_BigEndian_float64 buf.

(* ===================================================================== *)
(** * The host decoding toolkit *)
(* ===================================================================== *)

(** The decoder is written against two packages of the host tool, [scalar]
    and [decode], which are not part of luajit.go. The modules below hold
    what the decoder needs of them, as the spec describes it (section 6, the
    boundary with the host framework; section 7, the errors). *)

Module scalar.

(** Modelled from the spec: the scalar handed to a value-transform hook, the
    value read and its optional symbol. [Actual] is a uint64, so arithmetic
    on it wraps modulo 2^64. *)
Record Uint : Type := mkUint { Actual : Z; Sym : option string }.

(** Modelled from the spec: a value-transform hook. It returns the decorated
    scalar and Go's [error] ([None] is [nil]). *)
Definition UintMapper : Type := Uint -> Uint * option string.

End scalar.

Module decode.

Inductive Endian : Type := BigEndian | LittleEndian.

(** Modelled from the spec: the tree of named fields a decode produces,
    with structs and arrays as compounds. *)
Inductive Value : Type :=
| VUint (actual : Z) (sym : option string)
| VSint (v : Z)
| VFloat (f : float64)
| VBool (b : bool)
| VStr (bs : list byte)
| VRaw (bs : list byte)
| VStruct (fs : list (string * Value))
| VArray (fs : list (string * Value)).

(** What a read was: kept in a ghost trace, so that properties can speak of
    every read a routine made. *)
Inductive ReadKind : Type :=
| RU8
| RU16 (e : Endian)
| RRaw
| RPeek.

Record ReadEvent : Type :=
  mkEvent { ev_pos : Z; ev_bits : Z; ev_kind : ReadKind }.

(** Modelled from the spec: the decoder [D] handed to every routine. It holds
    the input, the cursor [pos] and the end [lim] of the readable range (both
    in bits), the active byte order, the children of the compound being
    built, and the ghost trace of reads. *)
Record D : Type := mkD {
  buf : list byte;
  pos : Z;
  lim : Z;
  Endian_ : Endian;
  fields : list (string * Value);
  trace : list ReadEvent
}.

Definition newD (input : list byte) : D :=
  mkD input 0 (8 * Z.of_nat (List.length input)) BigEndian [] [].

Inductive DecodeError : Type :=
| IOError        (* read or peek outside the readable range *)
| AssertError    (* an asserted byte sequence did not match *)
| MapError       (* a scalar mapper returned an error *)
| RangeError     (* a negative length *)
| OverflowError. (* a variable-length integer wider than 64 bits *)

(** The outcome of a routine: a value and the new decoder; a decode error,
    which aborts the whole decode and carries no tree (spec, section 7); a Go
    runtime panic, which is not a decode error; or a loop that ran out of
    steps. *)
Inductive Result (A : Type) : Type :=
| Ok (a : A) (d : D)
| Err (e : DecodeError)
| Panic
| OutOfSteps.
Arguments Ok {A} a d.
Arguments Err {A} e.
Arguments Panic {A}.
Arguments OutOfSteps {A}.

Definition M (A : Type) : Type := D -> Result A.

Definition ret {A} (a : A) : M A := fun d => Ok a d.

Definition bind {A B} (m : M A) (k : A -> M B) : M B :=
  fun d => match m d with
           | Ok a d' => k a d'
           | Err e => Err e
           | Panic => Panic
           | OutOfSteps => OutOfSteps
           end.

Definition raise {A} (e : DecodeError) : M A := fun _ => Err e.

Definition go_panic {A} : M A := fun _ => Panic.

Notation "x <- m ;; k" := (bind m (fun x => k))
  (at level 61, m at next level, right associativity).
Notation "m ;; k" := (bind m (fun _ => k))
  (at level 61, right associativity).

(** ** Cursor reads *)

(** Modelled from the spec: the toolkit's raw read (section 6, fixed-width and
    raw byte reads on a cursor; section 7, a read outside the readable range
    is fatal). [nBytes] bytes are taken at the cursor; the read must end inside
    the readable range and inside the input. The cursor advances by what was
    read. *)
Definition tryBytes (k : ReadKind) (nBytes : Z) : M (list byte) :=
  fun d =>
    if nBytes <? 0 then Err RangeError
    else if lim d <? pos d + 8 * nBytes then Err IOError
    else
      let bs := firstn (Z.to_nat nBytes)
                       (skipn (Z.to_nat (pos d / 8)) (buf d)) in
      if Z.of_nat (List.length bs) <? nBytes then Err IOError
      else Ok bs (mkD (buf d) (pos d + 8 * nBytes) (lim d) (Endian_ d)
                      (fields d)
                      (trace d ++ [mkEvent (pos d) (8 * nBytes) k])).

(** Modelled from the spec: the single-byte lookahead primitive "that does not
    advance the read position" (section 6); it fails like a read when the bytes
    are not there. *)
Definition PeekBytes (nBytes : Z) : M (list byte) :=
  fun d =>
    match tryBytes RPeek nBytes d with
    | Ok bs d' => Ok bs (mkD (buf d) (pos d) (lim d) (Endian_ d) (fields d)
                             (trace d'))
    | r => r
    end.

(** Modelled from the spec: the 1-byte unsigned read. *)
Definition U8 : M Z :=
  bs <- tryBytes RU8 1 ;;
  match bs with
  | [b] => ret (byte_to_Z b)
  | _ => raise IOError
  end.

(** Modelled from the spec: the 2-byte unsigned read "in a process-settable
    byte order": the order is the decoder's [Endian_] at the time of the
    read. *)
Definition U16 : M Z :=
  fun d =>
    (bs <- tryBytes (RU16 (Endian_ d)) 2 ;;
     match bs with
     | [b0; b1] =>
         match Endian_ d with
         | BigEndian => ret (Z.lor (Z.shiftl (byte_to_Z b0) 8) (byte_to_Z b1))
         | LittleEndian => ret (Z.lor (Z.shiftl (byte_to_Z b1) 8) (byte_to_Z b0))
         end
     | _ => raise IOError
     end) d.

(** Modelled from the spec: the variable-length unsigned read (glossary: 7
    payload bits per byte and a continuation bit, least-significant group
    first) into a uint64. A group that would start at bit 63 or beyond does
    not fit and is a decode error, so at most ten bytes are read; [n] counts
    the bytes still allowed. *)
Fixpoint uleb128_loop (n : nat) (result shift : Z) : M Z :=
  match n with
  | O => raise OverflowError
  | S n' =>
      b <- U8 ;;
      if 63 <=? shift then raise OverflowError
      else
        let result' := Z.lor result (shl64 (Z.land b 127) shift) in
        if Z.land b 128 =? 0 then ret result'
        else uleb128_loop n' result' (shift + 7)
  end.

Definition ULEB128 : M Z := uleb128_loop 10 0 0.

(** ** Fields *)

(** Modelled from the spec: a field is emitted as the next child of the
    current compound. *)
Definition AddChild (name : string) (v : Value) : M unit :=
  fun d => Ok tt (mkD (buf d) (pos d) (lim d) (Endian_ d)
                      (fields d ++ [(name, v)]) (trace d)).

(** Modelled from the spec: the value-transform hook "invoked immediately
    after a scalar read"; a mapper that returns an error aborts the decode. *)
Fixpoint mapUint (sms : list scalar.UintMapper) (u : scalar.Uint)
  : M scalar.Uint :=
  match sms with
  | [] => ret u
  | sm :: sms' =>
      match sm u with
      | (u', None) => mapUint sms' u'
      | (_, Some _) => raise MapError
      end
  end.

(** Modelled from the spec: a scalar field. The value is read, passed through
    the mappers, added to the tree, and the mapped value is returned. *)
Definition FieldUintFn (name : string) (fn : M Z)
           (sms : list scalar.UintMapper) : M Z :=
  v <- fn ;;
  u <- mapUint sms (scalar.mkUint v None) ;;
  AddChild name (VUint (scalar.Actual u) (scalar.Sym u)) ;;
  ret (scalar.Actual u).

Definition FieldU8 (name : string) (sms : list scalar.UintMapper) : M Z :=
  FieldUintFn name U8 sms.

Definition FieldU16 (name : string) (sms : list scalar.UintMapper) : M Z :=
  FieldUintFn name U16 sms.

Definition FieldULEB128 (name : string) (sms : list scalar.UintMapper) : M Z :=
  FieldUintFn name ULEB128 sms.

(** Modelled from the spec: "a derived value from one or more sub-reads,
    exposed as a single named field". *)
Definition FieldAnyFn (name : string) (fn : M Value) : M unit :=
  v <- fn ;;
  AddChild name v.

(** Modelled from the spec: a boolean field computed by the caller; nothing
    is read. *)
Definition FieldValueBool (name : string) (b : bool) : M unit :=
  AddChild name (VBool b).

(** Modelled from the spec: the raw string read in pass-through mode
    ([encoding.Nop]): exactly [nBytes] bytes, kept as they are. *)
Definition FieldStr (name : string) (nBytes : Z) : M unit :=
  bs <- tryBytes RRaw nBytes ;;
  AddChild name (VStr bs).

Fixpoint bytes_eqb (xs ys : list byte) : bool :=
  match xs, ys with
  | [], [] => true
  | x :: xs', y :: ys' => Byte.eqb x y && bytes_eqb xs' ys'
  | _, _ => false
  end.

Definition BitBufMapper : Type := list byte -> option DecodeError.

(** Modelled from the spec: the assertion primitive "that validates a literal
    byte sequence against the input and fails the whole decode if it does not
    match". *)
Definition AssertBitBuf (bss : list byte) : BitBufMapper :=
  fun bs => if bytes_eqb bs bss then None else Some AssertError.

Fixpoint mapBitBuf (sms : list BitBufMapper) (bs : list byte) : M unit :=
  match sms with
  | [] => ret tt
  | sm :: sms' =>
      match sm bs with
      | None => mapBitBuf sms' bs
      | Some e => raise e
      end
  end.

(** Modelled from the spec: a raw field of [nBits] bits (a whole number of
    bytes here), checked by its validators after the read. *)
Definition FieldRawLen (name : string) (nBits : Z) (sms : list BitBufMapper)
  : M unit :=
  bs <- tryBytes RRaw (nBits / 8) ;;
  mapBitBuf sms bs ;;
  AddChild name (VRaw bs).

(** ** Compounds and scopes *)

(** Modelled from the spec: "named nested-structure and named-array
    grouping". The sub-decoder of a struct or array shares the reader (cursor,
    range, trace) with its parent, starts with no children and with a copy of
    the parent's byte order; when it returns, its children become one field of
    the parent. *)
Definition fieldCompound {A} (mk : list (string * Value) -> Value)
           (name : string) (fn : M A) : M A :=
  fun d =>
    match fn (mkD (buf d) (pos d) (lim d) (Endian_ d) [] (trace d)) with
    | Ok a d' =>
        Ok a (mkD (buf d') (pos d') (lim d') (Endian_ d)
                  (fields d ++ [(name, mk (fields d'))]) (trace d'))
    | r => r
    end.

Definition FieldStruct {A} (name : string) (fn : M A) : M A :=
  fieldCompound VStruct name fn.

Definition FieldArray {A} (name : string) (fn : M A) : M A :=
  fieldCompound VArray name fn.

(** Modelled from the spec: the "byte-length-bounded sub-decoding scope that
    hard-fails if the nested decode would read past a caller-specified bit
    limit" (section 6). The scope narrows the readable range to [nBits] bits
    from the cursor; the fields decoded inside go to the current compound;
    afterwards the range is the caller's again and the cursor is where the
    nested decode left it. A negative [nBits] is refused. *)
Definition LimitedFn {A} (nBits : Z) (fn : M A) : M A :=
  fun d =>
    if nBits <? 0 then Err RangeError
    else
      match fn (mkD (buf d) (pos d) (Z.min (lim d) (pos d + nBits))
                    (Endian_ d) [] (trace d)) with
      | Ok a d' =>
          Ok a (mkD (buf d) (pos d') (lim d) (Endian_ d)
                    (fields d ++ fields d') (trace d'))
      | r => r
      end.

(** [d.Endian = e] *)
Definition SetEndian (e : Endian) : M unit :=
  fun d => Ok tt (mkD (buf d) (pos d) (lim d) e (fields d) (trace d)).

(** ** Go statements *)

(** [xs[i]] on a slice: a runtime panic when [i] is out of range. *)
Definition index {A} (xs : list A) (i : Z) : M A :=
  if i <? 0 then go_panic
  else match nth_error xs (Z.to_nat i) with
       | Some x => ret x
       | None => go_panic
       end.

(** [for i := uint64(0); i < n; i++ { body }] *)
Fixpoint repeatM (n : nat) (body : M unit) : M unit :=
  match n with
  | O => ret tt
  | S n' => body ;; repeatM n' body
  end.

Definition for_lt (n : Z) (body : M unit) : M unit :=
  repeatM (Z.to_nat n) body.

End decode.

Import decode.

(* ===================================================================== *)
(** * The decoder *)
(* ===================================================================== *)

Open Scope string_scope.
Open Scope list_scope.
Open Scope Z_scope.

(** Modelled from the spec: an opcode descriptor (section 3): "a symbolic
    name, a boolean uses-single-wide-operand flag, and a boolean
    wide-operand-is-a-jump-target flag". The declaration is not in
    luajit.go. *)
Record BcDef : Type := mkBcDef { Name : string; HasD : bool; IsJump : bool }.

(** Modelled from the spec: a symbol map used as a mapper attaches the symbol
    of a known value and leaves any other scalar as it is; it never fails and
    never changes the value (section 6, scalar decoration). *)
Definition UintMapSymStr (m : Z -> option string) : scalar.UintMapper :=
  fun u =>
    match m (scalar.Actual u) with
    | Some s => (scalar.mkUint (scalar.Actual u) (Some s), None)
    | None => (u, None)
    end.

Record DumpInfo : Type := mkDumpInfo { Strip : bool; BigEndian : bool }.

(** [jumpBias.MapUint] *)
Definition jumpBias_MapUint : scalar.UintMapper :=
  fun u =>
    (scalar.mkUint (sub64 (scalar.Actual u) 32768) (scalar.Sym u), None).

(** [ktabType.MapUint] *)
Definition ktabType_MapUint : scalar.UintMapper :=
  fun u =>
    let a := scalar.Actual u in
    (match a with
     | 0 => scalar.mkUint a (Some "nil")
     | 1 => scalar.mkUint a (Some "false")
     | 2 => scalar.mkUint a (Some "true")
     | 3 => scalar.mkUint a (Some "int")
     | 4 => scalar.mkUint a (Some "num")
     | _ => scalar.mkUint a (Some "str")
     end, None).

(** [kgcType.MapUint] *)
Definition kgcType_MapUint : scalar.UintMapper :=
  fun u =>
    let a := scalar.Actual u in
    (match a with
     | 0 => scalar.mkUint a (Some "child")
     | 1 => scalar.mkUint a (Some "tab")
     | 2 => scalar.mkUint a (Some "i64")
     | 3 => scalar.mkUint a (Some "u64")
     | 4 => scalar.mkUint a (Some "complex")
     | _ => scalar.mkUint a (Some "str")
     end, None).

(** The magic: ESC 'L' 'J' *)
Definition magic : list byte := [x1b; x4c; x4a].

Definition LuaJITDecodeHeader (di : DumpInfo) : M DumpInfo :=
  FieldRawLen "magic" (3 * 8) [AssertBitBuf magic] ;;
  FieldU8 "version" [] ;;
  flags <- FieldStruct "flags" (
    flags <- FieldULEB128 "raw" [] ;;
    FieldValueBool "be" (0 <? Z.land flags 1) ;;
    FieldValueBool "strip" (0 <? Z.land flags 2) ;;
    FieldValueBool "ffi" (0 <? Z.land flags 4) ;;
    FieldValueBool "fr2" (0 <? Z.land flags 8) ;;
    ret flags) ;;
  let di := mkDumpInfo (0 <? Z.land flags 2) (BigEndian di) in
  let di := mkDumpInfo (Strip di) (0 <? Z.land flags 1) in
  if negb (Strip di) then
    namelen <- FieldU8 "namelen" [] ;;
    FieldStr "name" (int64 namelen) ;;
    ret di
  else ret di.

(** The statements shared by the 64-bit payloads:
    [lo := d.ULEB128(); hi := d.ULEB128(); (hi << 32) + lo]. *)
Definition lohi : M Z :=
  lo <- ULEB128 ;;
  hi <- ULEB128 ;;
  ret (add64 (shl64 hi 32) lo).

Definition LuaJITDecodeKTabK : M unit :=
  ktabtype <- FieldULEB128 "ktabtype" [ktabType_MapUint] ;;
  if 5 <=? ktabtype then
    let sz := sub64 ktabtype 5 in
    FieldStr "str" (int64 sz)
  else
    match ktabtype with
    | 3 => FieldULEB128 "int" [] ;; ret tt
    | 4 => FieldAnyFn "num" (u <- lohi ;; ret (VFloat (u64tof64 u)))
    | _ => ret tt
    end.

Definition LuaJITDecodeCplx : M Value :=
  lo <- ULEB128 ;;
  if Z.land lo 1 =? 0 then
    ret (VUint (Z.shiftr lo 1) None)
  else
    hi <- ULEB128 ;;
    ret (VFloat (u64tof64 (add64 (shl64 hi 32) (Z.shiftr lo 1)))).

Definition LuaJITDecodeKGC : M unit :=
  kgctype <- FieldULEB128 "type" [kgcType_MapUint] ;;
  if 5 <=? kgctype then
    let sz := sub64 kgctype 5 in
    FieldStr "str" (int64 sz)
  else
    match kgctype with
    | 0 => ret tt
    | 1 =>
        narray <- FieldULEB128 "narray" [] ;;
        nhash <- FieldULEB128 "nhash" [] ;;
        FieldArray "karray"
          (for_lt narray (FieldStruct "ktab" LuaJITDecodeKTabK)) ;;
        FieldArray "khash"
          (for_lt nhash
             (FieldStruct "khash"
                (FieldStruct "k" LuaJITDecodeKTabK ;;
                 FieldStruct "v" LuaJITDecodeKTabK)))
    | 2 => FieldAnyFn "i64" (u <- lohi ;; ret (VSint (int64 u)))
    | 3 => FieldAnyFn "u64" (u <- lohi ;; ret (VUint u None))
    | 4 =>
        FieldAnyFn "real" (r <- lohi ;; ret (VFloat (u64tof64 r))) ;;
        FieldAnyFn "imag" (i <- lohi ;; ret (VFloat (u64tof64 i)))
    | _ => ret tt
    end.

Definition LuaJITDecodeKNum : M Value :=
  lo <- ULEB128 ;;
  if Z.land lo 1 =? 0 then
    ret (VUint (Z.shiftr lo 1) None)
  else
    hi <- ULEB128 ;;
    ret (VFloat (u64tof64 (add64 (shl64 hi 32) (Z.shiftr lo 1)))).

Section Decoder.

(** The opcode table [opcodes] and the opcode symbol map [bcOpSyms] are
    declared outside luajit.go; the decoder is parametric in both. The table
    is an ordered list with one entry per opcode number (spec, section 4.2),
    indexed by the opcode byte as in the source. *)
Variable opcodes : list BcDef.
Variable bcOpSyms : Z -> option string.

Definition LuaJITDecodeBCIns : M unit :=
  op <- FieldU8 "op" [UintMapSymStr bcOpSyms] ;;
  FieldU8 "a" [] ;;
  o <- index opcodes (int64 op) ;;
  if HasD o then
    o' <- index opcodes (int64 op) ;;
    if IsJump o' then FieldU16 "j" [jumpBias_MapUint] ;; ret tt
    else FieldU16 "d" [] ;; ret tt
  else
    FieldU8 "c" [] ;;
    FieldU8 "b" [] ;;
    ret tt.

(** The variables that the closure of the [phead] struct sets for the rest
    of [LuaJITDecodeProto]. *)
Record PHead : Type := mkPHead {
  numuv : Z; numkgc : Z; numkn : Z; numbc : Z; debuglen : Z
}.

(** The closure passed to [FieldStruct("phead", ...)]. *)
Definition LuaJITDecodePHead (di : DumpInfo) : M PHead :=
  FieldU8 "flags" [] ;;
  FieldU8 "numparams" [] ;;
  FieldU8 "framesize" [] ;;
  numuv <- FieldU8 "numuv" [] ;;
  numkgc <- FieldULEB128 "numkgc" [] ;;
  numkn <- FieldULEB128 "numkn" [] ;;
  numbc <- FieldULEB128 "numbc" [] ;;
  if negb (Strip di) then
    debuglen <- FieldULEB128 "debuglen" [] ;;
    if 0 <? debuglen then
      FieldULEB128 "firstline" [] ;;
      FieldULEB128 "numline" [] ;;
      ret (mkPHead numuv numkgc numkn numbc debuglen)
    else ret (mkPHead numuv numkgc numkn numbc debuglen)
  else ret (mkPHead numuv numkgc numkn numbc 0).

(** The closure passed to [FieldStruct("pdata", ...)]. *)
Definition LuaJITDecodePData (di : DumpInfo) : M unit :=
  h <- FieldStruct "phead" (LuaJITDecodePHead di) ;;
  FieldArray "bcins"
    (for_lt (numbc h) (FieldStruct "ins" LuaJITDecodeBCIns)) ;;
  FieldArray "uvdata"
    (for_lt (numuv h) (FieldU16 "uv" [] ;; ret tt)) ;;
  FieldArray "kgc"
    (for_lt (numkgc h) (FieldStruct "kgc" LuaJITDecodeKGC)) ;;
  FieldArray "knum"
    (for_lt (numkn h) (FieldAnyFn "knum" LuaJITDecodeKNum)) ;;
  if negb (Strip di) then
    FieldArray "debug"
      (for_lt (debuglen h) (FieldU8 "db" [] ;; ret tt))
  else ret tt.

Definition LuaJITDecodeProto (di : DumpInfo) : M unit :=
  length <- FieldULEB128 "length" [] ;;
  LimitedFn (mul_int64 8 (int64 length))
    (FieldStruct "pdata" (LuaJITDecodePData di)).

(** The loop of [LuaJITDecode]: peek, stop on a zero byte, else one more
    proto. [steps] bounds the number of iterations. *)
Fixpoint proto_loop (steps : nat) (di : DumpInfo) : M unit :=
  match steps with
  | O => fun _ => OutOfSteps
  | S steps' =>
      nextByte <- PeekBytes 1 ;;
      if bytes_eqb nextByte [x00] then ret tt
      else
        FieldStruct "proto" (LuaJITDecodeProto di) ;;
        proto_loop steps' di
  end.

(** Every iteration that goes on consumes input, so one step per byte of the
    input, and one more, is enough (see [proto_loop_total]). *)
Definition enough_steps (d : D) : nat := S (List.length (buf d)).

Definition decode_protos (di : DumpInfo) : M unit :=
  fun d => proto_loop (enough_steps d) di d.

Definition LuaJITDecode : M unit :=
  di <- FieldStruct "header"
          (LuaJITDecodeHeader (mkDumpInfo false false)) ;;
  (if BigEndian di then SetEndian decode.BigEndian
   else SetEndian decode.LittleEndian) ;;
  FieldArray "proto" (decode_protos di) ;;
  FieldU8 "end" [] ;;
  ret tt.

End Decoder.

(* ===================================================================== *)
(** * What a routine may do to the decoder *)
(* ===================================================================== *)

(** A read event [ev] made from [d] on: it lies between the cursor and the
    end of the readable range of [d], and a 2-byte read used the byte order
    of [d]. *)
Definition ev_ok (d : D) (ev : ReadEvent) : Prop :=
  pos d <= ev_pos ev /\ 0 <= ev_bits ev /\
  ev_pos ev + ev_bits ev <= lim d /\
  (forall e, ev_kind ev = RU16 e -> e = Endian_ d).

(** [d'] is [d] after some reads: same input, range and byte order; the
    cursor did not go back and, if it moved, it is inside the range and inside
    the input; the trace grew by reads made from [d] on; the current compound
    got more children and lost none. *)
Definition ext (d d' : D) : Prop :=
  buf d' = buf d /\ lim d' = lim d /\ Endian_ d' = Endian_ d /\
  pos d <= pos d' /\
  (pos d < pos d' ->
   pos d' <= lim d /\
   (0 <= pos d -> pos d' / 8 <= Z.of_nat (List.length (buf d)))) /\
  (exists evs, trace d' = trace d ++ evs /\ Forall (ev_ok d) evs) /\
  exists fs, fields d' = fields d ++ fs.

Definition Preserves {A} (m : M A) : Prop :=
  forall d a d', m d = Ok a d' -> ext d d'.

(** A routine that consumes at least one byte whenever it succeeds. *)
Definition Advances {A} (m : M A) : Prop :=
  forall d a d', m d = Ok a d' -> pos d + 8 <= pos d'.

(** The shape of an outcome, and routines that never end in a given one. *)
Inductive Outcome : Type :=
| OOk
| OErr (e : DecodeError)
| OPanic
| OOutOfSteps.

Definition outcome {A} (r : Result A) : Outcome :=
  match r with
  | Ok _ _ => OOk
  | Err e => OErr e
  | Panic => OPanic
  | OutOfSteps => OOutOfSteps
  end.

Definition Avoids (o : Outcome) {A} (m : M A) : Prop :=
  forall d, outcome (m d) <> o.

(** The decoder [d] with its readable range cut at [L]. *)
Definition with_lim (L : Z) (d : D) : D :=
  mkD (buf d) (pos d) L (Endian_ d) (fields d) (trace d).

(** A routine that respects a narrower range: if it succeeds from [d], then
    from [d] with the range cut at [L] it does the same when it ends at or
    before [L], and fails with an I/O error when it would end beyond [L]. *)
Definition Bounded {A} (m : M A) : Prop :=
  forall d L a d',
    m d = Ok a d' -> pos d <= L -> L <= lim d ->
    m (with_lim L d)
    = if pos d' <=? L then Ok a (with_lim L d') else Err IOError.

Definition Good {A} (m : M A) : Prop := Preserves m /\ Bounded m.

(** A routine that never ends in a Go runtime panic. *)
Definition NoPanic {A} (m : M A) : Prop := forall d, m d <> Panic.

(** An opcode table with an entry for every byte value (the entries do not
    matter where it is used). *)
Definition full_opcodes : list BcDef :=
  repeat (mkBcDef "OP" false false) 256.

(** The table constant 01 02 ...: no payload here, only a tag of 2 (true). *)
Definition ktabk_example : D := newD [x02].

(** A loop body that adds exactly one child, named [name], to the compound. *)
Definition AddsOne (name : string) (body : M unit) : Prop :=
  forall d d', body d = Ok tt d' ->
               exists v, fields d' = fields d ++ [(name, v)].

(** A proto of a dump that is not stripped: length 18; head with one upvalue,
    no constant, one instruction, and two debug bytes (so first line and line
    count follow); the jump 01 00 FF 7F; the upvalue 00 01; the debug bytes
    AA BB. *)
Definition debug_proto_example : D :=
  newD [x12; x00; x00; x00; x01; x00; x00; x01; x02; x05; x03;
        x01; x00; xff; x7f; x00; x01; xaa; xbb].

(** The decoder [e] is the decoder [d] on an input with more bytes after it:
    the same cursor and state, the bytes [extra] appended to the input, and a
    readable range that ends no earlier. *)
Definition extends (extra : list byte) (d e : D) : Prop :=
  buf e = buf d ++ extra /\ pos e = pos d /\ lim d <= lim e /\
  Endian_ e = Endian_ d /\ fields e = fields d /\ trace e = trace d.

(** A routine that does not see bytes appended to the input: where it
    succeeds, it succeeds on the longer input with the same result, the same
    reads and the same fields. *)
Definition Stable {A} (m : M A) : Prop :=
  forall extra d e a d',
    extends extra d e -> m d = Ok a d' ->
    exists e', m e = Ok a e' /\ extends extra d' e'.

(** The decoder [d] with another byte order. *)
Definition with_endian (en : Endian) (d : D) : D :=
  mkD (buf d) (pos d) (lim d) en (fields d) (trace d).

(** A routine that neither uses nor sets the byte order: from a decoder with
    another byte order it does the same, and leaves that byte order. *)
Definition EndianFree {A} (m : M A) : Prop :=
  forall en d,
    m (with_endian en d)
    = match m d with
      | Ok a d' => Ok a (with_endian en d')
      | Err e => Err e
      | Panic => Panic
      | OutOfSteps => OutOfSteps
      end.

(** The reads [evs] cover the bits from [p] to [q] one after the other: each
    read starts where the one before ended, and a lookahead starts at the
    cursor and leaves it there. *)
Fixpoint covers (p : Z) (evs : list ReadEvent) (q : Z) : Prop :=
  match evs with
  | [] => p = q
  | ev :: evs' =>
      ev_pos ev = p /\ 0 <= ev_bits ev /\
      match ev_kind ev with
      | RPeek => covers p evs' q
      | _ => covers (p + ev_bits ev) evs' q
      end
  end.

(** A routine that reads its input in order, without a gap and without
    going back. *)
Definition Contiguous {A} (m : M A) : Prop :=
  forall d a d',
    m d = Ok a d' ->
    exists evs, trace d' = trace d ++ evs /\ covers (pos d) evs (pos d').

(** A mapper whose error result is [nil] on every input. *)
Definition NilError (sm : scalar.UintMapper) : Prop :=
  forall u, snd (sm u) = None.

(* ===================================================================== *)
(** * Statements and test data used by the properties *)
(* ===================================================================== *)

(** The decoder after a routine that succeeds on [d] (and [d] itself
    otherwise); used to name intermediate decoders in examples. *)
Definition state_after {A} (m : M A) (d : D) : D :=
  match m d with
  | Ok _ d' => d'
  | _ => d
  end.

(** A three-entry opcode table for the examples: opcode 0 has a wide operand,
    opcode 1 has a wide operand that is a jump target, opcode 2 has the two
    narrow operands. The names are LuaJIT's; the numbering is not. *)
Definition test_opcodes : list BcDef :=
  [mkBcDef "KSHORT" true false;
   mkBcDef "JMP" true true;
   mkBcDef "ADDVV" false false].

Definition test_syms : Z -> option string :=
  fun op => option_map Name (nth_error test_opcodes (Z.to_nat op)).

(** A numeric constant with lo = 5, hi = 0. *)
Definition knum_example : D := newD [x05; x00].

(** The instruction 01 00 7F FF: with the test table, a jump. *)
Definition jump_example : D := newD [x01; x00; x7f; xff].

(** A stripped, big-endian dump (flags 3) with one proto of one instruction,
    the jump 01 00 FF 7F, and the terminator. *)
Definition be_dump_example : D :=
  newD [x1b; x4c; x4a; x01; x03;
        x0b; x00; x00; x00; x00; x00; x00; x01; x01; x00; xff; x7f;
        x00].

(** The minimal dump of the spec: header not stripped, name "t", no proto,
    terminator. *)
Definition minimal_dump_example : D :=
  newD [x1b; x4c; x4a; x01; x00; x01; x74; x00].

(** The byte order that flags bit 0 selects. *)
Definition flags_endian (flags : Z) : Endian :=
  if Z.testbit flags 0 then decode.BigEndian else decode.LittleEndian.

(** A proto of a stripped dump that declares 8 bytes and holds 7 (no
    instruction, no constant), followed by one more byte. *)
Definition short_proto_example : D :=
  newD [x08; x00; x00; x00; x00; x00; x00; x00; xff].

(** The GC constant 07 'a' 'b': a string of 7 - 5 = 2 bytes. *)
Definition kgc_str_example : D := newD [x07; x61; x62].

(** The decoder [d] with other children in the current compound. *)
Definition with_fields (fs : list (string * Value)) (d : D) : D :=
  mkD (buf d) (pos d) (lim d) (Endian_ d) fs (trace d).

(** The numeric constant scheme in the words of the spec: an even [lo] gives
    the integer [lo >> 1] and nothing more is read; an odd [lo] is followed by
    [hi] and gives the double of pattern [hi<<32 | (lo>>1)]. *)
Definition KNum_as_stated : Prop :=
  forall d lo d1,
    ULEB128 d = Ok lo d1 ->
    (Z.land lo 1 = 0 ->
     LuaJITDecodeKNum d = Ok (VUint (Z.shiftr lo 1) None) d1) /\
    (Z.land lo 1 = 1 ->
     forall hi d2,
       ULEB128 d1 = Ok hi d2 ->
       LuaJITDecodeKNum d =
       Ok (VFloat (Float64frombits (Z.lor (shl64 hi 32) (Z.shiftr lo 1)))) d2).

(** The jump operand in the words of the spec: the exposed value is the raw
    16-bit value minus 0x8000. *)
Definition jump_operand_as_stated : Prop :=
  forall opcodes bcOpSyms d op d1 a d2 o raw d3,
    FieldU8 "op" [UintMapSymStr bcOpSyms] d = Ok op d1 ->
    FieldU8 "a" [] d1 = Ok a d2 ->
    nth_error opcodes (Z.to_nat op) = Some o ->
    HasD o = true -> IsJump o = true ->
    U16 d2 = Ok raw d3 ->
    exists d',
      LuaJITDecodeBCIns opcodes bcOpSyms d = Ok tt d' /\
      fields d' = fields d3 ++ [("j", VUint (raw - 32768) None)].

(** The u64 constant in the words of the spec: [hi<<32 | lo]. *)
Definition KGC_u64_as_stated : Prop :=
  forall d d1 lo d2 hi d3,
    FieldULEB128 "type" [kgcType_MapUint] d = Ok 3 d1 ->
    ULEB128 d1 = Ok lo d2 ->
    ULEB128 d2 = Ok hi d3 ->
    exists d',
      LuaJITDecodeKGC d = Ok tt d' /\
      fields d' = fields d3 ++ [("u64", VUint (Z.lor (shl64 hi 32) lo) None)].

(** The proto boundary in the words of the spec: on success the cursor is at
    the boundary, [length] bytes after the length field. *)
Definition proto_boundary_as_stated : Prop :=
  forall opcodes bcOpSyms di d d',
    LuaJITDecodeProto opcodes bcOpSyms di d = Ok tt d' ->
    exists length d1,
      FieldULEB128 "length" [] d = Ok length d1 /\
      pos d' = pos d1 + 8 * length.

(* ===================================================================== *)
(** * Machine integers: facts *)
(* ===================================================================== *)

Lemma byte_to_Z_range b : 0 <= byte_to_Z b < 256.
Proof.
  unfold byte_to_Z. pose proof (Byte.to_N_bounded b). lia.
Qed.

Lemma wrap64_range z : 0 <= wrap64 z < 2 ^ 64.
Proof. unfold wrap64. apply Z.mod_pos_bound. lia. Qed.

Lemma wrap64_small z : 0 <= z < 2 ^ 64 -> wrap64 z = z.
Proof. intros. unfold wrap64. apply Z.mod_small. assumption. Qed.

Lemma int64_small z : 0 <= z < 2 ^ 63 -> int64 z = z.
Proof.
  intros. unfold int64. rewrite Z.mod_small; lia.
Qed.

Lemma int64_range z : - 2 ^ 63 <= int64 z < 2 ^ 63.
Proof.
  unfold int64. pose proof (Z.mod_pos_bound (z + 2 ^ 63) (2 ^ 64)). lia.
Qed.

Lemma land_mul_pow2_small a b n :
  0 <= n -> 0 <= b < 2 ^ n -> Z.land (a * 2 ^ n) b = 0.
Proof.
  intros Hn Hb. apply Z.bits_inj'. intros i Hi.
  rewrite Z.land_spec, Z.bits_0.
  destruct (Z.lt_ge_cases i n) as [Hlt | Hge].
  - rewrite Z.mul_pow2_bits_low by lia. reflexivity.
  - assert (Z.testbit b i = false) as ->.
    { destruct (Z.eq_dec b 0) as [-> | Hnz]; [apply Z.bits_0 |].
      apply Z.bits_above_log2; [lia |].
      apply Z.lt_le_trans with n; [| lia].
      apply Z.log2_lt_pow2; lia. }
    apply andb_false_r.
Qed.

Lemma lor_mul_pow2_add a b n :
  0 <= n -> 0 <= b < 2 ^ n -> Z.lor (a * 2 ^ n) b = a * 2 ^ n + b.
Proof.
  intros Hn Hb. rewrite <- Z.add_lor_land.
  rewrite land_mul_pow2_small by assumption. lia.
Qed.

Lemma BigEndian_roundtrip u :
  0 <= u < 2 ^ 64 ->
  binary.BigEndian_Uint64 (binary.BigEndian_PutUint64 u) = u.
Proof.
  intros Hu. unfold binary.BigEndian_Uint64, binary.BigEndian_PutUint64.
  cbn [map fold_left].
  change 255 with (Z.ones 8).
  rewrite !Z.land_ones by lia.
  rewrite !Z.shiftr_div_pow2 by lia.
  rewrite !Z.shiftl_mul_pow2 by lia.
  change (0 * 2 ^ 8) with 0. rewrite Z.lor_0_l.
  repeat (rewrite lor_mul_pow2_add; [| lia | apply Z.mod_pos_bound; lia]).
  change (2 ^ 0) with 1. rewrite Z.div_1_r.
  Z.div_mod_to_equations. lia.
Qed.
Lemma u64tof64_bits u :
  0 <= u < 2 ^ 64 -> Float64bits (u64tof64 u) = u.
Proof.
  intros Hu. unfold u64tof64, binary.Read_BigEndian_float64. cbn [Float64bits].
  apply BigEndian_roundtrip. assumption.
Qed.

Lemma shl64_32 hi : shl64 hi 32 = (hi mod 2 ^ 32) * 2 ^ 32.
Proof.
  unfold shl64, wrap64. rewrite Z.shiftl_mul_pow2 by lia.
  change (2 ^ 64) with (2 ^ 32 * 2 ^ 32).
  rewrite Z.mul_mod_distr_r by lia. reflexivity.
Qed.

(** Where the low word fits 32 bits, adding it to [hi << 32] sets the same
    bits as or-ing it in, and nothing wraps. *)
Lemma add64_shl64_lor hi lo :
  0 <= lo < 2 ^ 32 ->
  add64 (shl64 hi 32) lo = Z.lor (shl64 hi 32) lo.
Proof.
  intros Hlo. unfold add64. rewrite shl64_32.
  rewrite lor_mul_pow2_add by lia.
  apply wrap64_small.
  pose proof (Z.mod_pos_bound hi (2 ^ 32)). nia.
Qed.

Lemma lor_lt_pow2 a b n :
  0 <= n -> 0 <= a < 2 ^ n -> 0 <= b < 2 ^ n -> 0 <= Z.lor a b < 2 ^ n.
Proof.
  intros Hn Ha Hb.
  assert (Hnn : 0 <= Z.lor a b) by (apply Z.lor_nonneg; lia).
  split; [assumption |].
  destruct (Z.eq_dec (Z.lor a b) 0) as [-> | Hnz]; [lia |].
  assert (Hpos : 0 < n).
  { destruct (Z.eq_dec n 0) as [-> | ]; [| lia].
    assert (a = 0) by lia. assert (b = 0) by lia. subst. now cbn in Hnz. }
  assert (Hlog : forall x, 0 <= x < 2 ^ n -> Z.log2 x < n).
  { intros x Hx. destruct (Z.eq_dec x 0) as [-> | ]; [now cbn |].
    apply Z.log2_lt_pow2; lia. }
  apply Z.log2_lt_pow2; [lia |].
  rewrite Z.log2_lor by lia.
  apply Z.max_lub_lt; apply Hlog; assumption.
Qed.

(* ===================================================================== *)
(** * The monad and the primitives: inversion and frame *)
(* ===================================================================== *)

Lemma bind_Ok {A B} (m : M A) (k : A -> M B) d b d2 :
  bind m k d = Ok b d2 ->
  exists a d1, m d = Ok a d1 /\ k a d1 = Ok b d2.
Proof.
  unfold bind. destruct (m d) as [a d1 | e | |]; try discriminate.
  intros H. exists a, d1. split; [reflexivity | exact H].
Qed.

Lemma bind_eq {A B} (m : M A) (k : A -> M B) d a d1 :
  m d = Ok a d1 -> bind m k d = k a d1.
Proof. unfold bind. intros ->. reflexivity. Qed.

Lemma bind_Err {A B} (m : M A) (k : A -> M B) d e :
  m d = Err e -> bind m k d = Err e.
Proof. unfold bind. intros ->. reflexivity. Qed.

Lemma ext_refl d : ext d d.
Proof.
  unfold ext. repeat split; try reflexivity; try lia.
  - exists []. split; [now rewrite app_nil_r | constructor].
  - exists []. now rewrite app_nil_r.
Qed.

Lemma ev_ok_mono d d' ev :
  pos d <= pos d' -> lim d' <= lim d -> Endian_ d' = Endian_ d ->
  ev_ok d' ev -> ev_ok d ev.
Proof.
  unfold ev_ok. intros Hp Hl He (H1 & H2 & H3 & H4).
  repeat split; try lia. intros e Hk. rewrite <- He. auto.
Qed.

Lemma ext_trans d1 d2 d3 : ext d1 d2 -> ext d2 d3 -> ext d1 d3.
Proof.
  intros (Hb & Hl & He & Hp & Hq & (evs & Ht & Hf) & (fs & Hfs))
         (Hb' & Hl' & He' & Hp' & Hq' & (evs' & Ht' & Hf') & (fs' & Hfs')).
  unfold ext.
  split; [congruence |]. split; [congruence |]. split; [congruence |].
  split; [lia |]. split.
  - intros Hlt. rewrite Hl, Hb in Hq'.
    destruct (Z.eq_dec (pos d2) (pos d3)) as [E | N].
    + rewrite <- E. apply Hq. lia.
    + destruct Hq' as [Hq1 Hq2]; [lia |]. split; [assumption |].
      intros H0. apply Hq2. lia.
  - split.
    + exists (evs ++ evs'). split.
      * rewrite Ht', Ht. now rewrite app_assoc.
      * apply Forall_app. split; [assumption |].
        eapply Forall_impl; [| exact Hf'].
        intros ev. apply ev_ok_mono; [lia | lia | assumption].
    + exists (fs ++ fs'). rewrite Hfs', Hfs. now rewrite app_assoc.
Qed.

Lemma tryBytes_Ok k n d bs d' :
  tryBytes k n d = Ok bs d' ->
  0 <= n /\ pos d + 8 * n <= lim d /\
  bs = firstn (Z.to_nat n) (skipn (Z.to_nat (pos d / 8)) (buf d)) /\
  Z.of_nat (List.length bs) = n /\
  d' = mkD (buf d) (pos d + 8 * n) (lim d) (Endian_ d) (fields d)
           (trace d ++ [mkEvent (pos d) (8 * n) k]).
Proof.
  unfold tryBytes.
  destruct (n <? 0) eqn:Hn; [discriminate |].
  destruct (lim d <? pos d + 8 * n) eqn:Hl; [discriminate |].
  destruct (Z.of_nat _ <? n) eqn:Hlen; [discriminate |].
  intros H. inversion H; subst bs d'; clear H.
  apply Z.ltb_ge in Hn, Hl, Hlen.
  repeat split; try assumption; try lia.
  pose proof (firstn_le_length (Z.to_nat n)
                (skipn (Z.to_nat (pos d / 8)) (buf d))). lia.
Qed.

Lemma tryBytes_ext k n d bs d' :
  (forall e, k = RU16 e -> e = Endian_ d) ->
  tryBytes k n d = Ok bs d' -> ext d d'.
Proof.
  intros Hk H. apply tryBytes_Ok in H.
  destruct H as (Hn & Hl & Hbs & Hlen & ->).
  unfold ext; cbn [buf pos lim Endian_ fields trace].
  split; [reflexivity |]. split; [reflexivity |]. split; [reflexivity |].
  split; [lia |]. split.
  - intros H0. split; [lia |]. intros Hpos.
    rewrite Z.mul_comm, Z.div_add by lia.
    assert (Hsk : (List.length bs <= List.length (skipn (Z.to_nat (pos d / 8)) (buf d)))%nat).
    { rewrite Hbs. rewrite length_firstn. apply Nat.le_min_r. }
    revert Hsk. rewrite length_skipn. intros Hsk.
    assert (0 <= pos d / 8) by (apply Z.div_pos; lia). lia.
  - split; [| exists []; now rewrite app_nil_r].
    exists [mkEvent (pos d) (8 * n) k]. split; [reflexivity |].
    constructor; [| constructor].
    unfold ev_ok; cbn [buf pos lim Endian_ ev_pos ev_bits ev_kind].
    repeat split; try lia. exact Hk.
Qed.

(** ** Frame lemmas, one per primitive and combinator *)

Create HintDb frame.

Lemma Preserves_ret {A} (a : A) : Preserves (ret a).
Proof. intros d a' d' H. inversion H; subst. apply ext_refl. Qed.

Lemma Preserves_raise {A} e : Preserves (@raise A e).
Proof. intros d a d' H. discriminate. Qed.

Lemma Preserves_go_panic {A} : Preserves (@go_panic A).
Proof. intros d a d' H. discriminate. Qed.

Lemma Preserves_bind {A B} (m : M A) (k : A -> M B) :
  Preserves m -> (forall a, Preserves (k a)) -> Preserves (bind m k).
Proof.
  intros Hm Hk d b d2 H. apply bind_Ok in H. destruct H as (a & d1 & H1 & H2).
  eapply ext_trans; [eapply Hm | eapply Hk]; eassumption.
Qed.

Lemma Preserves_U8 : Preserves U8.
Proof.
  intros d a d' H. unfold U8 in H. apply bind_Ok in H.
  destruct H as (bs & d1 & H1 & H2).
  apply tryBytes_ext in H1; [| discriminate].
  destruct bs as [| b [| b' bs]]; try discriminate.
  inversion H2; subst. assumption.
Qed.

Lemma Preserves_U16 : Preserves U16.
Proof.
  intros d a d' H. unfold U16 in H. apply bind_Ok in H.
  destruct H as (bs & d1 & H1 & H2).
  apply tryBytes_ext in H1; [| intros e He; now inversion He].
  destruct bs as [| b0 [| b1 [| b2 bs]]]; try discriminate.
  destruct (Endian_ d); inversion H2; subst; assumption.
Qed.

Lemma Preserves_if {A} (b : bool) (m1 m2 : M A) :
  Preserves m1 -> Preserves m2 -> Preserves (if b then m1 else m2).
Proof. destruct b; auto. Qed.

Lemma Preserves_uleb128_loop n : forall result shift,
  Preserves (uleb128_loop n result shift).
Proof.
  induction n as [| n IH]; intros result shift; cbn [uleb128_loop].
  - apply Preserves_raise.
  - apply Preserves_bind; [apply Preserves_U8 |]. intros b.
    apply Preserves_if; [apply Preserves_raise |].
    apply Preserves_if; [apply Preserves_ret | apply IH].
Qed.

Lemma Preserves_ULEB128 : Preserves ULEB128.
Proof. apply Preserves_uleb128_loop. Qed.

Lemma Preserves_AddChild name v : Preserves (AddChild name v).
Proof.
  intros d a d' H. inversion H; subst.
  unfold ext; cbn [buf pos lim Endian_ fields trace].
  repeat split; try lia.
  - exists []. split; [now rewrite app_nil_r | constructor].
  - eexists. reflexivity.
Qed.

Lemma mapUint_Ok sms : forall u d u' d',
  mapUint sms u d = Ok u' d' -> d' = d.
Proof.
  induction sms as [| sm sms IH]; intros u d u' d' H; cbn [mapUint] in H.
  - now inversion H.
  - destruct (sm u) as [u1 [e |]]; [discriminate | eauto].
Qed.

Lemma Preserves_mapUint sms u : Preserves (mapUint sms u).
Proof.
  intros d a d' H. apply mapUint_Ok in H. subst. apply ext_refl.
Qed.

Lemma mapBitBuf_Ok sms : forall bs d u d',
  mapBitBuf sms bs d = Ok u d' -> d' = d.
Proof.
  induction sms as [| sm sms IH]; intros bs d u d' H; cbn [mapBitBuf] in H.
  - now inversion H.
  - destruct (sm bs) as [e |]; [discriminate | eauto].
Qed.

Lemma Preserves_mapBitBuf sms bs : Preserves (mapBitBuf sms bs).
Proof.
  intros d a d' H. apply mapBitBuf_Ok in H. subst. apply ext_refl.
Qed.

Lemma Preserves_FieldUintFn name fn sms :
  Preserves fn -> Preserves (FieldUintFn name fn sms).
Proof.
  intros Hfn. unfold FieldUintFn.
  apply Preserves_bind; [assumption |]. intros v.
  apply Preserves_bind; [apply Preserves_mapUint |]. intros u.
  apply Preserves_bind; [apply Preserves_AddChild |]. intros _.
  apply Preserves_ret.
Qed.

Lemma Preserves_FieldU8 name sms : Preserves (FieldU8 name sms).
Proof. apply Preserves_FieldUintFn, Preserves_U8. Qed.

Lemma Preserves_FieldU16 name sms : Preserves (FieldU16 name sms).
Proof. apply Preserves_FieldUintFn, Preserves_U16. Qed.

Lemma Preserves_FieldULEB128 name sms : Preserves (FieldULEB128 name sms).
Proof. apply Preserves_FieldUintFn, Preserves_ULEB128. Qed.

Lemma Preserves_FieldAnyFn name fn :
  Preserves fn -> Preserves (FieldAnyFn name fn).
Proof.
  intros Hfn. unfold FieldAnyFn.
  apply Preserves_bind; [assumption |]. intros v. apply Preserves_AddChild.
Qed.

Lemma Preserves_FieldValueBool name b : Preserves (FieldValueBool name b).
Proof. apply Preserves_AddChild. Qed.

Lemma Preserves_tryBytes_raw n : Preserves (tryBytes RRaw n).
Proof. intros d a d' H. eapply tryBytes_ext; [| exact H]. discriminate. Qed.

Lemma Preserves_FieldStr name n : Preserves (FieldStr name n).
Proof.
  unfold FieldStr. apply Preserves_bind; [apply Preserves_tryBytes_raw |].
  intros bs. apply Preserves_AddChild.
Qed.

Lemma Preserves_FieldRawLen name n sms : Preserves (FieldRawLen name n sms).
Proof.
  unfold FieldRawLen. apply Preserves_bind; [apply Preserves_tryBytes_raw |].
  intros bs. apply Preserves_bind; [apply Preserves_mapBitBuf |].
  intros _. apply Preserves_AddChild.
Qed.

Lemma fieldCompound_Ok {A} mk name (fn : M A) d a d2 :
  fieldCompound mk name fn d = Ok a d2 ->
  exists d1,
    fn (mkD (buf d) (pos d) (lim d) (Endian_ d) [] (trace d)) = Ok a d1 /\
    d2 = mkD (buf d1) (pos d1) (lim d1) (Endian_ d)
             (fields d ++ [(name, mk (fields d1))]) (trace d1).
Proof.
  unfold fieldCompound.
  destruct (fn _) as [a1 d1 | e | |]; try discriminate.
  intros H. inversion H; subst. eauto.
Qed.

Lemma Preserves_fieldCompound {A} mk name (fn : M A) :
  Preserves fn -> Preserves (fieldCompound mk name fn).
Proof.
  intros Hfn d a d2 H. apply fieldCompound_Ok in H.
  destruct H as (d1 & H1 & ->). apply Hfn in H1.
  revert H1. unfold ext, ev_ok; cbn [buf pos lim Endian_ fields trace].
  intros (Hb & Hl & He & Hp & Hq & Ht & _).
  split; [assumption |]. split; [assumption |]. split; [reflexivity |].
  split; [assumption |]. split; [assumption |]. split; [assumption |].
  eexists. reflexivity.
Qed.

Lemma Preserves_FieldStruct {A} name (fn : M A) :
  Preserves fn -> Preserves (FieldStruct name fn).
Proof. apply Preserves_fieldCompound. Qed.

Lemma Preserves_FieldArray {A} name (fn : M A) :
  Preserves fn -> Preserves (FieldArray name fn).
Proof. apply Preserves_fieldCompound. Qed.

Lemma LimitedFn_Ok {A} nBits (fn : M A) d a d2 :
  LimitedFn nBits fn d = Ok a d2 ->
  0 <= nBits /\
  exists d1,
    fn (mkD (buf d) (pos d) (Z.min (lim d) (pos d + nBits)) (Endian_ d) []
            (trace d)) = Ok a d1 /\
    d2 = mkD (buf d) (pos d1) (lim d) (Endian_ d) (fields d ++ fields d1)
             (trace d1).
Proof.
  unfold LimitedFn. destruct (nBits <? 0) eqn:Hn; [discriminate |].
  apply Z.ltb_ge in Hn.
  destruct (fn _) as [a1 d1 | e | |]; try discriminate.
  intros H. inversion H; subst. eauto.
Qed.

Lemma Preserves_LimitedFn {A} nBits (fn : M A) :
  Preserves fn -> Preserves (LimitedFn nBits fn).
Proof.
  intros Hfn d a d2 H. apply LimitedFn_Ok in H.
  destruct H as (Hn & d1 & H1 & ->). apply Hfn in H1.
  revert H1. unfold ext; cbn [buf pos lim Endian_ trace].
  intros (Hb & Hl & He & Hp & Hq & (evs & Ht & Hf) & _).
  split; [reflexivity |]. split; [reflexivity |]. split; [reflexivity |].
  split; [assumption |]. split.
  - intros Hlt. destruct (Hq Hlt) as [Hq1 Hq2]. split; [lia | assumption].
  - split; [| eexists; reflexivity].
    exists evs. split; [assumption |].
    eapply Forall_impl; [| exact Hf]. intros ev.
    unfold ev_ok; cbn [buf pos lim Endian_ trace]. intuition lia.
Qed.

Lemma Preserves_index {A} (xs : list A) i : Preserves (index xs i).
Proof.
  unfold index. destruct (i <? 0); [apply Preserves_go_panic |].
  destruct (nth_error xs (Z.to_nat i));
    [apply Preserves_ret | apply Preserves_go_panic].
Qed.

Lemma Preserves_repeatM n body : Preserves body -> Preserves (repeatM n body).
Proof.
  intros Hb. induction n as [| n IH]; cbn [repeatM].
  - apply Preserves_ret.
  - apply Preserves_bind; [assumption | intros _; assumption].
Qed.

Lemma Preserves_for_lt n body : Preserves body -> Preserves (for_lt n body).
Proof. apply Preserves_repeatM. Qed.

Lemma PeekBytes_Ok n d bs d' :
  PeekBytes n d = Ok bs d' ->
  0 <= n /\ pos d + 8 * n <= lim d /\
  bs = firstn (Z.to_nat n) (skipn (Z.to_nat (pos d / 8)) (buf d)) /\
  Z.of_nat (List.length bs) = n /\
  d' = mkD (buf d) (pos d) (lim d) (Endian_ d) (fields d)
           (trace d ++ [mkEvent (pos d) (8 * n) RPeek]).
Proof.
  unfold PeekBytes. destruct (tryBytes RPeek n d) as [bs1 d1 | e | |] eqn:H;
    try discriminate.
  apply tryBytes_Ok in H. destruct H as (Hn & Hl & Hbs & Hlen & ->).
  intros [= <- <-]. cbn [trace].
  repeat split; assumption.
Qed.

Lemma Preserves_PeekBytes n : Preserves (PeekBytes n).
Proof.
  intros d bs d' H. apply PeekBytes_Ok in H.
  destruct H as (Hn & Hl & Hbs & Hlen & ->).
  unfold ext; cbn [buf pos lim Endian_ fields trace].
  split; [reflexivity |]. split; [reflexivity |]. split; [reflexivity |].
  split; [lia |]. split; [lia |].
  split; [| exists []; now rewrite app_nil_r].
  exists [mkEvent (pos d) (8 * n) RPeek]. split; [reflexivity |].
  constructor; [| constructor].
  unfold ev_ok; cbn [ev_pos ev_bits ev_kind]. repeat split; try lia.
  discriminate.
Qed.

#[export] Hint Resolve Preserves_ret Preserves_raise Preserves_go_panic
  Preserves_U8 Preserves_U16 Preserves_ULEB128 Preserves_AddChild
  Preserves_FieldU8 Preserves_FieldU16 Preserves_FieldULEB128
  Preserves_FieldAnyFn Preserves_FieldValueBool Preserves_FieldStr
  Preserves_FieldRawLen Preserves_FieldStruct Preserves_FieldArray
  Preserves_LimitedFn Preserves_index Preserves_for_lt Preserves_PeekBytes
  : frame.

(** Break a routine into its statements: binds, branches and switches. *)
Ltac frame_step :=
  match goal with
  | H : Preserves ?m |- Preserves ?m => exact H
  | |- Preserves (bind _ _) => apply Preserves_bind; [| intros ?]
  | |- Preserves (if ?b then _ else _) => destruct b
  | |- Preserves (FieldAnyFn _ _) => apply Preserves_FieldAnyFn
  | |- Preserves (FieldStruct _ _) => apply Preserves_FieldStruct
  | |- Preserves (FieldArray _ _) => apply Preserves_FieldArray
  | |- Preserves (LimitedFn _ _) => apply Preserves_LimitedFn
  | |- Preserves (for_lt _ _) => apply Preserves_for_lt
  | |- Preserves (match ?x with _ => _ end) => destruct x
  | |- Preserves _ => solve [eauto with frame]
  end.

Ltac frame := repeat frame_step.

Lemma Preserves_lohi : Preserves lohi.
Proof. unfold lohi. frame. Qed.

Lemma Preserves_LuaJITDecodeKTabK : Preserves LuaJITDecodeKTabK.
Proof.
  pose proof Preserves_lohi. unfold LuaJITDecodeKTabK. frame.
Qed.

Lemma Preserves_LuaJITDecodeKNum : Preserves LuaJITDecodeKNum.
Proof. unfold LuaJITDecodeKNum. frame. Qed.

Lemma Preserves_LuaJITDecodeKGC : Preserves LuaJITDecodeKGC.
Proof.
  pose proof Preserves_lohi. pose proof Preserves_LuaJITDecodeKTabK.
  unfold LuaJITDecodeKGC. frame.
Qed.

Lemma Preserves_LuaJITDecodeHeader di : Preserves (LuaJITDecodeHeader di).
Proof. unfold LuaJITDecodeHeader. frame. Qed.

Lemma Preserves_LuaJITDecodeBCIns opcodes bcOpSyms :
  Preserves (LuaJITDecodeBCIns opcodes bcOpSyms).
Proof. unfold LuaJITDecodeBCIns. frame. Qed.

Lemma Preserves_LuaJITDecodePHead di : Preserves (LuaJITDecodePHead di).
Proof. unfold LuaJITDecodePHead. frame. Qed.

Lemma Preserves_LuaJITDecodePData opcodes bcOpSyms di :
  Preserves (LuaJITDecodePData opcodes bcOpSyms di).
Proof.
  pose proof (Preserves_LuaJITDecodeBCIns opcodes bcOpSyms).
  pose proof Preserves_LuaJITDecodeKGC.
  pose proof Preserves_LuaJITDecodeKNum.
  pose proof (Preserves_LuaJITDecodePHead di).
  unfold LuaJITDecodePData. frame.
Qed.

Lemma Preserves_LuaJITDecodeProto opcodes bcOpSyms di :
  Preserves (LuaJITDecodeProto opcodes bcOpSyms di).
Proof.
  pose proof (Preserves_LuaJITDecodePData opcodes bcOpSyms di).
  unfold LuaJITDecodeProto. frame.
Qed.

Lemma Preserves_proto_loop opcodes bcOpSyms di steps :
  Preserves (proto_loop opcodes bcOpSyms steps di).
Proof.
  pose proof (Preserves_LuaJITDecodeProto opcodes bcOpSyms di).
  induction steps as [| steps IH]; cbn [proto_loop].
  - intros d a d' H'. discriminate.
  - frame.
Qed.

(** ** Progress: routines that consume input *)

Lemma Advances_bind_l {A B} (m : M A) (k : A -> M B) :
  Advances m -> (forall a, Preserves (k a)) -> Advances (bind m k).
Proof.
  intros Hm Hk d b d2 H. apply bind_Ok in H. destruct H as (a & d1 & H1 & H2).
  apply Hm in H1. apply Hk in H2. destruct H2 as (_ & _ & _ & Hp & _). lia.
Qed.

Lemma Advances_U8 : Advances U8.
Proof.
  intros d a d' H. unfold U8 in H. apply bind_Ok in H.
  destruct H as (bs & d1 & H1 & H2).
  apply tryBytes_Ok in H1. destruct H1 as (_ & _ & _ & _ & ->).
  destruct bs as [| b [| b' bs]]; try discriminate.
  inversion H2; subst. cbn [pos]. lia.
Qed.

Lemma Advances_uleb128_loop n result shift :
  Advances (uleb128_loop (S n) result shift).
Proof.
  cbn [uleb128_loop].
  apply Advances_bind_l; [apply Advances_U8 |]. intros b.
  apply Preserves_if; [apply Preserves_raise |].
  apply Preserves_if; [apply Preserves_ret | apply Preserves_uleb128_loop].
Qed.

Lemma Advances_ULEB128 : Advances ULEB128.
Proof. apply (Advances_uleb128_loop 9). Qed.

Lemma Advances_FieldUintFn name fn sms :
  Advances fn -> Advances (FieldUintFn name fn sms).
Proof.
  intros Hfn. unfold FieldUintFn. apply Advances_bind_l; [assumption |].
  intros v. frame. apply Preserves_mapUint.
Qed.

Lemma Advances_fieldCompound {A} mk name (fn : M A) :
  Advances fn -> Advances (fieldCompound mk name fn).
Proof.
  intros Hfn d a d2 H. apply fieldCompound_Ok in H.
  destruct H as (d1 & H1 & ->). apply Hfn in H1. exact H1.
Qed.

Lemma Advances_LuaJITDecodeProto opcodes bcOpSyms di :
  Advances (LuaJITDecodeProto opcodes bcOpSyms di).
Proof.
  unfold LuaJITDecodeProto. apply Advances_bind_l.
  - apply Advances_FieldUintFn, Advances_ULEB128.
  - intros len. pose proof (Preserves_LuaJITDecodePData opcodes bcOpSyms di).
    frame.
Qed.

(** ** Outcomes a routine never has *)

Section AvoidsFacts.

(** The outcomes of interest: a loop out of steps, the error of a scalar
    mapper, and a failed assertion. No primitive but the assertion produces
    any of them on its own. *)
Variable o : Outcome.
Hypothesis o_kind :
  o = OOutOfSteps \/ o = OErr MapError \/ o = OErr AssertError.

Lemma Avoids_ret {A} (a : A) : Avoids o (ret a).
Proof. intros d. cbn. destruct o_kind as [-> | [-> | ->]]; discriminate. Qed.

Lemma Avoids_raise {A} e :
  e <> MapError -> e <> AssertError -> Avoids o (@raise A e).
Proof.
  intros He He' d. cbn. destruct o_kind as [-> | [-> | ->]]; congruence.
Qed.

Lemma Avoids_go_panic {A} : Avoids o (@go_panic A).
Proof. intros d. cbn. destruct o_kind as [-> | [-> | ->]]; discriminate. Qed.

Lemma Avoids_bind {A B} (m : M A) (k : A -> M B) :
  Avoids o m -> (forall a, Avoids o (k a)) -> Avoids o (bind m k).
Proof.
  intros Hm Hk d. unfold bind. specialize (Hm d).
  destruct (m d) as [a d1 | e | |]; [apply Hk | exact Hm ..].
Qed.

Lemma Avoids_if {A} (b : bool) (m1 m2 : M A) :
  Avoids o m1 -> Avoids o m2 -> Avoids o (if b then m1 else m2).
Proof. destruct b; auto. Qed.

Lemma Avoids_tryBytes k n : Avoids o (tryBytes k n).
Proof.
  intros d. unfold tryBytes.
  repeat match goal with
         | |- context [if ?b then _ else _] => destruct b
         end; cbn; destruct o_kind as [-> | [-> | ->]]; discriminate.
Qed.

Lemma Avoids_PeekBytes n : Avoids o (PeekBytes n).
Proof.
  intros d. unfold PeekBytes. pose proof (Avoids_tryBytes RPeek n d) as H.
  destruct (tryBytes RPeek n d); [| exact H ..].
  cbn. destruct o_kind as [-> | [-> | ->]]; discriminate.
Qed.

Lemma Avoids_U8 : Avoids o U8.
Proof.
  unfold U8. apply Avoids_bind; [apply Avoids_tryBytes |].
  intros [| b [| b' bs]];
    first [apply Avoids_ret | apply Avoids_raise; discriminate].
Qed.

Lemma Avoids_U16 : Avoids o U16.
Proof.
  intros d. unfold U16.
  apply Avoids_bind; [apply Avoids_tryBytes |].
  intros [| b0 [| b1 [| b2 bs]]]; try (apply Avoids_raise; discriminate).
  destruct (Endian_ d); apply Avoids_ret.
Qed.

Lemma Avoids_uleb128_loop n : forall result shift,
  Avoids o (uleb128_loop n result shift).
Proof.
  induction n as [| n IH]; intros result shift; cbn [uleb128_loop].
  - apply Avoids_raise; discriminate.
  - apply Avoids_bind; [apply Avoids_U8 |]. intros b.
    apply Avoids_if; [apply Avoids_raise; discriminate |].
    apply Avoids_if; [apply Avoids_ret | apply IH].
Qed.

Lemma Avoids_ULEB128 : Avoids o ULEB128.
Proof. apply Avoids_uleb128_loop. Qed.

Lemma Avoids_AddChild name v : Avoids o (AddChild name v).
Proof. intros d. cbn. destruct o_kind as [-> | [-> | ->]]; discriminate. Qed.

Lemma Avoids_mapUint sms :
  Forall NilError sms -> forall u, Avoids o (mapUint sms u).
Proof.
  induction 1 as [| sm sms Hsm _ IH]; intros u; cbn [mapUint].
  - apply Avoids_ret.
  - specialize (Hsm u). destruct (sm u) as [u1 [e |]]; cbn in Hsm.
    + discriminate.
    + apply IH.
Qed.

Lemma Avoids_FieldUintFn name fn sms :
  Avoids o fn -> Forall NilError sms -> Avoids o (FieldUintFn name fn sms).
Proof.
  intros Hfn Hsms. unfold FieldUintFn.
  apply Avoids_bind; [assumption |]. intros v.
  apply Avoids_bind; [now apply Avoids_mapUint |]. intros u.
  apply Avoids_bind; [apply Avoids_AddChild |]. intros _. apply Avoids_ret.
Qed.

Lemma Avoids_FieldU8 name sms :
  Forall NilError sms -> Avoids o (FieldU8 name sms).
Proof. apply Avoids_FieldUintFn, Avoids_U8. Qed.

Lemma Avoids_FieldU16 name sms :
  Forall NilError sms -> Avoids o (FieldU16 name sms).
Proof. apply Avoids_FieldUintFn, Avoids_U16. Qed.

Lemma Avoids_FieldULEB128 name sms :
  Forall NilError sms -> Avoids o (FieldULEB128 name sms).
Proof. apply Avoids_FieldUintFn, Avoids_ULEB128. Qed.

Lemma Avoids_FieldAnyFn name fn : Avoids o fn -> Avoids o (FieldAnyFn name fn).
Proof.
  intros Hfn. unfold FieldAnyFn. apply Avoids_bind; [assumption |].
  intros v. apply Avoids_AddChild.
Qed.

Lemma Avoids_FieldValueBool name b : Avoids o (FieldValueBool name b).
Proof. apply Avoids_AddChild. Qed.

Lemma Avoids_FieldStr name n : Avoids o (FieldStr name n).
Proof.
  unfold FieldStr. apply Avoids_bind; [apply Avoids_tryBytes |].
  intros bs. apply Avoids_AddChild.
Qed.

Lemma Avoids_FieldRawLen_assert name n bss :
  o <> OErr AssertError -> Avoids o (FieldRawLen name n [AssertBitBuf bss]).
Proof.
  intros Ho. unfold FieldRawLen. apply Avoids_bind; [apply Avoids_tryBytes |].
  intros bs. apply Avoids_bind; [| intros _; apply Avoids_AddChild].
  cbn [mapBitBuf]. unfold AssertBitBuf.
  destruct (bytes_eqb bs bss); [apply Avoids_ret |].
  intros d. cbn. congruence.
Qed.

Lemma Avoids_fieldCompound {A} mk name (fn : M A) :
  Avoids o fn -> Avoids o (fieldCompound mk name fn).
Proof.
  intros Hfn d. unfold fieldCompound.
  match goal with |- context [fn ?x] => specialize (Hfn x); destruct (fn x) end;
    [| exact Hfn ..].
  cbn. destruct o_kind as [-> | [-> | ->]]; discriminate.
Qed.

Lemma Avoids_LimitedFn {A} nBits (fn : M A) :
  Avoids o fn -> Avoids o (LimitedFn nBits fn).
Proof.
  intros Hfn d. unfold LimitedFn. destruct (nBits <? 0).
  - cbn. destruct o_kind as [-> | [-> | ->]]; discriminate.
  - match goal with |- context [fn ?x] => specialize (Hfn x); destruct (fn x) end;
      [| exact Hfn ..].
    cbn. destruct o_kind as [-> | [-> | ->]]; discriminate.
Qed.

Lemma Avoids_index {A} (xs : list A) i : Avoids o (index xs i).
Proof.
  unfold index. destruct (i <? 0); [apply Avoids_go_panic |].
  destruct (nth_error xs (Z.to_nat i));
    [apply Avoids_ret | apply Avoids_go_panic].
Qed.

Lemma Avoids_for_lt n body : Avoids o body -> Avoids o (for_lt n body).
Proof.
  intros Hb. unfold for_lt. induction (Z.to_nat n) as [| k IH]; cbn [repeatM].
  - apply Avoids_ret.
  - apply Avoids_bind; [assumption | intros _; assumption].
Qed.

End AvoidsFacts.

(** ** The mappers of the decoder return no error *)

Lemma NilError_jumpBias : NilError jumpBias_MapUint.
Proof. intros u. reflexivity. Qed.

Lemma NilError_ktabType : NilError ktabType_MapUint.
Proof. intros u. reflexivity. Qed.

Lemma NilError_kgcType : NilError kgcType_MapUint.
Proof. intros u. reflexivity. Qed.

Lemma NilError_UintMapSymStr m : NilError (UintMapSymStr m).
Proof. intros u. unfold UintMapSymStr. destruct (m _); reflexivity. Qed.

#[export] Hint Resolve NilError_jumpBias NilError_ktabType NilError_kgcType
  NilError_UintMapSymStr : frame.

Ltac avoid_step Ho :=
  match goal with
  | H : Avoids ?o ?m |- Avoids ?o ?m => exact H
  | |- Avoids _ (bind _ _) => first [apply (Avoids_bind _ Ho) | apply Avoids_bind]; [| intros ?]
  | |- Avoids _ (if ?b then _ else _) => destruct b
  | |- Avoids _ (ret _) => first [apply (Avoids_ret _ Ho) | apply Avoids_ret]
  | |- Avoids _ (raise _) => first [apply (Avoids_raise _ Ho) | apply Avoids_raise]; discriminate
  | |- Avoids _ (FieldAnyFn _ _) => first [apply (Avoids_FieldAnyFn _ Ho) | apply Avoids_FieldAnyFn]
  | |- Avoids _ (FieldStruct _ _) => first [apply (Avoids_fieldCompound _ Ho) | apply Avoids_fieldCompound]
  | |- Avoids _ (FieldArray _ _) => first [apply (Avoids_fieldCompound _ Ho) | apply Avoids_fieldCompound]
  | |- Avoids _ (LimitedFn _ _) => first [apply (Avoids_LimitedFn _ Ho) | apply Avoids_LimitedFn]
  | |- Avoids _ (for_lt _ _) => first [apply (Avoids_for_lt _ Ho) | apply Avoids_for_lt]
  | |- Avoids _ (FieldU8 _ _) =>
      first [apply (Avoids_FieldU8 _ Ho) | apply Avoids_FieldU8]; repeat constructor; auto with frame
  | |- Avoids _ (FieldU16 _ _) =>
      first [apply (Avoids_FieldU16 _ Ho) | apply Avoids_FieldU16]; repeat constructor; auto with frame
  | |- Avoids _ (FieldULEB128 _ _) =>
      first [apply (Avoids_FieldULEB128 _ Ho) | apply Avoids_FieldULEB128]; repeat constructor; auto with frame
  | |- Avoids _ ULEB128 => first [apply (Avoids_ULEB128 _ Ho) | apply Avoids_ULEB128]
  | |- Avoids _ (FieldStr _ _) => first [apply (Avoids_FieldStr _ Ho) | apply Avoids_FieldStr]
  | |- Avoids _ (FieldValueBool _ _) => first [apply (Avoids_FieldValueBool _ Ho) | apply Avoids_FieldValueBool]
  | |- Avoids _ (FieldRawLen _ _ _) =>
      first [apply (Avoids_FieldRawLen_assert _ Ho) | apply Avoids_FieldRawLen_assert];
      assumption
  | |- Avoids _ (index _ _) => first [apply (Avoids_index _ Ho) | apply Avoids_index]
  | |- Avoids _ (PeekBytes _) => first [apply (Avoids_PeekBytes _ Ho) | apply Avoids_PeekBytes]
  | |- Avoids _ (match ?x with _ => _ end) => destruct x
  end.

Ltac avoid Ho := repeat avoid_step Ho.

Section AvoidsDecoder.

Variable o : Outcome.
Hypothesis o_kind :
  o = OOutOfSteps \/ o = OErr MapError \/ o = OErr AssertError.
Hypothesis o_assert : o <> OErr AssertError.
Variable opcodes : list BcDef.
Variable bcOpSyms : Z -> option string.

Lemma Avoids_lohi : Avoids o lohi.
Proof. unfold lohi. avoid o_kind. Qed.

Lemma Avoids_LuaJITDecodeKTabK : Avoids o LuaJITDecodeKTabK.
Proof. pose proof Avoids_lohi. unfold LuaJITDecodeKTabK. avoid o_kind. Qed.

Lemma Avoids_LuaJITDecodeKNum : Avoids o LuaJITDecodeKNum.
Proof. unfold LuaJITDecodeKNum. avoid o_kind. Qed.

Lemma Avoids_LuaJITDecodeKGC : Avoids o LuaJITDecodeKGC.
Proof.
  pose proof Avoids_lohi. pose proof Avoids_LuaJITDecodeKTabK.
  unfold LuaJITDecodeKGC. avoid o_kind.
Qed.

Lemma Avoids_LuaJITDecodeHeader di : Avoids o (LuaJITDecodeHeader di).
Proof. unfold LuaJITDecodeHeader. avoid o_kind. Qed.

Lemma Avoids_LuaJITDecodeBCIns :
  Avoids o (LuaJITDecodeBCIns opcodes bcOpSyms).
Proof. unfold LuaJITDecodeBCIns. avoid o_kind. Qed.

Lemma Avoids_LuaJITDecodePHead di : Avoids o (LuaJITDecodePHead di).
Proof. unfold LuaJITDecodePHead. avoid o_kind. Qed.

Lemma Avoids_LuaJITDecodePData di :
  Avoids o (LuaJITDecodePData opcodes bcOpSyms di).
Proof.
  pose proof Avoids_LuaJITDecodeBCIns. pose proof Avoids_LuaJITDecodeKGC.
  pose proof Avoids_LuaJITDecodeKNum. pose proof (Avoids_LuaJITDecodePHead di).
  unfold LuaJITDecodePData. avoid o_kind.
Qed.

Lemma Avoids_LuaJITDecodeProto di :
  Avoids o (LuaJITDecodeProto opcodes bcOpSyms di).
Proof.
  pose proof (Avoids_LuaJITDecodePData di).
  unfold LuaJITDecodeProto. avoid o_kind.
Qed.

End AvoidsDecoder.

(** ** Values read *)

Lemma U8_Ok d v d' :
  U8 d = Ok v d' ->
  exists b,
    tryBytes RU8 1 d = Ok [b] d' /\ v = byte_to_Z b.
Proof.
  unfold U8. intros H. apply bind_Ok in H. destruct H as (bs & d1 & H1 & H2).
  destruct bs as [| b [| b' bs]]; try discriminate.
  inversion H2; subst. eauto.
Qed.

Lemma U8_range d v d' : U8 d = Ok v d' -> 0 <= v < 256.
Proof.
  intros H. apply U8_Ok in H. destruct H as (b & _ & ->).
  apply byte_to_Z_range.
Qed.

Lemma shl64_low x k :
  0 <= k -> 7 * k < 63 -> 0 <= x < 2 ^ 7 ->
  0 <= shl64 x (7 * k) < 2 ^ (7 * (k + 1)).
Proof.
  intros Hk Hs Hx. unfold shl64. rewrite Z.shiftl_mul_pow2 by lia.
  replace (7 * (k + 1)) with (7 + 7 * k) by lia.
  rewrite Z.pow_add_r by lia.
  assert (0 < 2 ^ (7 * k)) by (apply Z.pow_pos_nonneg; lia).
  assert (2 ^ 7 * 2 ^ (7 * k) <= 2 ^ 64).
  { rewrite <- Z.pow_add_r by lia. apply Z.pow_le_mono_r; lia. }
  rewrite wrap64_small by nia. nia.
Qed.

(** A variable-length integer fits 63 bits: at most nine groups of seven
    bits are accepted. *)
Lemma uleb128_loop_range n : forall k result d v d',
  0 <= k -> 0 <= result < 2 ^ (7 * k) ->
  uleb128_loop n result (7 * k) d = Ok v d' ->
  0 <= v < 2 ^ 63.
Proof.
  induction n as [| n IH]; intros k result d v d' Hk Hr H;
    cbn [uleb128_loop] in H; [discriminate |].
  apply bind_Ok in H. destruct H as (b & d1 & Hb & H).
  apply U8_range in Hb.
  destruct (63 <=? 7 * k) eqn:Hs; [discriminate |].
  apply Z.leb_gt in Hs.
  assert (Hx : 0 <= Z.land b 127 < 2 ^ 7).
  { change 127 with (Z.ones 7). rewrite Z.land_ones by lia.
    apply Z.mod_pos_bound. lia. }
  pose proof (shl64_low _ k Hk Hs Hx) as Hsh.
  assert (Hr' : 0 <= Z.lor result (shl64 (Z.land b 127) (7 * k))
                < 2 ^ (7 * (k + 1))).
  { apply lor_lt_pow2; [lia | | assumption].
    split; [apply Hr |]. eapply Z.lt_le_trans; [apply Hr |].
    apply Z.pow_le_mono_r; lia. }
  destruct (Z.land b 128 =? 0).
  - inversion H; subst. split; [apply Hr' |].
    eapply Z.lt_le_trans; [apply Hr' |]. apply Z.pow_le_mono_r; lia.
  - replace (7 * k + 7) with (7 * (k + 1)) in H by lia.
    eapply IH; [| exact Hr' | exact H]. lia.
Qed.

Lemma ULEB128_range d v d' : ULEB128 d = Ok v d' -> 0 <= v < 2 ^ 63.
Proof.
  unfold ULEB128. intros H.
  apply (uleb128_loop_range 10 0 0 d v d'); [lia | cbn; lia | exact H].
Qed.

Lemma FieldUintFn_Ok name fn sms d v d' :
  FieldUintFn name fn sms d = Ok v d' ->
  exists raw d1 u,
    fn d = Ok raw d1 /\
    mapUint sms (scalar.mkUint raw None) d1 = Ok u d1 /\
    v = scalar.Actual u /\
    d' = mkD (buf d1) (pos d1) (lim d1) (Endian_ d1)
             (fields d1 ++ [(name, VUint (scalar.Actual u) (scalar.Sym u))])
             (trace d1).
Proof.
  unfold FieldUintFn. intros H.
  apply bind_Ok in H. destruct H as (raw & d1 & H1 & H).
  apply bind_Ok in H. destruct H as (u & d2 & H2 & H).
  pose proof (mapUint_Ok _ _ _ _ _ H2); subst d2.
  cbn in H. inversion H; subst. eauto 8.
Qed.

Lemma FieldUintFn_nomap name fn d raw d1 :
  fn d = Ok raw d1 ->
  FieldUintFn name fn [] d =
  Ok raw (mkD (buf d1) (pos d1) (lim d1) (Endian_ d1)
              (fields d1 ++ [(name, VUint raw None)]) (trace d1)).
Proof.
  intros H. unfold FieldUintFn. rewrite (bind_eq _ _ _ _ _ H). reflexivity.
Qed.

Lemma FieldULEB128_range name d v d' :
  FieldULEB128 name [] d = Ok v d' -> 0 <= v < 2 ^ 63.
Proof.
  intros H. apply FieldUintFn_Ok in H.
  destruct H as (raw & d1 & u & H1 & H2 & -> & _).
  cbn in H2. inversion H2; subst. cbn. eapply ULEB128_range; eassumption.
Qed.

(** ** The loop over the protos runs to an end *)

(** [n] steps are enough from [d]: more than the bytes left, and at least
    one. *)
Lemma enough_steps_enough d :
  0 <= pos d ->
  Z.max 0 (Z.of_nat (List.length (buf d)) - pos d / 8)
  < Z.of_nat (enough_steps d).
Proof.
  intros Hp. unfold enough_steps.
  assert (0 <= pos d / 8) by (apply Z.div_pos; lia). lia.
Qed.

Lemma PeekBytes_bytes_left d bs d' :
  0 <= pos d -> PeekBytes 1 d = Ok bs d' ->
  pos d / 8 + 1 <= Z.of_nat (List.length (buf d)).
Proof.
  intros Hp H. apply PeekBytes_Ok in H.
  destruct H as (_ & _ & Hbs & Hlen & _).
  assert (Hsk : (List.length bs
                 <= List.length (skipn (Z.to_nat (pos d / 8)) (buf d)))%nat).
  { rewrite Hbs, length_firstn. apply Nat.le_min_r. }
  rewrite length_skipn in Hsk.
  assert (0 <= pos d / 8) by (apply Z.div_pos; lia). lia.
Qed.

Lemma div8_advance p q : p + 8 <= q -> p / 8 + 1 <= q / 8.
Proof.
  intros H. replace (p / 8 + 1) with ((p + 1 * 8) / 8)
    by (rewrite Z.div_add by lia; reflexivity).
  apply Z.div_le_mono; lia.
Qed.

Section ProtoLoop.

Variable opcodes : list BcDef.
Variable bcOpSyms : Z -> option string.
Variable di : DumpInfo.

Local Notation "'proto'" :=
  (FieldStruct "proto" (LuaJITDecodeProto opcodes bcOpSyms di)).

Lemma proto_step d d' :
  0 <= pos d -> proto d = Ok tt d' ->
  0 <= pos d' /\ buf d' = buf d /\
  pos d / 8 + 1 <= pos d' / 8 <= Z.of_nat (List.length (buf d)).
Proof.
  intros Hp H.
  assert (Hadv : pos d + 8 <= pos d').
  { eapply Advances_fieldCompound; [| exact H].
    apply Advances_LuaJITDecodeProto. }
  assert (Hext : ext d d').
  { eapply Preserves_FieldStruct; [| exact H].
    apply Preserves_LuaJITDecodeProto. }
  destruct Hext as (Hb & _ & _ & _ & Hq & _).
  destruct Hq as [_ Hq]; [lia |].
  repeat split; [lia | assumption | now apply div8_advance | now apply Hq].
Qed.

Lemma proto_loop_total : forall steps d,
  0 <= pos d ->
  Z.max 0 (Z.of_nat (List.length (buf d)) - pos d / 8) < Z.of_nat steps ->
  outcome (proto_loop opcodes bcOpSyms steps di d) <> OOutOfSteps.
Proof.
  induction steps as [| steps IH]; intros d Hp Hs; [lia |].
  cbn [proto_loop]. unfold bind at 1.
  pose proof (Avoids_PeekBytes OOutOfSteps (or_introl eq_refl) 1 d) as Hpk.
  destruct (PeekBytes 1 d) as [bs d1 | e | |] eqn:Hpeek;
    try discriminate; [| now elim Hpk].
  destruct (bytes_eqb bs [x00]); [discriminate |].
  pose proof (PeekBytes_bytes_left _ _ _ Hp Hpeek) as Hleft.
  apply PeekBytes_Ok in Hpeek. destruct Hpeek as (_ & _ & _ & _ & ->).
  unfold bind.
  pose proof (Avoids_LuaJITDecodeProto OOutOfSteps (or_introl eq_refl)
                opcodes bcOpSyms di) as HavP.
  match goal with
  | |- context [FieldStruct ?n ?f ?x] =>
      assert (Hav : outcome (FieldStruct n f x) <> OOutOfSteps)
        by apply (Avoids_fieldCompound OOutOfSteps (or_introl eq_refl)
                    VStruct n f HavP x);
      destruct (FieldStruct n f x) as [[] d2 | e | |] eqn:Hproto
  end; try discriminate; [| now elim Hav].
  apply proto_step in Hproto; [| exact Hp]. cbn [pos buf] in Hproto.
  destruct Hproto as (Hp2 & Hb2 & Hlo & Hhi).
  apply IH; [assumption |]. rewrite Hb2. lia.
Qed.

(** With enough steps, the number of steps does not matter. *)
Lemma proto_loop_steps : forall n m d,
  0 <= pos d ->
  Z.max 0 (Z.of_nat (List.length (buf d)) - pos d / 8) < Z.of_nat n ->
  Z.max 0 (Z.of_nat (List.length (buf d)) - pos d / 8) < Z.of_nat m ->
  proto_loop opcodes bcOpSyms n di d = proto_loop opcodes bcOpSyms m di d.
Proof.
  induction n as [| n IH]; intros m d Hp Hn Hm; [lia |].
  destruct m as [| m]; [lia |].
  cbn [proto_loop]. unfold bind at 1 3.
  destruct (PeekBytes 1 d) as [bs d1 | e | |] eqn:Hpeek; try reflexivity.
  destruct (bytes_eqb bs [x00]); [reflexivity |].
  pose proof (PeekBytes_bytes_left _ _ _ Hp Hpeek) as Hleft.
  apply PeekBytes_Ok in Hpeek. destruct Hpeek as (_ & _ & _ & _ & ->).
  unfold bind.
  match goal with
  | |- context [FieldStruct ?n ?f ?x] =>
      destruct (FieldStruct n f x) as [[] d2 | e | |] eqn:Hproto
  end; try reflexivity.
  apply proto_step in Hproto; [| exact Hp]. cbn [pos buf] in Hproto.
  destruct Hproto as (Hp2 & Hb2 & Hlo & Hhi).
  apply IH; [assumption | rewrite Hb2; lia | rewrite Hb2; lia].
Qed.

End ProtoLoop.

(* ===================================================================== *)
(** * Numeric constants *)
(* ===================================================================== *)

Lemma add64_shl64 hi x : add64 (shl64 hi 32) x = wrap64 (hi * 2 ^ 32 + x).
Proof.
  unfold add64, shl64, wrap64. rewrite Z.shiftl_mul_pow2 by lia.
  rewrite Z.add_mod_idemp_l by lia. reflexivity.
Qed.

Lemma land_1_cases lo : Z.land lo 1 = 0 \/ Z.land lo 1 = 1.
Proof.
  change 1 with (Z.ones 1) at 1 2. rewrite Z.land_ones by lia.
  pose proof (Z.mod_pos_bound lo (2 ^ 1)). change (2 ^ 1) with 2 in *. lia.
Qed.

(** C1, against the words of the spec. The constant whose first integer is
    2^33 + 1 and whose second integer is 1 decodes to the double of pattern
    2^33: the two halves are added, and the or of the spec would give 2^32. *)
Lemma C1_counterexample : ~ KNum_as_stated.
Proof.
  intros H.
  pose (d := newD [x81; x80; x80; x80; x20; x01]).
  specialize (H d (2 ^ 33 + 1) (state_after ULEB128 d) eq_refl).
  destruct H as [_ H].
  specialize (H eq_refl 1 (state_after ULEB128 (state_after ULEB128 d)) eq_refl).
  vm_compute in H. discriminate H.
Qed.

(** C1, amended. [LuaJITDecodeKNum] reads one variable-length integer [lo].
    If its lowest bit is 0 the result is the unsigned integer [lo >> 1] and
    the decoder is the one left by that read. If the bit is 1 a second integer
    [hi] is read and the result is the double whose 64-bit pattern is
    [(hi << 32) + (lo >> 1)] modulo 2^64; that is [hi<<32 | (lo >> 1)]
    whenever [lo] is below 2^33. *)
Theorem C1_KNum_parity d lo d1 :
  ULEB128 d = Ok lo d1 ->
  (Z.land lo 1 = 0 ->
   LuaJITDecodeKNum d = Ok (VUint (Z.shiftr lo 1) None) d1) /\
  (Z.land lo 1 = 1 ->
   forall hi d2,
     ULEB128 d1 = Ok hi d2 ->
     exists f,
       LuaJITDecodeKNum d = Ok (VFloat f) d2 /\
       Float64bits f = wrap64 (hi * 2 ^ 32 + Z.shiftr lo 1) /\
       (lo < 2 ^ 33 ->
        Float64bits f = Z.lor (shl64 hi 32) (Z.shiftr lo 1))).
Proof.
  intros Hlo. unfold LuaJITDecodeKNum. rewrite (bind_eq _ _ _ _ _ Hlo).
  split.
  - intros ->. reflexivity.
  - intros Hodd hi d2 Hhi. rewrite Hodd. cbn [Z.eqb].
    rewrite (bind_eq _ _ _ _ _ Hhi).
    eexists. split; [reflexivity |].
    rewrite u64tof64_bits by apply wrap64_range.
    split; [apply add64_shl64 |].
    intros Hsmall. apply add64_shl64_lor.
    apply ULEB128_range in Hlo.
    rewrite Z.shiftr_div_pow2 by lia. change (2 ^ 1) with 2.
    split; [apply Z.div_pos; lia |].
    apply Z.div_lt_upper_bound; lia.
Qed.

(** lo = 5, hi = 0: the double of pattern 2. *)
Lemma C1_KNum_parity_witness :
  ULEB128 knum_example = Ok 5 (state_after ULEB128 knum_example) /\
  ((Z.land 5 1 = 0 ->
    LuaJITDecodeKNum knum_example = Ok (VUint (Z.shiftr 5 1) None) (state_after ULEB128 knum_example)) /\
   (Z.land 5 1 = 1 ->
    forall hi d2,
      ULEB128 (state_after ULEB128 knum_example) = Ok hi d2 ->
      exists f,
        LuaJITDecodeKNum knum_example = Ok (VFloat f) d2 /\
        Float64bits f = wrap64 (hi * 2 ^ 32 + Z.shiftr 5 1) /\
        (5 < 2 ^ 33 ->
         Float64bits f = Z.lor (shl64 hi 32) (Z.shiftr 5 1)))).
Proof.
  split; [reflexivity |].
  apply (C1_KNum_parity knum_example 5 (state_after ULEB128 knum_example)).
  reflexivity.
Defined.

(** The examples of the spec: lo = 4 gives the integer 2; lo = 5, hi = 0
    gives the double of pattern 0x0000000000000002. *)
Example KNum_even :
  exists d', LuaJITDecodeKNum (newD [x04]) = Ok (VUint 2 None) d'.
Proof. eexists. vm_compute. reflexivity. Qed.

Example KNum_odd :
  exists d',
    LuaJITDecodeKNum (newD [x05; x00]) = Ok (VFloat (Float64frombits 2)) d'.
Proof. eexists. vm_compute. reflexivity. Qed.


(* ===================================================================== *)
(** * Scalar mappers never fail *)
(* ===================================================================== *)

Lemma Avoids_SetEndian o e : o <> OOk -> Avoids o (SetEndian e).
Proof. intros Ho d. cbn. congruence. Qed.

Lemma Avoids_proto_loop o opcodes bcOpSyms di :
  o = OErr MapError \/ o = OErr AssertError ->
  forall steps, Avoids o (proto_loop opcodes bcOpSyms steps di).
Proof.
  intros Ho.
  assert (Hk : o = OOutOfSteps \/ o = OErr MapError \/ o = OErr AssertError)
    by tauto.
  pose proof (Avoids_LuaJITDecodeProto o Hk opcodes bcOpSyms di) as Hproto.
  induction steps as [| steps IH]; cbn [proto_loop].
  - intros d. cbn. destruct Ho as [-> | ->]; discriminate.
  - avoid Hk.
Qed.

(** What follows the header in [LuaJITDecode] fails neither in a mapper nor
    in an assertion. *)
Lemma Avoids_after_header o opcodes bcOpSyms di :
  o = OErr MapError \/ o = OErr AssertError ->
  Avoids o
    ((if BigEndian di then SetEndian decode.BigEndian
      else SetEndian decode.LittleEndian) ;;
     FieldArray "proto" (decode_protos opcodes bcOpSyms di) ;;
     FieldU8 "end" [] ;;
     ret tt).
Proof.
  intros Ho.
  assert (Hk : o = OOutOfSteps \/ o = OErr MapError \/ o = OErr AssertError)
    by tauto.
  assert (Hok : o <> OOk) by (destruct Ho as [-> | ->]; discriminate).
  apply Avoids_bind.
  - destruct (BigEndian di); apply Avoids_SetEndian; assumption.
  - intros _. apply Avoids_bind.
    + apply (Avoids_fieldCompound _ Hk). intros d.
      apply Avoids_proto_loop. assumption.
    + intros _. avoid Hk.
Qed.

Lemma Avoids_LuaJITDecode_MapError opcodes bcOpSyms :
  Avoids (OErr MapError) (LuaJITDecode opcodes bcOpSyms).
Proof.
  assert (Hk : OErr MapError = OOutOfSteps \/ OErr MapError = OErr MapError \/
               OErr MapError = OErr AssertError) by tauto.
  unfold LuaJITDecode. apply Avoids_bind.
  - apply (Avoids_fieldCompound _ Hk).
    apply Avoids_LuaJITDecodeHeader; [assumption | discriminate].
  - intros di. apply Avoids_after_header. tauto.
Qed.

(** C10. Each of the three scalar mappers of the decoder, [jumpBias.MapUint],
    [ktabType.MapUint] and [kgcType.MapUint], returns a nil error on every
    input; and no decode, on any decoder and with any opcode table, ends in
    the error of a scalar mapper. *)
Theorem C10_mappers_never_fail :
  (forall u, snd (jumpBias_MapUint u) = None) /\
  (forall u, snd (ktabType_MapUint u) = None) /\
  (forall u, snd (kgcType_MapUint u) = None) /\
  (forall opcodes bcOpSyms d,
     LuaJITDecode opcodes bcOpSyms d <> Err MapError).
Proof.
  split; [exact NilError_jumpBias |].
  split; [exact NilError_ktabType |].
  split; [exact NilError_kgcType |].
  intros opcodes bcOpSyms d H.
  apply (Avoids_LuaJITDecode_MapError opcodes bcOpSyms d).
  rewrite H. reflexivity.
Qed.

(* ===================================================================== *)
(** * The magic *)
(* ===================================================================== *)

Lemma bytes_eqb_eq xs : forall ys, bytes_eqb xs ys = true <-> xs = ys.
Proof.
  induction xs as [| x xs IH]; intros [| y ys]; cbn [bytes_eqb].
  - split; reflexivity.
  - split; discriminate.
  - split; discriminate.
  - rewrite andb_true_iff, IH. split.
    + intros [Hx ->]. apply byte_dec_bl in Hx. now subst.
    + intros [= -> ->]. split; [now apply byte_dec_lb | reflexivity].
Qed.

(** The first read of a fresh decoder on an input of three bytes or more. *)
Lemma tryBytes_first3 k e fs tr b0 b1 b2 rest :
  let input := b0 :: b1 :: b2 :: rest in
  tryBytes k 3 (mkD input 0 (8 * Z.of_nat (List.length input)) e fs tr)
  = Ok [b0; b1; b2]
       (mkD input 24 (8 * Z.of_nat (List.length input)) e fs
            (tr ++ [mkEvent 0 24 k])).
Proof.
  intros input. unfold tryBytes. cbn [buf pos lim Endian_ fields trace].
  change (3 <? 0) with false. cbv iota.
  assert (Hlen : 24 <= 8 * Z.of_nat (List.length input))
    by (unfold input; cbn [List.length]; lia).
  destruct (8 * Z.of_nat (List.length input) <? 0 + 8 * 3) eqn:E;
    [apply Z.ltb_lt in E; lia |].
  reflexivity.
Qed.

Lemma header_magic_Ok di d d1 :
  FieldRawLen "magic" (3 * 8) [AssertBitBuf magic] d = Ok tt d1 ->
  outcome (LuaJITDecodeHeader di d) <> OErr AssertError.
Proof.
  intros H. unfold LuaJITDecodeHeader. rewrite (bind_eq _ _ _ _ _ H).
  assert (Hk : OErr AssertError = OOutOfSteps \/
               OErr AssertError = OErr MapError \/
               OErr AssertError = OErr AssertError) by tauto.
  revert d1 H. intros d1 _.
  match goal with
  | |- outcome (?m d1) <> _ => enough (Hm : Avoids (OErr AssertError) m)
                                by apply Hm
  end.
  avoid Hk.
Qed.



(** An input shorter than the magic fails in the read, before the
    assertion. *)
Example short_input_fails :
  LuaJITDecode test_opcodes test_syms (newD [x1b; x4c]) = Err IOError.
Proof. reflexivity. Qed.

(* ===================================================================== *)
(** * Instructions *)
(* ===================================================================== *)

Lemma U16_range d raw d' : U16 d = Ok raw d' -> 0 <= raw < 65536.
Proof.
  unfold U16. intros H. apply bind_Ok in H. destruct H as (bs & d1 & _ & H).
  destruct bs as [| b0 [| b1 [| b2 bs]]]; try discriminate.
  pose proof (byte_to_Z_range b0). pose proof (byte_to_Z_range b1).
  destruct (Endian_ d);
    match type of H with
    | ret ?v _ = _ => assert (Hv : v = raw) by (unfold ret in H; congruence)
    end; rewrite <- Hv;
    rewrite Z.shiftl_mul_pow2 by lia;
    rewrite lor_mul_pow2_add by lia; lia.
Qed.

Lemma FieldU8_sym_range name m d op d1 :
  FieldU8 name [UintMapSymStr m] d = Ok op d1 -> 0 <= op < 256.
Proof.
  intros H. apply FieldUintFn_Ok in H.
  destruct H as (raw & d0 & u & Hraw & Hmap & -> & _).
  apply U8_range in Hraw. cbn [mapUint] in Hmap.
  unfold UintMapSymStr in Hmap. cbn [scalar.Actual] in Hmap.
  destruct (m raw); inversion Hmap; subst; exact Hraw.
Qed.

Lemma index_Some {A} (xs : list A) i x :
  0 <= i -> nth_error xs (Z.to_nat i) = Some x -> index xs i = ret x.
Proof.
  intros Hi Hx. unfold index. rewrite Hx.
  destruct (i <? 0) eqn:E; [apply Z.ltb_lt in E; lia | reflexivity].
Qed.

Lemma index_None {A} (xs : list A) i :
  nth_error xs (Z.to_nat i) = None -> index xs i = go_panic.
Proof.
  intros Hx. unfold index. rewrite Hx. destruct (i <? 0); reflexivity.
Qed.

Lemma jumpBias_int64 raw :
  0 <= raw < 65536 -> int64 (wrap64 (raw - 32768)) = raw - 32768.
Proof.
  intros Hr. unfold int64, wrap64.
  rewrite Zplus_mod_idemp_l.
  replace (raw - 32768 + 2 ^ 63) with (raw + (2 ^ 63 - 32768)) by lia.
  rewrite Z.mod_small by lia. lia.
Qed.

(** C2, against the words of the spec. With the wide operand 0x7FFF of a jump
    the field [j] holds 2^64 - 1, not -1. *)
Lemma C2_counterexample : ~ jump_operand_as_stated.
Proof.
  intros H.
  pose (d := newD [x01; x00; x7f; xff]).
  pose (d1 := state_after (FieldU8 "op" [UintMapSymStr test_syms]) d).
  pose (d2 := state_after (FieldU8 "a" []) d1).
  destruct (H test_opcodes test_syms d 1 d1 0 d2 (mkBcDef "JMP" true true)
              32767 (state_after U16 d2)
              eq_refl eq_refl eq_refl eq_refl eq_refl eq_refl)
    as (d' & Hrun & Hfields).
  vm_compute in Hrun. inversion Hrun; subst d'; clear Hrun.
  vm_compute in Hfields. discriminate Hfields.
Qed.

(** C2, amended. For an instruction whose opcode is flagged as a jump, the
    field [j] holds the unsigned 64-bit value [(raw - 0x8000) mod 2^64], where
    [raw] is the 16-bit operand read; read as a signed 64-bit integer this is
    [raw - 0x8000]. So raw 0x8000 gives 0, raw 0x8005 gives 5, and raw 0x7FFF
    gives 2^64 - 1, which is -1 as a signed integer. *)
Theorem C2_jump_bias opcodes bcOpSyms d op d1 a d2 o raw d3 :
  FieldU8 "op" [UintMapSymStr bcOpSyms] d = Ok op d1 ->
  FieldU8 "a" [] d1 = Ok a d2 ->
  nth_error opcodes (Z.to_nat op) = Some o ->
  HasD o = true -> IsJump o = true ->
  U16 d2 = Ok raw d3 ->
  LuaJITDecodeBCIns opcodes bcOpSyms d
  = Ok tt (mkD (buf d3) (pos d3) (lim d3) (Endian_ d3)
               (fields d3 ++ [("j", VUint (wrap64 (raw - 32768)) None)])
               (trace d3)) /\
  int64 (wrap64 (raw - 32768)) = raw - 32768 /\
  (raw = 32768 -> wrap64 (raw - 32768) = 0) /\
  (raw = 32773 -> wrap64 (raw - 32768) = 5) /\
  (raw = 32767 -> wrap64 (raw - 32768) = 2 ^ 64 - 1 /\
                  int64 (wrap64 (raw - 32768)) = -1).
Proof.
  intros Hop Ha Ho HD HJ Hraw.
  pose proof (FieldU8_sym_range _ _ _ _ _ Hop) as Hrange.
  pose proof (U16_range _ _ _ Hraw) as Hr.
  split.
  - unfold LuaJITDecodeBCIns.
    rewrite (bind_eq _ _ _ _ _ Hop), (bind_eq _ _ _ _ _ Ha).
    rewrite int64_small by lia.
    rewrite (index_Some _ _ _ (proj1 Hrange) Ho).
    unfold bind at 1, ret at 1. rewrite HD.
    unfold bind at 1, ret at 1. rewrite HJ.
    unfold FieldU16, FieldUintFn, bind. rewrite Hraw. reflexivity.
  - split; [now apply jumpBias_int64 |].
    split; [intros ->; reflexivity |].
    split; [intros ->; reflexivity |].
    intros ->. split; reflexivity.
Qed.

(** The instruction 01 00 7F FF (big-endian) with the test table: a jump
    whose operand is 0x7FFF. *)
Lemma C2_jump_bias_witness :
  FieldU8 "op" [UintMapSymStr test_syms] jump_example
  = Ok 1 (state_after (FieldU8 "op" [UintMapSymStr test_syms]) jump_example) /\
  LuaJITDecodeBCIns test_opcodes test_syms jump_example
  = Ok tt (mkD (buf jump_example) 32 (lim jump_example) decode.BigEndian
               [("op", VUint 1 (Some "JMP")); ("a", VUint 0 None);
                ("j", VUint (wrap64 (32767 - 32768)) None)]
               (trace (state_after (LuaJITDecodeBCIns test_opcodes test_syms)
                                   jump_example))).
Proof.
  split; [reflexivity |].
  pose (d1 := state_after (FieldU8 "op" [UintMapSymStr test_syms])
                          jump_example).
  pose (d2 := state_after (FieldU8 "a" []) d1).
  exact (proj1 (C2_jump_bias test_opcodes test_syms jump_example 1 d1 0 d2
                  (mkBcDef "JMP" true true) 32767 (state_after U16 d2)
                  eq_refl eq_refl eq_refl eq_refl eq_refl eq_refl)).
Defined.

(** C3. The opcode table is indexed by the opcode byte without a bounds
    check: when the byte has no entry in the table the instruction decoder
    ends in a Go runtime panic, which is not a decode error. *)
Theorem C3_unknown_opcode_panics opcodes bcOpSyms d op d1 a d2 :
  FieldU8 "op" [UintMapSymStr bcOpSyms] d = Ok op d1 ->
  FieldU8 "a" [] d1 = Ok a d2 ->
  nth_error opcodes (Z.to_nat op) = None ->
  LuaJITDecodeBCIns opcodes bcOpSyms d = Panic.
Proof.
  intros Hop Ha Ho.
  pose proof (FieldU8_sym_range _ _ _ _ _ Hop) as Hrange.
  unfold LuaJITDecodeBCIns.
  rewrite (bind_eq _ _ _ _ _ Hop), (bind_eq _ _ _ _ _ Ha).
  rewrite int64_small by lia. rewrite (index_None _ _ Ho). reflexivity.
Qed.

(** The instruction FF 00 00 00 with the three-entry test table. *)
Lemma C3_unknown_opcode_panics_witness :
  nth_error test_opcodes (Z.to_nat 255) = None /\
  LuaJITDecodeBCIns test_opcodes test_syms (newD [xff; x00; x00; x00]) = Panic.
Proof.
  split; [reflexivity |].
  pose (d := newD [xff; x00; x00; x00]).
  pose (d1 := state_after (FieldU8 "op" [UintMapSymStr test_syms]) d).
  exact (C3_unknown_opcode_panics test_opcodes test_syms d 255 d1 0
           (state_after (FieldU8 "a" []) d1) eq_refl eq_refl eq_refl).
Defined.

(** The same inside a dump: a stripped dump with one proto of one
    instruction, whose opcode 9 is not in the test table. *)
Example unknown_opcode_in_dump :
  LuaJITDecode test_opcodes test_syms
    (newD [x1b; x4c; x4a; x01; x03;
           x0b; x00; x00; x00; x00; x00; x00; x01; x09; x00; xff; x7f;
           x00])
  = Panic.
Proof. vm_compute. reflexivity. Qed.

(* ===================================================================== *)
(** * The header and the byte order *)
(* ===================================================================== *)

Lemma land_pow2_testbit x k :
  0 <= k -> (0 <? Z.land x (2 ^ k)) = Z.testbit x k.
Proof.
  intros Hk.
  assert (H : Z.land x (2 ^ k) = if Z.testbit x k then 2 ^ k else 0).
  { apply Z.bits_inj'. intros n Hn. rewrite Z.land_spec, Z.pow2_bits_eqb by lia.
    destruct (Z.eqb_spec k n) as [-> | Hne].
    - rewrite andb_true_r. destruct (Z.testbit x n) eqn:E.
      + now rewrite Z.pow2_bits_true.
      + now rewrite Z.bits_0.
    - rewrite andb_false_r. destruct (Z.testbit x k).
      + rewrite Z.pow2_bits_false by lia. reflexivity.
      + now rewrite Z.bits_0. }
  rewrite H. destruct (Z.testbit x k); [| reflexivity].
  apply Z.ltb_lt. apply Z.pow_pos_nonneg; lia.
Qed.

Lemma flag_be x : (0 <? Z.land x 1) = Z.testbit x 0.
Proof. exact (land_pow2_testbit x 0 (Z.le_refl 0)). Qed.

Lemma flag_strip x : (0 <? Z.land x 2) = Z.testbit x 1.
Proof. apply (land_pow2_testbit x 1). lia. Qed.

Lemma flag_ffi x : (0 <? Z.land x 4) = Z.testbit x 2.
Proof. apply (land_pow2_testbit x 2). lia. Qed.

Lemma flag_fr2 x : (0 <? Z.land x 8) = Z.testbit x 3.
Proof. apply (land_pow2_testbit x 3). lia. Qed.

Lemma U8_fields d v d' : U8 d = Ok v d' -> fields d' = fields d.
Proof.
  intros H. apply U8_Ok in H. destruct H as (b & H & _).
  apply tryBytes_Ok in H. destruct H as (_ & _ & _ & _ & ->). reflexivity.
Qed.

Lemma uleb128_loop_fields n : forall result shift d v d',
  uleb128_loop n result shift d = Ok v d' -> fields d' = fields d.
Proof.
  induction n as [| n IH]; intros result shift d v d' H;
    cbn [uleb128_loop] in H; [discriminate |].
  apply bind_Ok in H. destruct H as (b & d1 & Hb & H).
  apply U8_fields in Hb. rewrite <- Hb.
  destruct (63 <=? shift); [discriminate |].
  destruct (Z.land b 128 =? 0); [now inversion H | eauto].
Qed.

Lemma ULEB128_fields d v d' : ULEB128 d = Ok v d' -> fields d' = fields d.
Proof. apply uleb128_loop_fields. Qed.

Lemma FieldU8_nomap_Ok name d v d' :
  FieldU8 name [] d = Ok v d' ->
  fields d' = fields d ++ [(name, VUint v None)].
Proof.
  intros H. apply FieldUintFn_Ok in H.
  destruct H as (raw & d1 & u & H1 & H2 & -> & ->).
  cbn in H2. inversion H2; subst. cbn [fields scalar.Actual scalar.Sym].
  apply U8_fields in H1. now rewrite H1.
Qed.

Lemma FieldULEB128_nomap_Ok name d v d' :
  FieldULEB128 name [] d = Ok v d' ->
  fields d' = fields d ++ [(name, VUint v None)].
Proof.
  intros H. apply FieldUintFn_Ok in H.
  destruct H as (raw & d1 & u & H1 & H2 & -> & ->).
  cbn in H2. inversion H2; subst. cbn [fields scalar.Actual scalar.Sym].
  apply ULEB128_fields in H1. now rewrite H1.
Qed.

Lemma FieldRawLen_assert_Ok name nBits bss d d' :
  FieldRawLen name nBits [AssertBitBuf bss] d = Ok tt d' ->
  fields d' = fields d ++ [(name, VRaw bss)].
Proof.
  unfold FieldRawLen. intros H.
  apply bind_Ok in H. destruct H as (bs & d1 & H1 & H).
  apply bind_Ok in H. destruct H as ([] & d2 & H2 & H).
  cbn [mapBitBuf] in H2. unfold AssertBitBuf in H2.
  destruct (bytes_eqb bs bss) eqn:E; [| discriminate].
  apply bytes_eqb_eq in E. subst bs. inversion H2; subst d2.
  inversion H; subst. cbn [fields].
  apply tryBytes_Ok in H1. destruct H1 as (_ & _ & _ & _ & ->). reflexivity.
Qed.

(** What a successful header decode returns and leaves in the tree: the four
    booleans are bits 0 to 3 of the flags, and the context holds bits 1 and
    0. *)
Lemma LuaJITDecodeHeader_Ok di0 d di d' :
  LuaJITDecodeHeader di0 d = Ok di d' ->
  exists version flags tl,
    di = mkDumpInfo (Z.testbit flags 1) (Z.testbit flags 0) /\
    fields d' =
    fields d ++
    [("magic", VRaw magic); ("version", VUint version None);
     ("flags", VStruct [("raw", VUint flags None);
                        ("be", VBool (Z.testbit flags 0));
                        ("strip", VBool (Z.testbit flags 1));
                        ("ffi", VBool (Z.testbit flags 2));
                        ("fr2", VBool (Z.testbit flags 3))])] ++ tl.
Proof.
  unfold LuaJITDecodeHeader. intros H.
  apply bind_Ok in H. destruct H as ([] & d1 & Hmagic & H).
  apply bind_Ok in H. destruct H as (version & d2 & Hver & H).
  apply bind_Ok in H. destruct H as (flags & d3 & Hflags & H).
  apply FieldRawLen_assert_Ok in Hmagic.
  apply FieldU8_nomap_Ok in Hver.
  apply fieldCompound_Ok in Hflags. destruct Hflags as (d3' & Hflags & ->).
  apply bind_Ok in Hflags. destruct Hflags as (raw & d4 & Hraw & Hflags).
  apply FieldULEB128_nomap_Ok in Hraw. cbn [fields] in Hraw.
  cbn in Hflags. inversion Hflags; subst flags d3'; clear Hflags.
  cbn [buf pos lim Endian_ fields trace Strip BigEndian] in H.
  rewrite ?flag_be, ?flag_strip, ?flag_ffi, ?flag_fr2 in H.
  assert (Htail : exists tl, fields d' =
            (fields d2 ++
             [("flags", VStruct (fields d4 ++
                 [("be", VBool (Z.testbit raw 0));
                  ("strip", VBool (Z.testbit raw 1));
                  ("ffi", VBool (Z.testbit raw 2));
                  ("fr2", VBool (Z.testbit raw 3))]))]) ++ tl /\
            di = mkDumpInfo (Z.testbit raw 1) (Z.testbit raw 0)).
  { destruct (negb (Z.testbit raw 1)).
    - apply bind_Ok in H. destruct H as (namelen & d5 & H5 & H).
      apply bind_Ok in H. destruct H as ([] & d6 & H6 & H).
      inversion H; subst di d'; clear H.
      apply Preserves_FieldU8 in H5. apply Preserves_FieldStr in H6.
      pose proof (ext_trans _ _ _ H5 H6) as He.
      destruct He as (_ & _ & _ & _ & _ & _ & tl & Htl).
      cbn [fields] in Htl.
      exists tl. split; [| reflexivity].
      rewrite Htl. rewrite <- !app_assoc. reflexivity.
    - inversion H; subst di d'; clear H. exists []. cbn [fields].
      rewrite app_nil_r. rewrite <- !app_assoc. split; reflexivity. }
  destruct Htail as (tl & Htl & ->).
  exists version, raw, tl. split; [reflexivity |].
  rewrite Htl, Hver, Hmagic, Hraw. cbn [app].
  rewrite <- !app_assoc. reflexivity.
Qed.

(** A 2-byte read takes the two bytes at the cursor in the byte order of the
    decoder, and its trace event records that order. *)
Lemma U16_Ok d v d' :
  U16 d = Ok v d' ->
  exists b0 b1,
    tryBytes (RU16 (Endian_ d)) 2 d = Ok [b0; b1] d' /\
    v = match Endian_ d with
        | decode.BigEndian => 256 * byte_to_Z b0 + byte_to_Z b1
        | decode.LittleEndian => 256 * byte_to_Z b1 + byte_to_Z b0
        end.
Proof.
  unfold U16. intros H. apply bind_Ok in H. destruct H as (bs & d1 & H1 & H).
  destruct bs as [| b0 [| b1 [| b2 bs]]]; try discriminate.
  exists b0, b1.
  pose proof (byte_to_Z_range b0). pose proof (byte_to_Z_range b1).
  destruct (Endian_ d);
    match type of H with
    | ret ?x _ = _ =>
        assert (Hv : x = v /\ d1 = d') by (unfold ret in H; split; congruence)
    end; destruct Hv as [<- <-]; (split; [assumption |]);
    rewrite Z.shiftl_mul_pow2 by lia; rewrite lor_mul_pow2_add by lia; lia.
Qed.

Lemma Preserves_decode_protos opcodes bcOpSyms di :
  Preserves (decode_protos opcodes bcOpSyms di).
Proof. intros d a d' H. eapply Preserves_proto_loop. exact H. Qed.

(** C6. In a dump that decodes, the byte order is set once, right after the
    header, from bit 0 of the flags: big-endian if the bit is 1, little-endian
    if it is 0. Every 2-byte read made after the header (the upvalue entries
    and the wide operands of the instructions) uses that order, and it is the
    order of the decoder at the end. *)
Theorem C6_byte_order opcodes bcOpSyms d dEnd :
  LuaJITDecode opcodes bcOpSyms d = Ok tt dEnd ->
  exists di d1 version flags tl evs,
    FieldStruct "header" (LuaJITDecodeHeader (mkDumpInfo false false)) d
    = Ok di d1 /\
    fields d1 =
    fields d ++
    [("header",
      VStruct
        ([("magic", VRaw magic); ("version", VUint version None);
          ("flags", VStruct [("raw", VUint flags None);
                             ("be", VBool (Z.testbit flags 0));
                             ("strip", VBool (Z.testbit flags 1));
                             ("ffi", VBool (Z.testbit flags 2));
                             ("fr2", VBool (Z.testbit flags 3))])] ++ tl))] /\
    BigEndian di = Z.testbit flags 0 /\
    trace dEnd = trace d1 ++ evs /\
    Forall (fun ev => forall e, ev_kind ev = RU16 e -> e = flags_endian flags)
           evs /\
    Endian_ dEnd = flags_endian flags.
Proof.
  unfold LuaJITDecode. intros H.
  apply bind_Ok in H. destruct H as (di & d1 & Hhead & H).
  apply bind_Ok in H. destruct H as ([] & d2 & Hset & H).
  assert (HP : Preserves
      (FieldArray "proto" (decode_protos opcodes bcOpSyms di) ;;
       FieldU8 "end" [] ;; ret tt)).
  { pose proof (Preserves_decode_protos opcodes bcOpSyms di). frame. }
  assert (Hext : ext d2 dEnd) by (eapply HP; exact H).
  pose proof Hhead as Hh. apply fieldCompound_Ok in Hh.
  destruct Hh as (d1' & Hh & Hd1).
  apply LuaJITDecodeHeader_Ok in Hh.
  destruct Hh as (version & flags & tl & Hdi & Hfields).
  cbn [fields app] in Hfields.
  exists di, d1, version, flags, tl.
  assert (Hd2 : trace d2 = trace d1 /\ Endian_ d2 = flags_endian flags).
  { subst di. cbn [BigEndian] in Hset. unfold flags_endian.
    destruct (Z.testbit flags 0); inversion Hset; subst; split; reflexivity. }
  destruct Hd2 as [Htr Hend].
  destruct Hext as (_ & _ & He & _ & _ & (evs & Hevs & Hall) & _).
  exists evs.
  split; [assumption |].
  split; [subst d1; cbn [fields]; rewrite Hfields; reflexivity |].
  split; [subst di; reflexivity |].
  split; [rewrite <- Htr; exact Hevs |].
  split; [| rewrite He; exact Hend].
  eapply Forall_impl; [| exact Hall].
  intros ev (_ & _ & _ & Hk) e Hev. rewrite <- Hend. now apply Hk.
Qed.

(** The big-endian example: its one 2-byte read, the operand FF 7F of the
    jump, is made big-endian (0xFF7F - 0x8000 = 0x7F7F = 32639). *)
Lemma C6_byte_order_witness :
  LuaJITDecode test_opcodes test_syms be_dump_example
  = Ok tt (state_after (LuaJITDecode test_opcodes test_syms) be_dump_example)
  /\
  exists di d1 version flags tl evs,
    FieldStruct "header" (LuaJITDecodeHeader (mkDumpInfo false false))
      be_dump_example = Ok di d1 /\
    fields d1 =
    fields be_dump_example ++
    [("header",
      VStruct
        ([("magic", VRaw magic); ("version", VUint version None);
          ("flags", VStruct [("raw", VUint flags None);
                             ("be", VBool (Z.testbit flags 0));
                             ("strip", VBool (Z.testbit flags 1));
                             ("ffi", VBool (Z.testbit flags 2));
                             ("fr2", VBool (Z.testbit flags 3))])] ++ tl))] /\
    BigEndian di = Z.testbit flags 0 /\
    trace (state_after (LuaJITDecode test_opcodes test_syms) be_dump_example)
    = trace d1 ++ evs /\
    Forall (fun ev => forall e, ev_kind ev = RU16 e -> e = flags_endian flags)
           evs /\
    Endian_ (state_after (LuaJITDecode test_opcodes test_syms) be_dump_example)
    = flags_endian flags.
Proof.
  split; [vm_compute; reflexivity |].
  apply (C6_byte_order test_opcodes test_syms). vm_compute. reflexivity.
Defined.

Example be_dump_operand :
  exists d',
    LuaJITDecodeBCIns test_opcodes test_syms
      (mkD [x01; x00; xff; x7f] 0 32 decode.BigEndian [] [])
    = Ok tt d' /\
    fields d' = [("op", VUint 1 (Some "JMP")); ("a", VUint 0 None);
                 ("j", VUint 32639 None)].
Proof. eexists. split; vm_compute; reflexivity. Qed.

(* ===================================================================== *)
(** * The loop over the protos and the terminator *)
(* ===================================================================== *)

(** A read depends on the reader only: the input, the cursor, the range. *)
Lemma tryBytes_reader k k' n d d' bs x :
  buf d' = buf d -> pos d' = pos d -> lim d' = lim d ->
  tryBytes k n d = Ok bs x ->
  tryBytes k' n d'
  = Ok bs (mkD (buf d') (pos d' + 8 * n) (lim d') (Endian_ d') (fields d')
               (trace d' ++ [mkEvent (pos d') (8 * n) k'])).
Proof.
  intros Hb Hp Hl. unfold tryBytes. rewrite Hb, Hp, Hl.
  destruct (n <? 0); [discriminate |].
  destruct (lim d <? pos d + 8 * n); [discriminate |].
  destruct (Z.of_nat _ <? n); [discriminate |].
  intros [= <- _]. reflexivity.
Qed.

Lemma PeekBytes_reader n d d' bs x :
  buf d' = buf d -> pos d' = pos d -> lim d' = lim d ->
  PeekBytes n d = Ok bs x ->
  PeekBytes n d'
  = Ok bs (mkD (buf d') (pos d') (lim d') (Endian_ d') (fields d')
               (trace d' ++ [mkEvent (pos d') (8 * n) RPeek])).
Proof.
  intros Hb Hp Hl H. unfold PeekBytes in *.
  destruct (tryBytes RPeek n d) as [bs1 d1 | | |] eqn:E; try discriminate.
  inversion H; subst bs1; clear H.
  rewrite (tryBytes_reader _ RPeek _ _ d' _ _ Hb Hp Hl E). reflexivity.
Qed.

(** The byte that was peeked is the byte that is read next. *)
Lemma U8_after_peek d d' b x :
  buf d' = buf d -> pos d' = pos d -> lim d' = lim d ->
  PeekBytes 1 d = Ok [b] x ->
  U8 d'
  = Ok (byte_to_Z b)
       (mkD (buf d') (pos d' + 8) (lim d') (Endian_ d') (fields d')
            (trace d' ++ [mkEvent (pos d') 8 RU8])).
Proof.
  intros Hb Hp Hl H. unfold PeekBytes in H.
  destruct (tryBytes RPeek 1 d) as [bs1 d1 | | |] eqn:E; try discriminate.
  inversion H; subst bs1; clear H.
  unfold U8. rewrite (bind_eq _ _ _ _ _
    (tryBytes_reader _ RU8 _ _ d' _ _ Hb Hp Hl E)). reflexivity.
Qed.

Section DumpLoop.

Variable opcodes : list BcDef.
Variable bcOpSyms : Z -> option string.
Variable di : DumpInfo.

Local Notation "'proto'" :=
  (FieldStruct "proto" (LuaJITDecodeProto opcodes bcOpSyms di)).

(** One turn of the loop: peek; stop on a zero byte; else one proto, and
    again. *)
Lemma decode_protos_unfold d :
  0 <= pos d ->
  decode_protos opcodes bcOpSyms di d
  = (nextByte <- PeekBytes 1 ;;
     if bytes_eqb nextByte [x00] then ret tt
     else proto ;; decode_protos opcodes bcOpSyms di) d.
Proof.
  intros Hp. unfold decode_protos at 1, enough_steps. cbn [proto_loop].
  unfold bind at 1 3.
  destruct (PeekBytes 1 d) as [bs d1 | e | |] eqn:Hpeek; try reflexivity.
  destruct (bytes_eqb bs [x00]); [reflexivity |].
  pose proof (PeekBytes_bytes_left _ _ _ Hp Hpeek) as Hleft.
  apply PeekBytes_Ok in Hpeek. destruct Hpeek as (_ & _ & _ & _ & ->).
  unfold bind.
  destruct (proto _) as [[] d2 | e | |] eqn:Hproto; try reflexivity.
  apply proto_step in Hproto; [| exact Hp]. cbn [pos buf] in Hproto.
  destruct Hproto as (Hp2 & Hb2 & Hlo & Hhi).
  unfold decode_protos. apply proto_loop_steps; [assumption | |].
  - rewrite Hb2. assert (0 <= pos d / 8) by (apply Z.div_pos; lia). lia.
  - now apply enough_steps_enough.
Qed.

Lemma decode_protos_total d :
  0 <= pos d -> decode_protos opcodes bcOpSyms di d <> OutOfSteps.
Proof.
  intros Hp H.
  apply (proto_loop_total opcodes bcOpSyms di (enough_steps d) d Hp).
  - now apply enough_steps_enough.
  - unfold decode_protos in H. rewrite H. reflexivity.
Qed.

(** The loop ends on a peek that saw the zero byte, and leaves the cursor on
    that byte. *)
Lemma proto_loop_exit : forall steps d d',
  proto_loop opcodes bcOpSyms steps di d = Ok tt d' ->
  exists d0, PeekBytes 1 d0 = Ok [x00] d'.
Proof.
  induction steps as [| steps IH]; intros d d' H; cbn [proto_loop] in H;
    [discriminate |].
  apply bind_Ok in H. destruct H as (bs & d1 & Hpeek & H).
  destruct (bytes_eqb bs [x00]) eqn:E.
  - apply bytes_eqb_eq in E. subst bs. inversion H; subst. eauto.
  - apply bind_Ok in H. destruct H as ([] & d2 & _ & H). eauto.
Qed.

End DumpLoop.

Lemma PeekBytes_idem d bs d' :
  PeekBytes 1 d = Ok bs d' ->
  buf d' = buf d /\ pos d' = pos d /\ lim d' = lim d /\
  Endian_ d' = Endian_ d /\ fields d' = fields d.
Proof.
  intros H. apply PeekBytes_Ok in H. destruct H as (_ & _ & _ & _ & ->).
  repeat split.
Qed.

(** After the protos: one more byte, the zero that ended the loop. *)
Lemma LuaJITDecode_terminator opcodes bcOpSyms d dEnd :
  LuaJITDecode opcodes bcOpSyms d = Ok tt dEnd ->
  exists di d2 d3,
    FieldArray "proto" (decode_protos opcodes bcOpSyms di) d2 = Ok tt d3 /\
    FieldU8 "end" [] d3 = Ok 0 dEnd /\
    pos dEnd = pos d3 + 8 /\
    fields dEnd = fields d3 ++ [("end", VUint 0 None)].
Proof.
  unfold LuaJITDecode. intros H.
  apply bind_Ok in H. destruct H as (di & d1 & _ & H).
  apply bind_Ok in H. destruct H as ([] & d2 & _ & H).
  apply bind_Ok in H. destruct H as ([] & d3 & Harr & H).
  apply bind_Ok in H. destruct H as (v & d4 & Hend & H).
  inversion H; subst d4; clear H.
  exists di, d2, d3. split; [assumption |].
  pose proof Harr as Hloop. apply fieldCompound_Ok in Hloop.
  destruct Hloop as (dl & Hloop & Hd3).
  apply proto_loop_exit in Hloop. destruct Hloop as (d0 & Hpeek).
  pose proof (PeekBytes_idem _ _ _ Hpeek) as (Hb & Hp & Hl & _).
  assert (Hpeek' : PeekBytes 1 dl = Ok [x00]
            (mkD (buf dl) (pos dl) (lim dl) (Endian_ dl) (fields dl)
                 (trace dl ++ [mkEvent (pos dl) (8 * 1) RPeek])))
    by (apply (PeekBytes_reader 1 d0 dl _ _ Hb Hp Hl Hpeek)).
  assert (HU8 : U8 d3 = Ok 0
            (mkD (buf d3) (pos d3 + 8) (lim d3) (Endian_ d3) (fields d3)
                 (trace d3 ++ [mkEvent (pos d3) 8 RU8]))).
  { assert (Hb3 : buf d3 = buf dl) by (subst d3; reflexivity).
    assert (Hp3 : pos d3 = pos dl) by (subst d3; reflexivity).
    assert (Hl3 : lim d3 = lim dl) by (subst d3; reflexivity).
    exact (U8_after_peek dl d3 x00 _ Hb3 Hp3 Hl3 Hpeek'). }
  unfold FieldU8 in *.
  rewrite (FieldUintFn_nomap "end" U8 d3 _ _ HU8) in Hend.
  inversion Hend; subst v dEnd; clear Hend. cbn [pos fields].
  rewrite (FieldUintFn_nomap "end" U8 d3 _ _ HU8).
  repeat split.
Qed.

(** A dump with no proto: when the byte after the header is zero, the decode
    succeeds with an empty proto array and the terminator field. *)
Lemma LuaJITDecode_no_protos opcodes bcOpSyms d di d1 x :
  FieldStruct "header" (LuaJITDecodeHeader (mkDumpInfo false false)) d
  = Ok di d1 ->
  PeekBytes 1 d1 = Ok [x00] x ->
  exists dEnd,
    LuaJITDecode opcodes bcOpSyms d = Ok tt dEnd /\
    fields dEnd = fields d1 ++ [("proto", VArray []); ("end", VUint 0 None)] /\
    pos dEnd = pos d1 + 8.
Proof.
  intros Hhead Hpeek. unfold LuaJITDecode. rewrite (bind_eq _ _ _ _ _ Hhead).
  set (e := if BigEndian di then decode.BigEndian else decode.LittleEndian).
  set (d2 := mkD (buf d1) (pos d1) (lim d1) e (fields d1) (trace d1)).
  assert (Hset : (if BigEndian di then SetEndian decode.BigEndian
                  else SetEndian decode.LittleEndian) d1 = Ok tt d2)
    by (unfold d2, e; destruct (BigEndian di); reflexivity).
  rewrite (bind_eq _ _ _ _ _ Hset).
  set (dl := mkD (buf d2) (pos d2) (lim d2) (Endian_ d2) [] (trace d2)).
  assert (Hpl : PeekBytes 1 dl = Ok [x00]
            (mkD (buf dl) (pos dl) (lim dl) (Endian_ dl) (fields dl)
                 (trace dl ++ [mkEvent (pos dl) (8 * 1) RPeek])))
    by (apply (PeekBytes_reader 1 d1 dl _ _ eq_refl eq_refl eq_refl Hpeek)).
  assert (Harr : FieldArray "proto" (decode_protos opcodes bcOpSyms di) d2
                 = Ok tt (mkD (buf d2) (pos d2) (lim d2) (Endian_ d2)
                              (fields d2 ++ [("proto", VArray [])])
                              (trace dl ++ [mkEvent (pos dl) (8 * 1) RPeek]))).
  { unfold FieldArray, fieldCompound. fold dl.
    unfold decode_protos, enough_steps. cbn [proto_loop].
    rewrite (bind_eq _ _ _ _ _ Hpl). reflexivity. }
  rewrite (bind_eq _ _ _ _ _ Harr).
  match goal with
  | |- context [bind (FieldU8 "end" []) _ ?s] =>
      pose proof (U8_after_peek dl s x00 _ eq_refl eq_refl eq_refl Hpl) as HU8;
      unfold FieldU8;
      rewrite (bind_eq _ _ _ _ _ (FieldUintFn_nomap "end" U8 s _ _ HU8))
  end.
  eexists. split; [reflexivity |]. cbn [fields pos]. unfold d2.
  cbn [fields pos]. rewrite <- app_assoc. split; reflexivity.
Qed.

(** The decode of a dump always comes to an end: the loop never runs out of
    steps. *)
Lemma LuaJITDecode_total opcodes bcOpSyms d :
  0 <= pos d -> LuaJITDecode opcodes bcOpSyms d <> OutOfSteps.
Proof.
  intros Hp H.
  assert (Hk : OOutOfSteps = OOutOfSteps \/ OOutOfSteps = OErr MapError \/
               OOutOfSteps = OErr AssertError) by tauto.
  unfold LuaJITDecode in H. unfold bind at 1 in H.
  pose proof (Avoids_fieldCompound _ Hk VStruct "header" _
                (Avoids_LuaJITDecodeHeader OOutOfSteps Hk ltac:(discriminate)
                   (mkDumpInfo false false)) d) as Hav.
  pose proof (Preserves_FieldStruct "header" _
                (Preserves_LuaJITDecodeHeader (mkDumpInfo false false)) d)
    as Hpres.
  unfold FieldStruct in H, Hpres.
  destruct (fieldCompound VStruct "header" _ d) as [di d1 | e | |];
    try discriminate; [| now apply Hav].
  specialize (Hpres di d1 eq_refl). destruct Hpres as (_ & _ & _ & Hp1 & _).
  unfold bind at 1 in H.
  assert (Hset : exists e,
            (if BigEndian di then SetEndian decode.BigEndian
             else SetEndian decode.LittleEndian) d1
            = Ok tt (mkD (buf d1) (pos d1) (lim d1) e (fields d1) (trace d1)))
    by (destruct (BigEndian di); eexists; reflexivity).
  destruct Hset as (e & Hset). rewrite Hset in H.
  unfold bind at 1 in H. unfold FieldArray, fieldCompound in H.
  cbn [buf pos lim Endian_ fields trace] in H.
  match type of H with
  | context [decode_protos opcodes bcOpSyms di ?s] =>
      pose proof (decode_protos_total opcodes bcOpSyms di s) as Htot;
      destruct (decode_protos opcodes bcOpSyms di s) as [[] d3 | e3 | |]
  end; try discriminate.
  - unfold bind at 1 in H.
    match type of H with
    | context [FieldU8 "end" [] ?s] =>
        pose proof (Avoids_FieldU8 _ Hk "end" [] (Forall_nil _) s) as Hav8;
        destruct (FieldU8 "end" [] s)
    end; try discriminate. now apply Hav8.
  - apply Htot; [cbn [pos]; lia | reflexivity].
Qed.



Example minimal_dump_decodes :
  exists dEnd,
    LuaJITDecode test_opcodes test_syms minimal_dump_example = Ok tt dEnd /\
    pos dEnd = 64 /\
    fields dEnd =
    [("header",
      VStruct [("magic", VRaw magic); ("version", VUint 1 None);
               ("flags", VStruct [("raw", VUint 0 None); ("be", VBool false);
                                  ("strip", VBool false); ("ffi", VBool false);
                                  ("fr2", VBool false)]);
               ("namelen", VUint 1 None); ("name", VStr [x74])]);
     ("proto", VArray []);
     ("end", VUint 0 None)].
Proof. eexists. split; [vm_compute; reflexivity |]. split; reflexivity. Qed.

(* ===================================================================== *)
(** * The range of a proto *)
(* ===================================================================== *)

(** ** Routines under a narrower range *)

Lemma Good_ret {A} (a : A) : Good (ret a).
Proof.
  split; [apply Preserves_ret |].
  intros d L a' d' H Hp Hl. inversion H; subst.
  destruct (pos d' <=? L) eqn:E; [reflexivity | apply Z.leb_gt in E; lia].
Qed.

Lemma Good_raise {A} e : Good (@raise A e).
Proof. split; [apply Preserves_raise |]. intros d L a d' H. discriminate. Qed.

Lemma Good_go_panic {A} : Good (@go_panic A).
Proof. split; [apply Preserves_go_panic |]. intros d L a d' H. discriminate. Qed.

Lemma Good_bind {A B} (m : M A) (k : A -> M B) :
  Good m -> (forall a, Good (k a)) -> Good (bind m k).
Proof.
  intros [Pm Bm] Hk. split.
  - apply Preserves_bind; [assumption | intros a; apply Hk].
  - intros d L b d2 H Hp Hl.
    apply bind_Ok in H. destruct H as (a & d1 & H1 & H2).
    pose proof (Pm _ _ _ H1) as (_ & Hl1 & _ & Hp1 & _).
    pose proof (proj1 (Hk a) _ _ _ H2) as (_ & _ & _ & Hp2 & _).
    unfold bind. rewrite (Bm _ _ _ _ H1 Hp Hl).
    destruct (pos d1 <=? L) eqn:E1.
    + apply Z.leb_le in E1.
      apply (proj2 (Hk a) _ _ _ _ H2); [assumption | lia].
    + apply Z.leb_gt in E1.
      destruct (pos d2 <=? L) eqn:E2; [apply Z.leb_le in E2; lia | reflexivity].
Qed.

Lemma Good_if {A} (b : bool) (m1 m2 : M A) :
  Good m1 -> Good m2 -> Good (if b then m1 else m2).
Proof. destruct b; auto. Qed.

Lemma Bounded_tryBytes k n d L bs d' :
  tryBytes k n d = Ok bs d' -> L <= lim d ->
  tryBytes k n (with_lim L d)
  = if pos d' <=? L then Ok bs (with_lim L d') else Err IOError.
Proof.
  intros H Hl. apply tryBytes_Ok in H.
  destruct H as (Hn & Hlim & Hbs & Hlen & ->).
  unfold tryBytes, with_lim. cbv zeta.
  cbn [buf pos lim Endian_ fields trace].
  rewrite <- Hbs.
  destruct (n <? 0) eqn:E0; [apply Z.ltb_lt in E0; lia |].
  destruct (Z.of_nat (List.length bs) <? n) eqn:E3;
    [apply Z.ltb_lt in E3; lia |].
  destruct (L <? pos d + 8 * n) eqn:E1; destruct (pos d + 8 * n <=? L) eqn:E2;
    first [ reflexivity
          | apply Z.ltb_lt in E1; apply Z.leb_le in E2; lia
          | apply Z.ltb_ge in E1; apply Z.leb_gt in E2; lia ].
Qed.

Lemma Good_tryBytes_raw n : Good (tryBytes RRaw n).
Proof.
  split; [apply Preserves_tryBytes_raw |].
  intros d L a d' H _ Hl. now apply Bounded_tryBytes.
Qed.

Lemma Good_U8 : Good U8.
Proof.
  split; [apply Preserves_U8 |].
  intros d L a d' H _ Hl. unfold U8 in *.
  apply bind_Ok in H. destruct H as (bs & d1 & H1 & H2).
  unfold bind. rewrite (Bounded_tryBytes _ _ _ _ _ _ H1 Hl).
  destruct bs as [| b [| b' bs]]; try discriminate.
  inversion H2; subst. destruct (pos d' <=? L); reflexivity.
Qed.

Lemma Good_U16 : Good U16.
Proof.
  split; [apply Preserves_U16 |].
  intros d L a d' H _ Hl. unfold U16 in *. cbn [with_lim Endian_].
  apply bind_Ok in H. destruct H as (bs & d1 & H1 & H2).
  unfold bind. rewrite (Bounded_tryBytes _ _ _ _ _ _ H1 Hl).
  destruct bs as [| b0 [| b1 [| b2 bs]]]; try discriminate.
  destruct (Endian_ d);
    match type of H2 with
    | ret ?x _ = _ =>
        assert (Hv : x = a /\ d1 = d') by (unfold ret in H2; split; congruence)
    end; destruct Hv as [<- <-]; destruct (pos d1 <=? L); reflexivity.
Qed.

Lemma Good_uleb128_loop n : forall result shift,
  Good (uleb128_loop n result shift).
Proof.
  induction n as [| n IH]; intros result shift; cbn [uleb128_loop].
  - apply Good_raise.
  - apply Good_bind; [apply Good_U8 |]. intros b.
    apply Good_if; [apply Good_raise |].
    apply Good_if; [apply Good_ret | apply IH].
Qed.

Lemma Good_ULEB128 : Good ULEB128.
Proof. apply Good_uleb128_loop. Qed.

Lemma Good_AddChild name v : Good (AddChild name v).
Proof.
  split; [apply Preserves_AddChild |].
  intros d L a d' H Hp Hl. inversion H; subst. cbn [pos].
  destruct (pos d <=? L) eqn:E; [reflexivity | apply Z.leb_gt in E; lia].
Qed.

Lemma Good_mapUint sms : forall u, Good (mapUint sms u).
Proof.
  induction sms as [| sm sms IH]; intros u; cbn [mapUint].
  - apply Good_ret.
  - destruct (sm u) as [u' [e |]]; [apply Good_raise | apply IH].
Qed.

Lemma Good_FieldUintFn name fn sms : Good fn -> Good (FieldUintFn name fn sms).
Proof.
  intros Hfn. unfold FieldUintFn.
  apply Good_bind; [assumption |]. intros v.
  apply Good_bind; [apply Good_mapUint |]. intros u.
  apply Good_bind; [apply Good_AddChild |]. intros _. apply Good_ret.
Qed.

Lemma Good_FieldU8 name sms : Good (FieldU8 name sms).
Proof. apply Good_FieldUintFn, Good_U8. Qed.

Lemma Good_FieldU16 name sms : Good (FieldU16 name sms).
Proof. apply Good_FieldUintFn, Good_U16. Qed.

Lemma Good_FieldULEB128 name sms : Good (FieldULEB128 name sms).
Proof. apply Good_FieldUintFn, Good_ULEB128. Qed.

Lemma Good_FieldAnyFn name fn : Good fn -> Good (FieldAnyFn name fn).
Proof.
  intros Hfn. unfold FieldAnyFn. apply Good_bind; [assumption |].
  intros v. apply Good_AddChild.
Qed.

Lemma Good_FieldStr name n : Good (FieldStr name n).
Proof.
  unfold FieldStr. apply Good_bind; [apply Good_tryBytes_raw |].
  intros bs. apply Good_AddChild.
Qed.

Lemma Good_fieldCompound {A} mk name (fn : M A) :
  Good fn -> Good (fieldCompound mk name fn).
Proof.
  intros [Pfn Bfn]. split; [now apply Preserves_fieldCompound |].
  intros d L a d2 H Hp Hl. apply fieldCompound_Ok in H.
  destruct H as (d1 & H1 & ->).
  pose proof (Pfn _ _ _ H1) as (_ & Hl1 & _).
  cbn [lim] in Hl1.
  specialize (Bfn _ L _ _ H1 Hp Hl).
  unfold fieldCompound, with_lim in *.
  cbn [buf pos lim Endian_ fields trace] in *. rewrite Bfn.
  destruct (pos d1 <=? L); reflexivity.
Qed.

Lemma Good_index {A} (xs : list A) i : Good (index xs i).
Proof.
  unfold index. destruct (i <? 0); [apply Good_go_panic |].
  destruct (nth_error xs (Z.to_nat i)); [apply Good_ret | apply Good_go_panic].
Qed.

Lemma Good_for_lt n body : Good body -> Good (for_lt n body).
Proof.
  intros Hb. unfold for_lt. induction (Z.to_nat n) as [| k IH]; cbn [repeatM].
  - apply Good_ret.
  - apply Good_bind; [assumption | intros _; assumption].
Qed.

Ltac good_step :=
  match goal with
  | H : Good ?m |- Good ?m => exact H
  | |- Good (bind _ _) => apply Good_bind; [| intros ?]
  | |- Good (if ?b then _ else _) => destruct b
  | |- Good (ret _) => apply Good_ret
  | |- Good (FieldAnyFn _ _) => apply Good_FieldAnyFn
  | |- Good (FieldStruct _ _) => apply Good_fieldCompound
  | |- Good (FieldArray _ _) => apply Good_fieldCompound
  | |- Good (for_lt _ _) => apply Good_for_lt
  | |- Good (FieldU8 _ _) => apply Good_FieldU8
  | |- Good (FieldU16 _ _) => apply Good_FieldU16
  | |- Good (FieldULEB128 _ _) => apply Good_FieldULEB128
  | |- Good ULEB128 => apply Good_ULEB128
  | |- Good (FieldStr _ _) => apply Good_FieldStr
  | |- Good (index _ _) => apply Good_index
  | |- Good (match ?x with _ => _ end) => destruct x
  end.

Ltac good := repeat good_step.

Lemma Good_lohi : Good lohi.
Proof. unfold lohi. good. Qed.

Lemma Good_LuaJITDecodeKTabK : Good LuaJITDecodeKTabK.
Proof. pose proof Good_lohi. unfold LuaJITDecodeKTabK. good. Qed.

Lemma Good_LuaJITDecodeKNum : Good LuaJITDecodeKNum.
Proof. unfold LuaJITDecodeKNum. good. Qed.

Lemma Good_LuaJITDecodeKGC : Good LuaJITDecodeKGC.
Proof.
  pose proof Good_lohi. pose proof Good_LuaJITDecodeKTabK.
  unfold LuaJITDecodeKGC. good.
Qed.

Lemma Good_LuaJITDecodeBCIns opcodes bcOpSyms :
  Good (LuaJITDecodeBCIns opcodes bcOpSyms).
Proof. unfold LuaJITDecodeBCIns. good. Qed.

Lemma Good_LuaJITDecodePHead di : Good (LuaJITDecodePHead di).
Proof. unfold LuaJITDecodePHead. good. Qed.

Lemma Good_LuaJITDecodePData opcodes bcOpSyms di :
  Good (LuaJITDecodePData opcodes bcOpSyms di).
Proof.
  pose proof (Good_LuaJITDecodeBCIns opcodes bcOpSyms).
  pose proof Good_LuaJITDecodeKGC. pose proof Good_LuaJITDecodeKNum.
  pose proof (Good_LuaJITDecodePHead di).
  unfold LuaJITDecodePData. good.
Qed.

(** ** The boundary of a proto *)

Lemma proto_nBits_le length :
  0 <= length < 2 ^ 63 -> mul_int64 8 (int64 length) <= 8 * length.
Proof.
  intros H. rewrite int64_small by assumption. unfold mul_int64, int64.
  pose proof (Z.mod_le (8 * length + 2 ^ 63) (2 ^ 64)). lia.
Qed.

Lemma FieldULEB128_pos_lim name sms d v d1 :
  FieldULEB128 name sms d = Ok v d1 ->
  pos d < pos d1 /\ pos d1 <= lim d1 /\ lim d1 = lim d.
Proof.
  intros H.
  pose proof (Advances_FieldUintFn name ULEB128 sms Advances_ULEB128 _ _ _ H).
  pose proof (Preserves_FieldULEB128 name sms _ _ _ H)
    as (_ & Hl & _ & _ & Hq & _).
  destruct Hq as [Hq _]; [lia |]. rewrite Hl. lia.
Qed.




(** A proto that declares 6 bytes while its head alone takes 7: the decode
    fails and the byte after the declared range is not read. *)
Example proto_overrun_fails :
  LuaJITDecodeProto test_opcodes test_syms (mkDumpInfo true false)
    (newD [x06; x00; x00; x00; x00; x00; x00; x00; xff])
  = Err IOError.
Proof. vm_compute. reflexivity. Qed.

(* ===================================================================== *)
(** * GC constants *)
(* ===================================================================== *)

(** Reads do not look at the children of the compound. *)
Lemma tryBytes_with_fields k n fs d bs d' :
  tryBytes k n d = Ok bs d' ->
  tryBytes k n (with_fields fs d) = Ok bs (with_fields fs d').
Proof.
  unfold tryBytes, with_fields. cbn [buf pos lim Endian_ fields trace].
  destruct (n <? 0); [discriminate |].
  destruct (lim d <? pos d + 8 * n); [discriminate |].
  destruct (Z.of_nat _ <? n); [discriminate |].
  intros H. injection H as Hbs Hd. subst bs d'. reflexivity.
Qed.

Lemma U8_with_fields fs d v d' :
  U8 d = Ok v d' -> U8 (with_fields fs d) = Ok v (with_fields fs d').
Proof.
  intros H. apply U8_Ok in H. destruct H as (b & H & ->).
  unfold U8. rewrite (bind_eq _ _ _ _ _ (tryBytes_with_fields _ _ fs _ _ _ H)).
  reflexivity.
Qed.

Lemma uleb128_loop_with_fields fs n : forall result shift d v d',
  uleb128_loop n result shift d = Ok v d' ->
  uleb128_loop n result shift (with_fields fs d) = Ok v (with_fields fs d').
Proof.
  induction n as [| n IH]; intros result shift d v d' H;
    cbn [uleb128_loop] in *; [discriminate |].
  apply bind_Ok in H. destruct H as (b & d1 & Hb & H).
  rewrite (bind_eq _ _ _ _ _ (U8_with_fields fs _ _ _ Hb)).
  destruct (63 <=? shift); [discriminate |].
  destruct (Z.land b 128 =? 0).
  - unfold ret in *. injection H as Hv Hd. subst. reflexivity.
  - now apply IH.
Qed.

Lemma ULEB128_with_fields fs d v d' :
  ULEB128 d = Ok v d' -> ULEB128 (with_fields fs d) = Ok v (with_fields fs d').
Proof. apply uleb128_loop_with_fields. Qed.

Lemma with_fields_same d : with_fields (fields d) d = d.
Proof. destruct d. reflexivity. Qed.

(** The two halves of a 64-bit value: two reads, and the sum
    [(hi << 32) + lo] on uint64. *)
Lemma lohi_Ok d lo d1 hi d2 :
  ULEB128 d = Ok lo d1 -> ULEB128 d1 = Ok hi d2 ->
  lohi d = Ok (wrap64 (hi * 2 ^ 32 + lo)) d2.
Proof.
  intros H1 H2. unfold lohi.
  rewrite (bind_eq _ _ _ _ _ H1), (bind_eq _ _ _ _ _ H2).
  rewrite add64_shl64. reflexivity.
Qed.

Lemma lohi_lor hi lo :
  0 <= lo < 2 ^ 32 -> wrap64 (hi * 2 ^ 32 + lo) = Z.lor (shl64 hi 32) lo.
Proof.
  intros H. rewrite <- add64_shl64. now apply add64_shl64_lor.
Qed.

Lemma FieldAnyFn_lohi name (f : Z -> Value) d lo d1 hi d2 :
  ULEB128 d = Ok lo d1 -> ULEB128 d1 = Ok hi d2 ->
  FieldAnyFn name (u <- lohi ;; ret (f u)) d
  = Ok tt (mkD (buf d2) (pos d2) (lim d2) (Endian_ d2)
               (fields d2 ++ [(name, f (wrap64 (hi * 2 ^ 32 + lo)))])
               (trace d2)).
Proof.
  intros H1 H2. unfold FieldAnyFn, bind.
  rewrite (lohi_Ok _ _ _ _ _ H1 H2). reflexivity.
Qed.

Lemma FieldStr_Ok name n d d' :
  FieldStr name n d = Ok tt d' ->
  exists bs,
    Z.of_nat (List.length bs) = n /\
    pos d' = pos d + 8 * n /\
    fields d' = fields d ++ [(name, VStr bs)].
Proof.
  unfold FieldStr. intros H. apply bind_Ok in H.
  destruct H as (bs & d1 & H1 & H). apply tryBytes_Ok in H1.
  destruct H1 as (_ & _ & _ & Hlen & ->). inversion H; subst; clear H.
  exists bs. cbn [pos fields]. repeat split; try assumption.
Qed.

(** A counted loop of sub-compounds adds one child per turn. *)
Lemma repeatM_fieldCompound_fields mk name (fn : M unit) n : forall d d',
  repeatM n (fieldCompound mk name fn) d = Ok tt d' ->
  exists l,
    fields d' = fields d ++ l /\ List.length l = n /\
    Forall (fun f => fst f = name) l.
Proof.
  induction n as [| n IH]; intros d d' H; cbn [repeatM] in H.
  - inversion H; subst. exists []. rewrite app_nil_r.
    split; [reflexivity |]. split; [reflexivity | constructor].
  - apply bind_Ok in H. destruct H as ([] & d1 & H1 & H).
    apply fieldCompound_Ok in H1. destruct H1 as (dc & _ & ->).
    apply IH in H. destruct H as (l & Hl & Hlen & Hall). cbn [fields] in Hl.
    exists ((name, mk (fields dc)) :: l).
    rewrite Hl, <- app_assoc. cbn [app List.length].
    split; [reflexivity |]. split; [now rewrite Hlen |].
    constructor; [reflexivity | assumption].
Qed.

Lemma FieldArray_for_lt_fields name mk ename (fn : M unit) n d d' :
  0 <= n ->
  FieldArray name (for_lt n (fieldCompound mk ename fn)) d = Ok tt d' ->
  exists l,
    fields d' = fields d ++ [(name, VArray l)] /\
    Z.of_nat (List.length l) = n /\
    Forall (fun f => fst f = ename) l.
Proof.
  intros Hn H. apply fieldCompound_Ok in H. destruct H as (dc & H & ->).
  apply repeatM_fieldCompound_fields in H.
  destruct H as (l & Hl & Hlen & Hall). cbn [fields app] in *.
  exists l. rewrite Hl. split; [reflexivity |]. split; [| assumption].
  unfold for_lt in Hlen. lia.
Qed.

(** The tag mappers attach a symbol and keep the value. *)
Lemma kgcType_Actual u :
  scalar.Actual (fst (kgcType_MapUint u)) = scalar.Actual u.
Proof.
  unfold kgcType_MapUint. cbn [fst].
  repeat match goal with
         | |- context [match ?x with _ => _ end] => destruct x
         end; reflexivity.
Qed.

Lemma ktabType_Actual u :
  scalar.Actual (fst (ktabType_MapUint u)) = scalar.Actual u.
Proof.
  unfold ktabType_MapUint. cbn [fst].
  repeat match goal with
         | |- context [match ?x with _ => _ end] => destruct x
         end; reflexivity.
Qed.

Lemma FieldULEB128_kgcType_range d tag d1 :
  FieldULEB128 "type" [kgcType_MapUint] d = Ok tag d1 -> 0 <= tag < 2 ^ 63.
Proof.
  intros H. apply FieldUintFn_Ok in H.
  destruct H as (raw & d0 & u & Hraw & Hmap & -> & _).
  apply ULEB128_range in Hraw.
  assert (Hu : u = fst (kgcType_MapUint (scalar.mkUint raw None))).
  { cbn [mapUint] in Hmap. unfold ret in Hmap.
    change (kgcType_MapUint (scalar.mkUint raw None))
      with (fst (kgcType_MapUint (scalar.mkUint raw None)), @None string)
      in Hmap.
    cbv iota in Hmap. congruence. }
  rewrite Hu, kgcType_Actual. exact Hraw.
Qed.




(** The examples of the spec: tag 2 with lo = 1, hi = 0 is the signed value
    1; tag 3 with lo = hi = 0xFFFFFFFF is 0xFFFFFFFFFFFFFFFF; tag 7 is a
    string of two bytes, and two bytes are consumed after the tag. *)
Example KGC_i64 :
  exists d',
    LuaJITDecodeKGC (newD [x02; x01; x00]) = Ok tt d' /\
    fields d' = [("type", VUint 2 (Some "i64")); ("i64", VSint 1)].
Proof. eexists. split; vm_compute; reflexivity. Qed.

Example KGC_u64 :
  exists d',
    LuaJITDecodeKGC
      (newD [x03; xff; xff; xff; xff; x0f; xff; xff; xff; xff; x0f])
    = Ok tt d' /\
    fields d' = [("type", VUint 3 (Some "u64"));
                 ("u64", VUint 18446744073709551615 None)].
Proof. eexists. split; vm_compute; reflexivity. Qed.

Example KGC_str :
  exists d',
    LuaJITDecodeKGC kgc_str_example = Ok tt d' /\
    pos d' = 24 /\
    fields d' = [("type", VUint 7 (Some "str")); ("str", VStr [x61; x62])].
Proof. eexists. split; [| split]; vm_compute; reflexivity. Qed.

(** The tags of table entries: 0 to 4 are nil, false, true, int, num; any
    other value is str; the value itself is kept. *)
Example ktabType_symbols :
  map (fun a => scalar.Sym (fst (ktabType_MapUint (scalar.mkUint a None))))
      [0; 1; 2; 3; 4; 5; 300]
  = [Some "nil"; Some "false"; Some "true"; Some "int"; Some "num";
     Some "str"; Some "str"].
Proof. reflexivity. Qed.

(* ===================================================================== *)
(** * Further properties: the helper, the header, the mappers *)
(* ===================================================================== *)

(** X1. [u64tof64] reproduces its argument bit for bit: the bit pattern of
    the result is the argument, for every 64-bit value; so two different
    patterns never give the same double. *)
Theorem X1_u64tof64_bit_exact u v :
  0 <= u < 2 ^ 64 -> 0 <= v < 2 ^ 64 ->
  Float64bits (u64tof64 u) = u /\
  (u64tof64 u = u64tof64 v -> u = v).
Proof.
  intros Hu Hv. split; [now apply u64tof64_bits |].
  intros H. rewrite <- (u64tof64_bits u Hu), <- (u64tof64_bits v Hv).
  now rewrite H.
Qed.

Lemma X1_u64tof64_bit_exact_witness :
  0 <= 9221120237041090561 < 2 ^ 64 /\ 0 <= 2 < 2 ^ 64 /\
  Float64bits (u64tof64 9221120237041090561) = 9221120237041090561 /\
  (u64tof64 9221120237041090561 = u64tof64 2 -> 9221120237041090561 = 2).
Proof.
  split; [lia |]. split; [lia |].
  apply X1_u64tof64_bit_exact; lia.
Defined.

Lemma FieldU8_Ok name sms d v d' :
  FieldU8 name sms d = Ok v d' ->
  pos d' = pos d + 8 /\ buf d' = buf d /\ lim d' = lim d /\
  Endian_ d' = Endian_ d /\
  exists sym, fields d' = fields d ++ [(name, VUint v sym)].
Proof.
  intros H. apply FieldUintFn_Ok in H.
  destruct H as (raw & d1 & u & H1 & _ & -> & ->).
  cbn [buf pos lim Endian_ fields].
  apply U8_Ok in H1. destruct H1 as (b & H1 & _).
  apply tryBytes_Ok in H1. destruct H1 as (_ & _ & _ & _ & ->).
  cbn [buf pos lim Endian_ fields]. repeat split; eauto.
Qed.

Lemma tryBytes_raw_Ok n d bs d' :
  tryBytes RRaw n d = Ok bs d' ->
  Z.of_nat (List.length bs) = n /\ pos d' = pos d + 8 * n /\
  fields d' = fields d.
Proof.
  intros H. apply tryBytes_Ok in H. destruct H as (_ & _ & _ & Hlen & ->).
  repeat split. assumption.
Qed.

(** X2. What a successful header decode leaves: the context holds bit 1
    (strip) and bit 0 (big-endian) of the flags, whatever it held before; the
    tree gets the magic, the version byte, and the flags with the four
    booleans equal to bits 0 to 3; then, only when the strip bit is clear, a
    length byte and a name of exactly that many bytes. *)
Theorem X2_header_layout di0 d di d' :
  LuaJITDecodeHeader di0 d = Ok di d' ->
  exists version flags tl,
    0 <= version < 256 /\
    di = mkDumpInfo (Z.testbit flags 1) (Z.testbit flags 0) /\
    fields d' =
    fields d ++
    [("magic", VRaw magic); ("version", VUint version None);
     ("flags", VStruct [("raw", VUint flags None);
                        ("be", VBool (Z.testbit flags 0));
                        ("strip", VBool (Z.testbit flags 1));
                        ("ffi", VBool (Z.testbit flags 2));
                        ("fr2", VBool (Z.testbit flags 3))])] ++ tl /\
    if Z.testbit flags 1 then tl = []
    else exists name,
        tl = [("namelen", VUint (Z.of_nat (List.length name)) None);
              ("name", VStr name)] /\
        (List.length name < 256)%nat.
Proof.
  unfold LuaJITDecodeHeader. intros H.
  apply bind_Ok in H. destruct H as ([] & d1 & Hmagic & H).
  apply bind_Ok in H. destruct H as (version & d2 & Hver & H).
  apply bind_Ok in H. destruct H as (flags & d3 & Hflags & H).
  apply FieldRawLen_assert_Ok in Hmagic.
  assert (Hvr : 0 <= version < 256).
  { apply FieldUintFn_Ok in Hver.
    destruct Hver as (raw & d0 & u & Hraw & Hmap & -> & _).
    cbn in Hmap. inversion Hmap; subst. cbn. eapply U8_range; eassumption. }
  apply FieldU8_nomap_Ok in Hver.
  apply fieldCompound_Ok in Hflags. destruct Hflags as (d3' & Hflags & ->).
  apply bind_Ok in Hflags. destruct Hflags as (raw & d4 & Hraw & Hflags).
  apply FieldULEB128_nomap_Ok in Hraw. cbn [fields] in Hraw.
  cbn in Hflags. inversion Hflags; subst flags d3'; clear Hflags.
  cbn [buf pos lim Endian_ fields trace Strip BigEndian] in H.
  rewrite ?flag_be, ?flag_strip, ?flag_ffi, ?flag_fr2 in H.
  exists version, raw.
  destruct (Z.testbit raw 1) eqn:Hstrip; cbn [negb] in H.
  - inversion H; subst di d'; clear H. exists [].
    split; [assumption |]. split; [reflexivity |]. split; [| reflexivity].
    cbn [fields]. rewrite app_nil_r, Hver, Hmagic, Hraw. cbn [app].
    rewrite <- !app_assoc. reflexivity.
  - apply bind_Ok in H. destruct H as (namelen & d5 & H5 & H).
    apply bind_Ok in H. destruct H as ([] & d6 & H6 & H).
    inversion H; subst di d'; clear H.
    assert (Hnr : 0 <= namelen < 256).
    { apply FieldUintFn_Ok in H5.
      destruct H5 as (r & d0 & u & Hr & Hmap & -> & _).
      cbn in Hmap. inversion Hmap; subst. cbn. eapply U8_range; eassumption. }
    apply FieldU8_nomap_Ok in H5. cbn [fields] in H5.
    rewrite int64_small in H6 by lia.
    unfold FieldStr in H6. apply bind_Ok in H6.
    destruct H6 as (bs & d7 & H7 & H6). apply tryBytes_raw_Ok in H7.
    destruct H7 as (Hlen & _ & Hf7). inversion H6; subst d6; clear H6.
    cbn [fields]. rewrite Hf7, H5, Hver, Hmagic, Hraw. cbn [app].
    exists [("namelen", VUint namelen None); ("name", VStr bs)].
    split; [assumption |]. split; [reflexivity |]. split.
    + rewrite <- !app_assoc. reflexivity.
    + exists bs. rewrite Hlen. split; [reflexivity | lia].
Qed.

(** The header of the minimal dump: not stripped, name "t". *)
Lemma X2_header_layout_witness :
  LuaJITDecodeHeader (mkDumpInfo true true) minimal_dump_example
  = Ok (mkDumpInfo false false)
       (state_after (LuaJITDecodeHeader (mkDumpInfo true true))
                    minimal_dump_example) /\
  exists version flags tl,
    0 <= version < 256 /\
    mkDumpInfo false false
    = mkDumpInfo (Z.testbit flags 1) (Z.testbit flags 0) /\
    fields (state_after (LuaJITDecodeHeader (mkDumpInfo true true))
                        minimal_dump_example) =
    fields minimal_dump_example ++
    [("magic", VRaw magic); ("version", VUint version None);
     ("flags", VStruct [("raw", VUint flags None);
                        ("be", VBool (Z.testbit flags 0));
                        ("strip", VBool (Z.testbit flags 1));
                        ("ffi", VBool (Z.testbit flags 2));
                        ("fr2", VBool (Z.testbit flags 3))])] ++ tl /\
    if Z.testbit flags 1 then tl = []
    else exists name,
        tl = [("namelen", VUint (Z.of_nat (List.length name)) None);
              ("name", VStr name)] /\
        (List.length name < 256)%nat.
Proof.
  assert (H : LuaJITDecodeHeader (mkDumpInfo true true) minimal_dump_example
              = Ok (mkDumpInfo false false)
                   (state_after (LuaJITDecodeHeader (mkDumpInfo true true))
                                minimal_dump_example))
    by (vm_compute; reflexivity).
  split; [exact H |].
  exact (X2_header_layout _ _ _ _ H).
Defined.

(** X3. The two tag mappers never change the value they decorate, and they
    attach the symbol "str" exactly to the values outside 0..4. *)
Theorem X3_tag_mappers_keep_value u :
  scalar.Actual (fst (ktabType_MapUint u)) = scalar.Actual u /\
  scalar.Actual (fst (kgcType_MapUint u)) = scalar.Actual u /\
  (scalar.Sym (fst (ktabType_MapUint u)) = Some "str"
   <-> ~ 0 <= scalar.Actual u <= 4) /\
  (scalar.Sym (fst (kgcType_MapUint u)) = Some "str"
   <-> ~ 0 <= scalar.Actual u <= 4).
Proof.
  split; [apply ktabType_Actual |]. split; [apply kgcType_Actual |].
  unfold ktabType_MapUint, kgcType_MapUint. cbn [fst].
  set (a := scalar.Actual u). clearbody a.
  repeat match goal with
         | |- context [match ?x with _ => _ end] => destruct x
         end;
    cbn [scalar.Sym]; split; split; intros H;
    first [ reflexivity | discriminate H | lia | exfalso; apply H; lia ].
Qed.

(** ** Reading the bytes at the cursor *)

Lemma div8_add p n : (p + 8 * n) / 8 = p / 8 + n.
Proof. rewrite Z.mul_comm. apply Z.div_add. lia. Qed.

Lemma tryBytes_at k n d bs rest :
  0 <= pos d -> pos d + 8 * n <= lim d ->
  skipn (Z.to_nat (pos d / 8)) (buf d) = bs ++ rest ->
  Z.of_nat (List.length bs) = n ->
  tryBytes k n d
  = Ok bs (mkD (buf d) (pos d + 8 * n) (lim d) (Endian_ d) (fields d)
               (trace d ++ [mkEvent (pos d) (8 * n) k])) /\
  skipn (Z.to_nat ((pos d + 8 * n) / 8)) (buf d) = rest.
Proof.
  intros Hp Hl Hsk Hlen.
  assert (Hfirst : firstn (Z.to_nat n) (bs ++ rest) = bs).
  { rewrite <- Hlen, Nat2Z.id. rewrite firstn_app, Nat.sub_diag.
    cbn [firstn]. rewrite app_nil_r. apply firstn_all. }
  split.
  - unfold tryBytes. rewrite Hsk, Hfirst.
    destruct (n <? 0) eqn:E0; [apply Z.ltb_lt in E0; lia |].
    destruct (lim d <? pos d + 8 * n) eqn:E1; [apply Z.ltb_lt in E1; lia |].
    destruct (Z.of_nat (List.length bs) <? n) eqn:E2;
      [apply Z.ltb_lt in E2; lia | reflexivity].
  - rewrite div8_add.
    assert (0 <= pos d / 8) by (apply Z.div_pos; lia).
    rewrite Z2Nat.inj_add by lia. rewrite Nat.add_comm, <- skipn_skipn, Hsk.
    rewrite <- Hlen, Nat2Z.id. rewrite skipn_app, Nat.sub_diag.
    cbn [skipn]. rewrite skipn_all. reflexivity.
Qed.

Lemma U8_at d b rest :
  0 <= pos d -> pos d + 8 <= lim d ->
  skipn (Z.to_nat (pos d / 8)) (buf d) = b :: rest ->
  U8 d
  = Ok (byte_to_Z b)
       (mkD (buf d) (pos d + 8) (lim d) (Endian_ d) (fields d)
            (trace d ++ [mkEvent (pos d) 8 RU8])) /\
  skipn (Z.to_nat ((pos d + 8) / 8)) (buf d) = rest.
Proof.
  intros Hp Hl Hsk.
  destruct (tryBytes_at RU8 1 d [b] rest Hp ltac:(lia) Hsk eq_refl)
    as [Hrd Hrest].
  split; [| exact Hrest]. unfold U8. rewrite (bind_eq _ _ _ _ _ Hrd).
  reflexivity.
Qed.

Lemma U16_at d b0 b1 rest :
  0 <= pos d -> pos d + 16 <= lim d ->
  skipn (Z.to_nat (pos d / 8)) (buf d) = b0 :: b1 :: rest ->
  U16 d
  = Ok (match Endian_ d with
        | decode.BigEndian => 256 * byte_to_Z b0 + byte_to_Z b1
        | decode.LittleEndian => 256 * byte_to_Z b1 + byte_to_Z b0
        end)
       (mkD (buf d) (pos d + 16) (lim d) (Endian_ d) (fields d)
            (trace d ++ [mkEvent (pos d) 16 (RU16 (Endian_ d))])).
Proof.
  intros Hp Hl Hsk.
  destruct (tryBytes_at (RU16 (Endian_ d)) 2 d [b0; b1] rest Hp ltac:(lia)
              Hsk eq_refl) as [Hrd _].
  unfold U16. rewrite (bind_eq _ _ _ _ _ Hrd).
  pose proof (byte_to_Z_range b0). pose proof (byte_to_Z_range b1).
  destruct (Endian_ d); unfold ret; f_equal;
    rewrite Z.shiftl_mul_pow2 by lia; rewrite lor_mul_pow2_add by lia; lia.
Qed.

Lemma FieldU8_nomap_at name d b rest :
  0 <= pos d -> pos d + 8 <= lim d ->
  skipn (Z.to_nat (pos d / 8)) (buf d) = b :: rest ->
  FieldU8 name [] d
  = Ok (byte_to_Z b)
       (mkD (buf d) (pos d + 8) (lim d) (Endian_ d)
            (fields d ++ [(name, VUint (byte_to_Z b) None)])
            (trace d ++ [mkEvent (pos d) 8 RU8])).
Proof.
  intros Hp Hl Hsk. destruct (U8_at d b rest Hp Hl Hsk) as [H _].
  unfold FieldU8. rewrite (FieldUintFn_nomap name U8 d _ _ H). reflexivity.
Qed.

Lemma FieldU8_sym_at name m d b rest :
  0 <= pos d -> pos d + 8 <= lim d ->
  skipn (Z.to_nat (pos d / 8)) (buf d) = b :: rest ->
  FieldU8 name [UintMapSymStr m] d
  = Ok (byte_to_Z b)
       (mkD (buf d) (pos d + 8) (lim d) (Endian_ d)
            (fields d ++ [(name, VUint (byte_to_Z b) (m (byte_to_Z b)))])
            (trace d ++ [mkEvent (pos d) 8 RU8])).
Proof.
  intros Hp Hl Hsk. destruct (U8_at d b rest Hp Hl Hsk) as [H _].
  unfold FieldU8, FieldUintFn. rewrite (bind_eq _ _ _ _ _ H).
  cbn [mapUint]. unfold UintMapSymStr. cbn [scalar.Actual].
  destruct (m (byte_to_Z b)); reflexivity.
Qed.

(** X4. An instruction, byte by byte. With four bytes [b0 b1 b2 b3] at the
    cursor and an entry for [b0] in the opcode table, the instruction decoder
    succeeds, consumes the four bytes, and emits [op] = b0 (with the symbol
    of the opcode map) and [a] = b1, followed by: for an opcode with a wide
    operand, the 16-bit value of [b2 b3] in the byte order of the decoder, as
    [d], or as [j] less 0x8000 modulo 2^64 for a jump; otherwise [c] = b2 and
    then [b] = b3. *)
Theorem X4_instruction_bytes opcodes bcOpSyms d b0 b1 b2 b3 rest o :
  0 <= pos d -> pos d + 32 <= lim d ->
  skipn (Z.to_nat (pos d / 8)) (buf d) = b0 :: b1 :: b2 :: b3 :: rest ->
  nth_error opcodes (Z.to_nat (byte_to_Z b0)) = Some o ->
  exists d',
    LuaJITDecodeBCIns opcodes bcOpSyms d = Ok tt d' /\
    pos d' = pos d + 32 /\
    fields d' =
    fields d ++
    [("op", VUint (byte_to_Z b0) (bcOpSyms (byte_to_Z b0)));
     ("a", VUint (byte_to_Z b1) None)] ++
    (if HasD o then
       if IsJump o then
         [("j", VUint (wrap64
                         (match Endian_ d with
                          | decode.BigEndian =>
                              256 * byte_to_Z b2 + byte_to_Z b3
                          | decode.LittleEndian =>
                              256 * byte_to_Z b3 + byte_to_Z b2
                          end - 32768)) None)]
       else
         [("d", VUint (match Endian_ d with
                       | decode.BigEndian => 256 * byte_to_Z b2 + byte_to_Z b3
                       | decode.LittleEndian =>
                           256 * byte_to_Z b3 + byte_to_Z b2
                       end) None)]
     else [("c", VUint (byte_to_Z b2) None); ("b", VUint (byte_to_Z b3) None)]).
Proof.
  intros Hp Hl Hsk Ho.
  pose proof (byte_to_Z_range b0) as Hb0.
  unfold LuaJITDecodeBCIns.
  rewrite (bind_eq _ _ _ _ _
             (FieldU8_sym_at "op" bcOpSyms d b0 _ Hp ltac:(lia) Hsk)).
  destruct (U8_at d b0 _ Hp ltac:(lia) Hsk) as [_ Hsk1].
  set (d1 := mkD (buf d) (pos d + 8) (lim d) (Endian_ d)
                 (fields d ++ [("op", VUint (byte_to_Z b0)
                                         (bcOpSyms (byte_to_Z b0)))])
                 (trace d ++ [mkEvent (pos d) 8 RU8])).
  assert (Hp1 : 0 <= pos d1) by (cbn [d1 pos]; lia).
  assert (Hl1 : pos d1 + 8 <= lim d1) by (cbn [d1 pos lim]; lia).
  rewrite (bind_eq _ _ _ _ _
             (FieldU8_nomap_at "a" d1 b1 _ Hp1 Hl1 Hsk1)).
  destruct (U8_at d1 b1 _ Hp1 Hl1 Hsk1) as [_ Hsk2].
  set (d2 := mkD (buf d1) (pos d1 + 8) (lim d1) (Endian_ d1)
                 (fields d1 ++ [("a", VUint (byte_to_Z b1) None)])
                 (trace d1 ++ [mkEvent (pos d1) 8 RU8])).
  assert (Hp2 : 0 <= pos d2) by (cbn [d2 d1 pos]; lia).
  rewrite int64_small by lia.
  rewrite (index_Some _ _ _ (proj1 Hb0) Ho).
  unfold bind at 1, ret at 1.
  destruct (HasD o).
  - unfold bind at 1, ret at 1.
    assert (Hl2 : pos d2 + 16 <= lim d2) by (cbn [d2 d1 pos lim]; lia).
    pose proof (U16_at d2 b2 b3 rest Hp2 Hl2 Hsk2) as H16.
    destruct (IsJump o).
    + unfold FieldU16, FieldUintFn, bind. rewrite H16.
      eexists. split; [reflexivity |].
      cbn [d2 d1 pos fields Endian_ mapUint jumpBias_MapUint scalar.Actual
           scalar.Sym AddChild].
      split; [lia |]. rewrite <- !app_assoc. reflexivity.
    + unfold FieldU16, FieldUintFn, bind. rewrite H16.
      eexists. split; [reflexivity |].
      cbn [d2 d1 pos fields Endian_ mapUint scalar.Actual scalar.Sym AddChild].
      split; [lia |]. rewrite <- !app_assoc. reflexivity.
  - assert (Hl2 : pos d2 + 8 <= lim d2) by (cbn [d2 d1 pos lim]; lia).
    rewrite (bind_eq _ _ _ _ _
               (FieldU8_nomap_at "c" d2 b2 _ Hp2 Hl2 Hsk2)).
    destruct (U8_at d2 b2 _ Hp2 Hl2 Hsk2) as [_ Hsk3].
    set (d3 := mkD (buf d2) (pos d2 + 8) (lim d2) (Endian_ d2)
                   (fields d2 ++ [("c", VUint (byte_to_Z b2) None)])
                   (trace d2 ++ [mkEvent (pos d2) 8 RU8])).
    assert (Hp3 : 0 <= pos d3) by (cbn [d3 d2 d1 pos]; lia).
    assert (Hl3 : pos d3 + 8 <= lim d3) by (cbn [d3 d2 d1 pos lim]; lia).
    rewrite (bind_eq _ _ _ _ _
               (FieldU8_nomap_at "b" d3 b3 _ Hp3 Hl3 Hsk3)).
    eexists. split; [reflexivity |].
    cbn [d3 d2 d1 pos fields]. split; [lia |].
    rewrite <- !app_assoc. reflexivity.
Qed.

(** The jump 01 00 7F FF at the start of a fresh decoder. *)
Lemma X4_instruction_bytes_witness :
  0 <= pos jump_example /\ pos jump_example + 32 <= lim jump_example /\
  skipn (Z.to_nat (pos jump_example / 8)) (buf jump_example)
  = [x01; x00; x7f; xff] /\
  nth_error test_opcodes (Z.to_nat (byte_to_Z x01))
  = Some (mkBcDef "JMP" true true) /\
  exists d',
    LuaJITDecodeBCIns test_opcodes test_syms jump_example = Ok tt d' /\
    pos d' = pos jump_example + 32 /\
    fields d' =
    fields jump_example ++
    [("op", VUint (byte_to_Z x01) (test_syms (byte_to_Z x01)));
     ("a", VUint (byte_to_Z x00) None)] ++
    [("j", VUint (wrap64 (256 * byte_to_Z x7f + byte_to_Z xff - 32768)) None)].
Proof.
  split; [cbn; lia |]. split; [cbn; lia |]. split; [reflexivity |].
  split; [reflexivity |].
  apply (X4_instruction_bytes test_opcodes test_syms jump_example
           x01 x00 x7f xff [] (mkBcDef "JMP" true true));
    first [ reflexivity | cbn; lia ].
Defined.

Lemma FieldU16_Ok name sms d v d' :
  FieldU16 name sms d = Ok v d' ->
  pos d' = pos d + 16 /\
  exists sym, fields d' = fields d ++ [(name, VUint v sym)].
Proof.
  intros H. apply FieldUintFn_Ok in H.
  destruct H as (raw & d1 & u & H1 & _ & -> & ->). cbn [pos fields].
  apply U16_Ok in H1. destruct H1 as (b0 & b1 & H1 & _).
  apply tryBytes_Ok in H1. destruct H1 as (_ & _ & _ & _ & ->).
  cbn [pos fields]. split; [lia | eauto].
Qed.

(** What a decoded instruction consumed and left. *)
Lemma LuaJITDecodeBCIns_Ok opcodes bcOpSyms d d' :
  LuaJITDecodeBCIns opcodes bcOpSyms d = Ok tt d' ->
  pos d' = pos d + 32 /\
  exists op a o,
    0 <= op < 256 /\
    nth_error opcodes (Z.to_nat op) = Some o /\
    if HasD o then
      exists v,
        fields d' =
        fields d ++ [("op", VUint op (bcOpSyms op)); ("a", VUint a None);
                     ((if IsJump o then "j" else "d"), VUint v None)]
    else
      exists c b,
        fields d' =
        fields d ++ [("op", VUint op (bcOpSyms op)); ("a", VUint a None);
                     ("c", VUint c None); ("b", VUint b None)].
Proof.
  unfold LuaJITDecodeBCIns. intros H.
  apply bind_Ok in H. destruct H as (op & d1 & Hop & H).
  apply bind_Ok in H. destruct H as (a & d2 & Ha & H).
  pose proof (FieldU8_sym_range _ _ _ _ _ Hop) as Hrange.
  rewrite int64_small in H by lia.
  destruct (nth_error opcodes (Z.to_nat op)) as [o |] eqn:Ho;
    [| rewrite (index_None _ _ Ho) in H; discriminate].
  rewrite (index_Some _ _ _ (proj1 Hrange) Ho) in H.
  unfold bind at 1, ret at 1 in H.
  assert (Hopf : pos d1 = pos d + 8 /\
                 fields d1 = fields d ++ [("op", VUint op (bcOpSyms op))]).
  { apply FieldUintFn_Ok in Hop.
    destruct Hop as (raw & d0 & u & Hraw & Hmap & Hv & ->).
    cbn [pos fields]. apply U8_Ok in Hraw. destruct Hraw as (b & Hraw & ->).
    apply tryBytes_Ok in Hraw. destruct Hraw as (_ & _ & _ & _ & ->).
    cbn [pos fields]. split; [lia |].
    cbn [mapUint] in Hmap. unfold UintMapSymStr in Hmap.
    cbn [scalar.Actual] in Hmap.
    destruct (bcOpSyms (byte_to_Z b)) eqn:E; unfold ret in Hmap;
      injection Hmap as Hu; subst u op; cbn [scalar.Actual scalar.Sym];
      rewrite E; reflexivity. }
  destruct Hopf as [Hp1 Hf1].
  pose proof (FieldU8_Ok _ _ _ _ _ Ha) as (Hp2 & _ & _ & _ & _).
  apply FieldU8_nomap_Ok in Ha.
  destruct (HasD o) eqn:HD.
  - unfold bind at 1, ret at 1 in H.
    destruct (IsJump o) eqn:HJ;
      apply bind_Ok in H; destruct H as (v & d3 & H16 & H);
      inversion H; subst d3; clear H;
      pose proof (FieldU16_Ok _ _ _ _ _ H16) as (Hp3 & _);
      apply FieldUintFn_Ok in H16;
      destruct H16 as (raw & d0 & u & Hraw & Hmap & Hv & ->);
      cbn [fields] in *; apply U16_Ok in Hraw;
      destruct Hraw as (x0 & x1 & Hraw & _);
      apply tryBytes_Ok in Hraw; destruct Hraw as (_ & _ & _ & _ & ->);
      cbn [fields pos] in *;
      (split; [lia |]); exists op, a, o; rewrite Ho, HD, ?HJ;
      (split; [assumption |]); (split; [reflexivity |]);
      cbn [mapUint jumpBias_MapUint] in Hmap; unfold ret in Hmap;
      injection Hmap as Hu; subst u; cbn [scalar.Actual scalar.Sym];
      eexists; rewrite Ha, Hf1, <- !app_assoc; reflexivity.
  - apply bind_Ok in H. destruct H as (c & d3 & Hc & H).
    apply bind_Ok in H. destruct H as (b & d4 & Hb & H).
    inversion H; subst d4; clear H.
    pose proof (FieldU8_Ok _ _ _ _ _ Hc) as (Hp3 & _).
    pose proof (FieldU8_Ok _ _ _ _ _ Hb) as (Hp4 & _).
    apply FieldU8_nomap_Ok in Hc. apply FieldU8_nomap_Ok in Hb.
    split; [lia |]. exists op, a, o. rewrite HD.
    split; [assumption |]. split; [exact Ho |].
    exists c, b. rewrite Hb, Hc, Ha, Hf1, <- !app_assoc. reflexivity.
Qed.

(** X5. Every instruction that decodes takes exactly four bytes, its opcode
    byte has an entry in the table, and it leaves three fields ([op], [a]
    and [d] or [j]) or four ([op], [a], [c], [b]), as the entry says. *)
Theorem X5_instruction_size opcodes bcOpSyms d d' :
  LuaJITDecodeBCIns opcodes bcOpSyms d = Ok tt d' ->
  pos d' = pos d + 32 /\
  exists op a o,
    0 <= op < 256 /\
    nth_error opcodes (Z.to_nat op) = Some o /\
    if HasD o then
      exists v,
        fields d' =
        fields d ++ [("op", VUint op (bcOpSyms op)); ("a", VUint a None);
                     ((if IsJump o then "j" else "d"), VUint v None)]
    else
      exists c b,
        fields d' =
        fields d ++ [("op", VUint op (bcOpSyms op)); ("a", VUint a None);
                     ("c", VUint c None); ("b", VUint b None)].
Proof. apply LuaJITDecodeBCIns_Ok. Qed.

Lemma X5_instruction_size_witness :
  LuaJITDecodeBCIns test_opcodes test_syms jump_example
  = Ok tt (state_after (LuaJITDecodeBCIns test_opcodes test_syms)
                       jump_example) /\
  pos (state_after (LuaJITDecodeBCIns test_opcodes test_syms) jump_example)
  = pos jump_example + 32.
Proof.
  assert (H : LuaJITDecodeBCIns test_opcodes test_syms jump_example
              = Ok tt (state_after (LuaJITDecodeBCIns test_opcodes test_syms)
                                   jump_example))
    by (vm_compute; reflexivity).
  split; [exact H |].
  exact (proj1 (X5_instruction_size _ _ _ _ H)).
Defined.

(* ===================================================================== *)
(** * Further properties: table entries *)
(* ===================================================================== *)

Lemma FieldULEB128_ktabType_range d tag d1 :
  FieldULEB128 "ktabtype" [ktabType_MapUint] d = Ok tag d1 ->
  0 <= tag < 2 ^ 63.
Proof.
  intros H. apply FieldUintFn_Ok in H.
  destruct H as (raw & d0 & u & Hraw & Hmap & -> & _).
  apply ULEB128_range in Hraw.
  assert (Hu : u = fst (ktabType_MapUint (scalar.mkUint raw None))).
  { cbn [mapUint] in Hmap. unfold ret in Hmap.
    change (ktabType_MapUint (scalar.mkUint raw None))
      with (fst (ktabType_MapUint (scalar.mkUint raw None)), @None string)
      in Hmap.
    cbv iota in Hmap. congruence. }
  rewrite Hu, ktabType_Actual. exact Hraw.
Qed.

(** X6. After its type tag, a table entry holds: nothing for the tags 0, 1
    and 2; one variable-length integer, the field [int], for tag 3; two
    variable-length integers for tag 4, whatever the parity of the first,
    combined as [(hi << 32) + lo] modulo 2^64 and exposed as the double of
    that pattern, the field [num]; and for a tag of 5 or more a string of
    exactly [tag - 5] bytes. *)
Theorem X6_KTabK_payload d tag d1 :
  FieldULEB128 "ktabtype" [ktabType_MapUint] d = Ok tag d1 ->
  (tag <= 2 -> LuaJITDecodeKTabK d = Ok tt d1) /\
  (tag = 3 ->
   forall v d2,
     ULEB128 d1 = Ok v d2 ->
     LuaJITDecodeKTabK d
     = Ok tt (mkD (buf d2) (pos d2) (lim d2) (Endian_ d2)
                  (fields d1 ++ [("int", VUint v None)]) (trace d2))) /\
  (tag = 4 ->
   forall lo d2 hi d3,
     ULEB128 d1 = Ok lo d2 -> ULEB128 d2 = Ok hi d3 ->
     exists f,
       LuaJITDecodeKTabK d
       = Ok tt (mkD (buf d3) (pos d3) (lim d3) (Endian_ d3)
                    (fields d1 ++ [("num", VFloat f)]) (trace d3)) /\
       Float64bits f = wrap64 (hi * 2 ^ 32 + lo)) /\
  (5 <= tag ->
   LuaJITDecodeKTabK d = FieldStr "str" (tag - 5) d1 /\
   forall d',
     LuaJITDecodeKTabK d = Ok tt d' ->
     exists bs,
       Z.of_nat (List.length bs) = tag - 5 /\
       pos d' = pos d1 + 8 * (tag - 5) /\
       fields d' = fields d1 ++ [("str", VStr bs)]).
Proof.
  intros Htag.
  pose proof (FieldULEB128_ktabType_range _ _ _ Htag) as Hrange.
  unfold LuaJITDecodeKTabK. rewrite !(bind_eq _ _ _ _ _ Htag).
  split.
  { intros Hle.
    assert (Hc : tag = 0 \/ tag = 1 \/ tag = 2) by lia.
    destruct Hc as [-> | [-> | ->]]; reflexivity. }
  split.
  { intros -> v d2 Hv.
    cbn [Z.leb Z.compare Pos.compare Pos.compare_cont]. cbv iota.
    unfold FieldULEB128.
    rewrite (bind_eq _ _ _ _ _ (FieldUintFn_nomap "int" ULEB128 _ _ _ Hv)).
    rewrite (ULEB128_fields _ _ _ Hv). reflexivity. }
  split.
  { intros -> lo d2 hi d3 H1 H2.
    cbn [Z.leb Z.compare Pos.compare Pos.compare_cont]. cbv iota.
    rewrite (FieldAnyFn_lohi "num" (fun u => VFloat (u64tof64 u))
               _ _ _ _ _ H1 H2).
    rewrite (ULEB128_fields _ _ _ H2), (ULEB128_fields _ _ _ H1).
    eexists. split; [reflexivity |]. apply u64tof64_bits, wrap64_range. }
  intros H5.
  destruct (5 <=? tag) eqn:E; [| apply Z.leb_gt in E; lia].
  assert (Hsz : int64 (sub64 tag 5) = tag - 5).
  { unfold sub64. rewrite wrap64_small by lia. apply int64_small. lia. }
  cbv zeta. rewrite Hsz. split; [reflexivity |].
  intros d' H. apply FieldStr_Ok in H. exact H.
Qed.

(** The entry 02 (true): nothing follows the tag. *)
Lemma X6_KTabK_payload_witness :
  FieldULEB128 "ktabtype" [ktabType_MapUint] ktabk_example
  = Ok 2 (state_after (FieldULEB128 "ktabtype" [ktabType_MapUint])
                      ktabk_example) /\
  2 <= 2 /\
  LuaJITDecodeKTabK ktabk_example
  = Ok tt (state_after (FieldULEB128 "ktabtype" [ktabType_MapUint])
                       ktabk_example).
Proof.
  assert (H : FieldULEB128 "ktabtype" [ktabType_MapUint] ktabk_example
              = Ok 2 (state_after (FieldULEB128 "ktabtype" [ktabType_MapUint])
                                  ktabk_example))
    by (vm_compute; reflexivity).
  split; [exact H |]. split; [lia |].
  apply (X6_KTabK_payload _ _ _ H). lia.
Defined.

(** The num entry does not look at the parity of [lo]: lo = 4, hi = 0 is the
    double of pattern 4 (a numeric constant would be the integer 2). *)
Example KTabK_num_no_parity :
  exists d',
    LuaJITDecodeKTabK (newD [x04; x04; x00]) = Ok tt d' /\
    fields d' = [("ktabtype", VUint 4 (Some "num"));
                 ("num", VFloat (Float64frombits 4))].
Proof. eexists. split; vm_compute; reflexivity. Qed.

(* ===================================================================== *)
(** * Further properties: runtime panics *)
(* ===================================================================== *)

Lemma NoPanic_ret {A} (a : A) : NoPanic (ret a).
Proof. intros d. discriminate. Qed.

Lemma NoPanic_raise {A} e : NoPanic (@raise A e).
Proof. intros d. discriminate. Qed.

Lemma NoPanic_bind {A B} (m : M A) (k : A -> M B) :
  NoPanic m -> (forall a, NoPanic (k a)) -> NoPanic (bind m k).
Proof.
  intros Hm Hk d. unfold bind. specialize (Hm d).
  destruct (m d) as [a d1 | e | |];
    [apply Hk | discriminate | now elim Hm | discriminate].
Qed.

Lemma NoPanic_if {A} (b : bool) (m1 m2 : M A) :
  NoPanic m1 -> NoPanic m2 -> NoPanic (if b then m1 else m2).
Proof. destruct b; auto. Qed.

Lemma NoPanic_tryBytes k n : NoPanic (tryBytes k n).
Proof.
  intros d. unfold tryBytes.
  repeat match goal with
         | |- context [if ?b then _ else _] => destruct b
         end; discriminate.
Qed.

Lemma NoPanic_PeekBytes n : NoPanic (PeekBytes n).
Proof.
  intros d. unfold PeekBytes. pose proof (NoPanic_tryBytes RPeek n d) as H.
  destruct (tryBytes RPeek n d); first [discriminate | now elim H].
Qed.

Lemma NoPanic_U8 : NoPanic U8.
Proof.
  unfold U8. apply NoPanic_bind; [apply NoPanic_tryBytes |].
  intros [| b [| b' bs]]; first [apply NoPanic_ret | apply NoPanic_raise].
Qed.

Lemma NoPanic_U16 : NoPanic U16.
Proof.
  intros d. unfold U16. apply NoPanic_bind; [apply NoPanic_tryBytes |].
  intros [| b0 [| b1 [| b2 bs]]]; try apply NoPanic_raise.
  destruct (Endian_ d); apply NoPanic_ret.
Qed.

Lemma NoPanic_uleb128_loop n : forall result shift,
  NoPanic (uleb128_loop n result shift).
Proof.
  induction n as [| n IH]; intros result shift; cbn [uleb128_loop].
  - apply NoPanic_raise.
  - apply NoPanic_bind; [apply NoPanic_U8 |]. intros b.
    apply NoPanic_if; [apply NoPanic_raise |].
    apply NoPanic_if; [apply NoPanic_ret | apply IH].
Qed.

Lemma NoPanic_ULEB128 : NoPanic ULEB128.
Proof. apply NoPanic_uleb128_loop. Qed.

Lemma NoPanic_AddChild name v : NoPanic (AddChild name v).
Proof. intros d. discriminate. Qed.

Lemma NoPanic_mapUint sms : forall u, NoPanic (mapUint sms u).
Proof.
  induction sms as [| sm sms IH]; intros u; cbn [mapUint].
  - apply NoPanic_ret.
  - destruct (sm u) as [u' [e |]]; [apply NoPanic_raise | apply IH].
Qed.

Lemma NoPanic_FieldUintFn name fn sms :
  NoPanic fn -> NoPanic (FieldUintFn name fn sms).
Proof.
  intros Hfn. unfold FieldUintFn.
  apply NoPanic_bind; [assumption |]. intros v.
  apply NoPanic_bind; [apply NoPanic_mapUint |]. intros u.
  apply NoPanic_bind; [apply NoPanic_AddChild |]. intros _. apply NoPanic_ret.
Qed.

Lemma NoPanic_FieldU8 name sms : NoPanic (FieldU8 name sms).
Proof. apply NoPanic_FieldUintFn, NoPanic_U8. Qed.

Lemma NoPanic_FieldU16 name sms : NoPanic (FieldU16 name sms).
Proof. apply NoPanic_FieldUintFn, NoPanic_U16. Qed.

Lemma NoPanic_FieldULEB128 name sms : NoPanic (FieldULEB128 name sms).
Proof. apply NoPanic_FieldUintFn, NoPanic_ULEB128. Qed.

Lemma NoPanic_FieldAnyFn name fn : NoPanic fn -> NoPanic (FieldAnyFn name fn).
Proof.
  intros Hfn. unfold FieldAnyFn. apply NoPanic_bind; [assumption |].
  intros v. apply NoPanic_AddChild.
Qed.

Lemma NoPanic_FieldStr name n : NoPanic (FieldStr name n).
Proof.
  unfold FieldStr. apply NoPanic_bind; [apply NoPanic_tryBytes |].
  intros bs. apply NoPanic_AddChild.
Qed.

Lemma NoPanic_mapBitBuf sms : forall bs, NoPanic (mapBitBuf sms bs).
Proof.
  induction sms as [| sm sms IH]; intros bs; cbn [mapBitBuf].
  - apply NoPanic_ret.
  - destruct (sm bs); [apply NoPanic_raise | apply IH].
Qed.

Lemma NoPanic_FieldRawLen name n sms : NoPanic (FieldRawLen name n sms).
Proof.
  unfold FieldRawLen. apply NoPanic_bind; [apply NoPanic_tryBytes |].
  intros bs. apply NoPanic_bind; [apply NoPanic_mapBitBuf |].
  intros _. apply NoPanic_AddChild.
Qed.

Lemma NoPanic_fieldCompound {A} mk name (fn : M A) :
  NoPanic fn -> NoPanic (fieldCompound mk name fn).
Proof.
  intros Hfn d. unfold fieldCompound.
  match goal with |- context [fn ?x] => specialize (Hfn x); destruct (fn x) end;
    first [discriminate | now elim Hfn].
Qed.

Lemma NoPanic_LimitedFn {A} nBits (fn : M A) :
  NoPanic fn -> NoPanic (LimitedFn nBits fn).
Proof.
  intros Hfn d. unfold LimitedFn. destruct (nBits <? 0); [discriminate |].
  match goal with |- context [fn ?x] => specialize (Hfn x); destruct (fn x) end;
    first [discriminate | now elim Hfn].
Qed.

Lemma NoPanic_for_lt n body : NoPanic body -> NoPanic (for_lt n body).
Proof.
  intros Hb. unfold for_lt. induction (Z.to_nat n) as [| k IH]; cbn [repeatM].
  - apply NoPanic_ret.
  - apply NoPanic_bind; [assumption | intros _; assumption].
Qed.

Lemma NoPanic_SetEndian e : NoPanic (SetEndian e).
Proof. intros d. discriminate. Qed.

Ltac nopanic_step :=
  match goal with
  | H : NoPanic ?m |- NoPanic ?m => exact H
  | |- NoPanic (bind _ _) => apply NoPanic_bind; [| intros ?]
  | |- NoPanic (if ?b then _ else _) => destruct b
  | |- NoPanic (ret _) => apply NoPanic_ret
  | |- NoPanic (FieldAnyFn _ _) => apply NoPanic_FieldAnyFn
  | |- NoPanic (FieldStruct _ _) => apply NoPanic_fieldCompound
  | |- NoPanic (FieldArray _ _) => apply NoPanic_fieldCompound
  | |- NoPanic (LimitedFn _ _) => apply NoPanic_LimitedFn
  | |- NoPanic (for_lt _ _) => apply NoPanic_for_lt
  | |- NoPanic (FieldU8 _ _) => apply NoPanic_FieldU8
  | |- NoPanic (FieldU16 _ _) => apply NoPanic_FieldU16
  | |- NoPanic (FieldULEB128 _ _) => apply NoPanic_FieldULEB128
  | |- NoPanic ULEB128 => apply NoPanic_ULEB128
  | |- NoPanic (FieldStr _ _) => apply NoPanic_FieldStr
  | |- NoPanic (FieldValueBool _ _) => apply NoPanic_AddChild
  | |- NoPanic (FieldRawLen _ _ _) => apply NoPanic_FieldRawLen
  | |- NoPanic (PeekBytes _) => apply NoPanic_PeekBytes
  | |- NoPanic (SetEndian _) => apply NoPanic_SetEndian
  | |- NoPanic (match ?x with _ => _ end) => destruct x
  end.

Ltac nopanic := repeat nopanic_step.

Lemma NoPanic_lohi : NoPanic lohi.
Proof. unfold lohi. nopanic. Qed.

Lemma NoPanic_LuaJITDecodeKTabK : NoPanic LuaJITDecodeKTabK.
Proof. pose proof NoPanic_lohi. unfold LuaJITDecodeKTabK. nopanic. Qed.

Lemma NoPanic_LuaJITDecodeKNum : NoPanic LuaJITDecodeKNum.
Proof. unfold LuaJITDecodeKNum. nopanic. Qed.

Lemma NoPanic_LuaJITDecodeKGC : NoPanic LuaJITDecodeKGC.
Proof.
  pose proof NoPanic_lohi. pose proof NoPanic_LuaJITDecodeKTabK.
  unfold LuaJITDecodeKGC. nopanic.
Qed.

Lemma NoPanic_LuaJITDecodeHeader di : NoPanic (LuaJITDecodeHeader di).
Proof. unfold LuaJITDecodeHeader. nopanic. Qed.

Lemma NoPanic_LuaJITDecodePHead di : NoPanic (LuaJITDecodePHead di).
Proof. unfold LuaJITDecodePHead. nopanic. Qed.

Section FullTable.

Variable opcodes : list BcDef.
Variable bcOpSyms : Z -> option string.
Hypothesis opcodes_full : (256 <= List.length opcodes)%nat.

Lemma NoPanic_LuaJITDecodeBCIns :
  NoPanic (LuaJITDecodeBCIns opcodes bcOpSyms).
Proof.
  intros d. unfold LuaJITDecodeBCIns. unfold bind at 1.
  pose proof (NoPanic_FieldU8 "op" [UintMapSymStr bcOpSyms] d) as H1.
  destruct (FieldU8 "op" _ d) as [op d1 | e | |] eqn:Hop;
    first [discriminate | now elim H1 | idtac].
  apply FieldU8_sym_range in Hop. unfold bind at 1.
  pose proof (NoPanic_FieldU8 "a" [] d1) as H2.
  destruct (FieldU8 "a" [] d1) as [a d2 | e | |];
    first [discriminate | now elim H2 | idtac].
  rewrite int64_small by lia.
  destruct (nth_error opcodes (Z.to_nat op)) as [o |] eqn:Ho.
  - rewrite (index_Some _ _ _ (proj1 Hop) Ho).
    unfold bind at 1, ret at 1.
    destruct (HasD o).
    + unfold bind at 1, ret at 1.
      destruct (IsJump o);
        (apply NoPanic_bind; [apply NoPanic_FieldU16 |]);
        intros _; apply NoPanic_ret.
    + apply NoPanic_bind; [apply NoPanic_FieldU8 |]. intros _.
      apply NoPanic_bind; [apply NoPanic_FieldU8 |]. intros _.
      apply NoPanic_ret.
  - apply nth_error_None in Ho. lia.
Qed.

Lemma NoPanic_LuaJITDecodeProto di :
  NoPanic (LuaJITDecodeProto opcodes bcOpSyms di).
Proof.
  pose proof NoPanic_LuaJITDecodeBCIns. pose proof NoPanic_LuaJITDecodeKGC.
  pose proof NoPanic_LuaJITDecodeKNum.
  pose proof (NoPanic_LuaJITDecodePHead di).
  unfold LuaJITDecodeProto, LuaJITDecodePData. nopanic.
Qed.

Lemma NoPanic_proto_loop di : forall steps,
  NoPanic (proto_loop opcodes bcOpSyms steps di).
Proof.
  pose proof (NoPanic_LuaJITDecodeProto di).
  induction steps as [| steps IH]; cbn [proto_loop].
  - intros d. discriminate.
  - nopanic.
Qed.

End FullTable.

(** X7. The only source of a Go runtime panic is the unchecked index into
    the opcode table: with a table that has an entry for each of the 256 byte
    values, no decode, of any input, ends in a panic. *)
Theorem X7_full_table_never_panics opcodes bcOpSyms d :
  (256 <= List.length opcodes)%nat ->
  LuaJITDecode opcodes bcOpSyms d <> Panic.
Proof.
  intros Hfull. revert d. change (NoPanic (LuaJITDecode opcodes bcOpSyms)).
  unfold LuaJITDecode.
  apply NoPanic_bind;
    [apply NoPanic_fieldCompound, NoPanic_LuaJITDecodeHeader |].
  intros di. apply NoPanic_bind; [destruct (BigEndian di);
                                   apply NoPanic_SetEndian |].
  intros _. apply NoPanic_bind.
  - apply NoPanic_fieldCompound. intros d.
    apply NoPanic_proto_loop. assumption.
  - intros _. nopanic.
Qed.

(** The dump whose opcode 9 makes the three-entry table panic decodes with
    the full table. *)
Lemma X7_full_table_never_panics_witness :
  (256 <= List.length full_opcodes)%nat /\
  LuaJITDecode full_opcodes test_syms
    (newD [x1b; x4c; x4a; x01; x03;
           x0b; x00; x00; x00; x00; x00; x00; x01; x09; x00; xff; x7f;
           x00])
  <> Panic.
Proof.
  split; [vm_compute; reflexivity |].
  apply X7_full_table_never_panics. vm_compute. reflexivity.
Defined.

(* ===================================================================== *)
(** * Further properties: the shape and the size of a proto *)
(* ===================================================================== *)

Lemma FieldU8_nomap_range name d v d' :
  FieldU8 name [] d = Ok v d' -> 0 <= v < 256.
Proof.
  intros H. apply FieldUintFn_Ok in H.
  destruct H as (raw & d0 & u & Hraw & Hmap & -> & _).
  cbn in Hmap. inversion Hmap; subst. cbn. eapply U8_range; eassumption.
Qed.

Lemma FieldULEB128_Ok_pos name sms d v d' :
  FieldULEB128 name sms d = Ok v d' -> pos d + 8 <= pos d'.
Proof.
  intros H.
  exact (Advances_FieldUintFn name ULEB128 sms Advances_ULEB128 _ _ _ H).
Qed.

(** What the head of a proto read and returned. *)
Lemma LuaJITDecodePHead_Ok di d h d' :
  LuaJITDecodePHead di d = Ok h d' ->
  pos d + 56 <= pos d' /\
  0 <= numuv h < 256 /\ 0 <= numkgc h < 2 ^ 63 /\ 0 <= numkn h < 2 ^ 63 /\
  0 <= numbc h < 2 ^ 63 /\ 0 <= debuglen h < 2 ^ 63 /\
  exists flags numparams framesize tl,
    fields d' =
    fields d ++
    [("flags", VUint flags None); ("numparams", VUint numparams None);
     ("framesize", VUint framesize None); ("numuv", VUint (numuv h) None);
     ("numkgc", VUint (numkgc h) None); ("numkn", VUint (numkn h) None);
     ("numbc", VUint (numbc h) None)] ++ tl /\
    if Strip di then tl = [] /\ debuglen h = 0
    else if 0 <? debuglen h then
           exists firstline numline,
             tl = [("debuglen", VUint (debuglen h) None);
                   ("firstline", VUint firstline None);
                   ("numline", VUint numline None)]
         else tl = [("debuglen", VUint (debuglen h) None)].
Proof.
  unfold LuaJITDecodePHead. intros H.
  apply bind_Ok in H. destruct H as (fl & d1 & H1 & H).
  apply bind_Ok in H. destruct H as (np & d2 & H2 & H).
  apply bind_Ok in H. destruct H as (fs & d3 & H3 & H).
  apply bind_Ok in H. destruct H as (uv & d4 & H4 & H).
  apply bind_Ok in H. destruct H as (kgc & d5 & H5 & H).
  apply bind_Ok in H. destruct H as (kn & d6 & H6 & H).
  apply bind_Ok in H. destruct H as (bc & d7 & H7 & H).
  pose proof (FieldU8_Ok _ _ _ _ _ H1) as (P1 & _).
  pose proof (FieldU8_Ok _ _ _ _ _ H2) as (P2 & _).
  pose proof (FieldU8_Ok _ _ _ _ _ H3) as (P3 & _).
  pose proof (FieldU8_Ok _ _ _ _ _ H4) as (P4 & _).
  pose proof (FieldULEB128_Ok_pos _ _ _ _ _ H5) as P5.
  pose proof (FieldULEB128_Ok_pos _ _ _ _ _ H6) as P6.
  pose proof (FieldULEB128_Ok_pos _ _ _ _ _ H7) as P7.
  pose proof (FieldU8_nomap_range _ _ _ _ H4) as R4.
  pose proof (FieldULEB128_range _ _ _ _ H5) as R5.
  pose proof (FieldULEB128_range _ _ _ _ H6) as R6.
  pose proof (FieldULEB128_range _ _ _ _ H7) as R7.
  apply FieldU8_nomap_Ok in H1, H2, H3, H4.
  apply FieldULEB128_nomap_Ok in H5, H6, H7.
  assert (Hbase : fields d7 =
            fields d ++
            [("flags", VUint fl None); ("numparams", VUint np None);
             ("framesize", VUint fs None); ("numuv", VUint uv None);
             ("numkgc", VUint kgc None); ("numkn", VUint kn None);
             ("numbc", VUint bc None)])
    by (rewrite H7, H6, H5, H4, H3, H2, H1, <- !app_assoc; reflexivity).
  destruct (Strip di); cbn [negb] in H.
  - inversion H; subst h d'; clear H. cbn [numuv numkgc numkn numbc debuglen].
    split; [lia |]. repeat (split; [lia |]).
    exists fl, np, fs, []. rewrite app_nil_r. repeat split. assumption.
  - apply bind_Ok in H. destruct H as (dl & d8 & H8 & H).
    pose proof (FieldULEB128_Ok_pos _ _ _ _ _ H8) as P8.
    pose proof (FieldULEB128_range _ _ _ _ H8) as R8.
    apply FieldULEB128_nomap_Ok in H8.
    destruct (0 <? dl) eqn:Hdl.
    + apply bind_Ok in H. destruct H as (fline & d9 & H9 & H).
      apply bind_Ok in H. destruct H as (nline & d10 & H10 & H).
      inversion H; subst h d'; clear H.
      pose proof (FieldULEB128_Ok_pos _ _ _ _ _ H9) as P9.
      pose proof (FieldULEB128_Ok_pos _ _ _ _ _ H10) as P10.
      apply FieldULEB128_nomap_Ok in H9, H10.
      cbn [numuv numkgc numkn numbc debuglen].
      split; [lia |]. repeat (split; [lia |]).
      exists fl, np, fs. eexists. rewrite Hdl. split.
      * rewrite H10, H9, H8, Hbase, <- !app_assoc. reflexivity.
      * do 2 eexists; reflexivity.
    + inversion H; subst h d'; clear H.
      cbn [numuv numkgc numkn numbc debuglen].
      split; [lia |]. repeat (split; [lia |]).
      exists fl, np, fs. eexists. rewrite Hdl. split.
      * rewrite H8, Hbase, <- !app_assoc. reflexivity.
      * reflexivity.
Qed.

(** X8. The head of a proto: on success it has read at least seven bytes and
    left the seven fields flags, numparams, framesize, numuv, numkgc, numkn
    and numbc; in a stripped dump nothing more, and the debug length it
    returns is 0; otherwise the field debuglen, followed by firstline and
    numline exactly when the debug length is positive. The upvalue count is
    below 256. *)
Theorem X8_phead_layout di d h d' :
  LuaJITDecodePHead di d = Ok h d' ->
  pos d + 56 <= pos d' /\
  0 <= numuv h < 256 /\ 0 <= numkgc h < 2 ^ 63 /\ 0 <= numkn h < 2 ^ 63 /\
  0 <= numbc h < 2 ^ 63 /\ 0 <= debuglen h < 2 ^ 63 /\
  exists flags numparams framesize tl,
    fields d' =
    fields d ++
    [("flags", VUint flags None); ("numparams", VUint numparams None);
     ("framesize", VUint framesize None); ("numuv", VUint (numuv h) None);
     ("numkgc", VUint (numkgc h) None); ("numkn", VUint (numkn h) None);
     ("numbc", VUint (numbc h) None)] ++ tl /\
    if Strip di then tl = [] /\ debuglen h = 0
    else if 0 <? debuglen h then
           exists firstline numline,
             tl = [("debuglen", VUint (debuglen h) None);
                   ("firstline", VUint firstline None);
                   ("numline", VUint numline None)]
         else tl = [("debuglen", VUint (debuglen h) None)].
Proof. apply LuaJITDecodePHead_Ok. Qed.

(** The head of the proto with debug bytes, read between its bytes 1 and
    10. *)
Lemma X8_phead_layout_witness :
  LuaJITDecodePHead (mkDumpInfo false false)
    (state_after (FieldULEB128 "length" []) debug_proto_example)
  = Ok (mkPHead 1 0 0 1 2)
       (state_after (LuaJITDecodePHead (mkDumpInfo false false))
          (state_after (FieldULEB128 "length" []) debug_proto_example)) /\
  pos (state_after (FieldULEB128 "length" []) debug_proto_example) + 56
  <= pos (state_after (LuaJITDecodePHead (mkDumpInfo false false))
            (state_after (FieldULEB128 "length" []) debug_proto_example)).
Proof.
  assert (H : LuaJITDecodePHead (mkDumpInfo false false)
                (state_after (FieldULEB128 "length" []) debug_proto_example)
              = Ok (mkPHead 1 0 0 1 2)
                   (state_after (LuaJITDecodePHead (mkDumpInfo false false))
                      (state_after (FieldULEB128 "length" [])
                                   debug_proto_example)))
    by (vm_compute; reflexivity).
  split; [exact H |].
  exact (proj1 (X8_phead_layout _ _ _ _ H)).
Defined.

(** ** Loops that add one child per round *)

Lemma repeatM_AddsOne name body n :
  AddsOne name body ->
  forall d d',
    repeatM n body d = Ok tt d' ->
    exists l,
      fields d' = fields d ++ l /\ List.length l = n /\
      Forall (fun f => fst f = name) l.
Proof.
  intros Hb. induction n as [| n IH]; intros d d' H; cbn [repeatM] in H.
  - inversion H; subst. exists []. rewrite app_nil_r.
    split; [reflexivity |]. split; [reflexivity | constructor].
  - apply bind_Ok in H. destruct H as ([] & d1 & H1 & H).
    apply Hb in H1. destruct H1 as (v & H1).
    apply IH in H. destruct H as (l & Hl & Hlen & Hall).
    exists ((name, v) :: l).
    rewrite Hl, H1, <- app_assoc. cbn [app List.length].
    split; [reflexivity |]. split; [now rewrite Hlen |].
    constructor; [reflexivity | assumption].
Qed.

Lemma repeatM_pos k body n :
  (forall d d', body d = Ok tt d' -> pos d + k <= pos d') ->
  forall d d',
    repeatM n body d = Ok tt d' -> pos d + k * Z.of_nat n <= pos d'.
Proof.
  intros Hb. induction n as [| n IH]; intros d d' H; cbn [repeatM] in H.
  - inversion H; subst. lia.
  - apply bind_Ok in H. destruct H as ([] & d1 & H1 & H).
    apply Hb in H1. apply IH in H. lia.
Qed.

Lemma FieldArray_for_lt_Ok name ename body k n d d' :
  0 <= n -> AddsOne ename body ->
  (forall d d', body d = Ok tt d' -> pos d + k <= pos d') ->
  FieldArray name (for_lt n body) d = Ok tt d' ->
  pos d + k * n <= pos d' /\
  exists l,
    fields d' = fields d ++ [(name, VArray l)] /\
    Z.of_nat (List.length l) = n /\
    Forall (fun f => fst f = ename) l.
Proof.
  intros Hn Hone Hk H. apply fieldCompound_Ok in H.
  destruct H as (dc & H & ->). unfold for_lt in H.
  pose proof (repeatM_pos k body _ Hk _ _ H) as Hp.
  rewrite Z2Nat.id in Hp by assumption.
  apply (repeatM_AddsOne ename body _ Hone) in H.
  destruct H as (l & Hl & Hlen & Hall). cbn [fields pos app] in *.
  split; [lia |].
  exists l. rewrite Hl. split; [reflexivity |]. split; [lia | assumption].
Qed.

Lemma AddsOne_fieldCompound mk name (fn : M unit) :
  AddsOne name (fieldCompound mk name fn).
Proof.
  intros d d' H. apply fieldCompound_Ok in H. destruct H as (dc & _ & ->).
  cbn [fields]. eauto.
Qed.

Lemma AddsOne_FieldU16 name : AddsOne name (FieldU16 name [] ;; ret tt).
Proof.
  intros d d' H. apply bind_Ok in H. destruct H as (v & d1 & H1 & H).
  inversion H; subst. apply FieldU16_Ok in H1. destruct H1 as (_ & sym & ->).
  eauto.
Qed.

Lemma AddsOne_FieldU8 name : AddsOne name (FieldU8 name [] ;; ret tt).
Proof.
  intros d d' H. apply bind_Ok in H. destruct H as (v & d1 & H1 & H).
  inversion H; subst. apply FieldU8_Ok in H1.
  destruct H1 as (_ & _ & _ & _ & sym & ->). eauto.
Qed.

Lemma AddsOne_FieldAnyFn name fn :
  (forall d v d', fn d = Ok v d' -> fields d' = fields d) ->
  AddsOne name (FieldAnyFn name fn).
Proof.
  intros Hfn d d' H. unfold FieldAnyFn in H. apply bind_Ok in H.
  destruct H as (v & d1 & H1 & H). apply Hfn in H1.
  unfold AddChild in H. inversion H; subst. cbn [fields]. rewrite H1. eauto.
Qed.

Lemma LuaJITDecodeKNum_fields d v d' :
  LuaJITDecodeKNum d = Ok v d' -> fields d' = fields d.
Proof.
  unfold LuaJITDecodeKNum. intros H.
  apply bind_Ok in H. destruct H as (lo & d1 & H1 & H).
  apply ULEB128_fields in H1.
  destruct (Z.land lo 1 =? 0).
  - inversion H; subst. assumption.
  - apply bind_Ok in H. destruct H as (hi & d2 & H2 & H).
    apply ULEB128_fields in H2. inversion H; subst. congruence.
Qed.

Lemma Advances_LuaJITDecodeKGC : Advances LuaJITDecodeKGC.
Proof.
  pose proof Preserves_lohi. pose proof Preserves_LuaJITDecodeKTabK.
  unfold LuaJITDecodeKGC. apply Advances_bind_l.
  - apply Advances_FieldUintFn, Advances_ULEB128.
  - intros t. frame.
Qed.

Lemma Advances_LuaJITDecodeKNum : Advances LuaJITDecodeKNum.
Proof.
  unfold LuaJITDecodeKNum. apply Advances_bind_l; [apply Advances_ULEB128 |].
  intros lo. frame.
Qed.

(** What the data of a proto read and left: the head, then the four arrays
    (five when the dump is not stripped), each with as many entries as the
    head announced; an instruction takes 4 bytes, an upvalue 2, a constant at
    least 1, a debug byte 1. *)
Lemma LuaJITDecodePData_Ok opcodes bcOpSyms di d d' :
  LuaJITDecodePData opcodes bcOpSyms di d = Ok tt d' ->
  exists h ph bc uv kgc kn dbg,
    pos d + 56 + 32 * numbc h + 16 * numuv h + 8 * numkgc h + 8 * numkn h
      + 8 * debuglen h <= pos d' /\
    LuaJITDecodePHead di
      (mkD (buf d) (pos d) (lim d) (Endian_ d) [] (trace d))
    = Ok h ph /\
    fields d' =
    fields d ++
    [("phead", VStruct (fields ph)); ("bcins", VArray bc);
     ("uvdata", VArray uv); ("kgc", VArray kgc); ("knum", VArray kn)]
    ++ dbg /\
    Z.of_nat (List.length bc) = numbc h /\
    Forall (fun f => fst f = "ins") bc /\
    Z.of_nat (List.length uv) = numuv h /\
    Forall (fun f => fst f = "uv") uv /\
    Z.of_nat (List.length kgc) = numkgc h /\
    Forall (fun f => fst f = "kgc") kgc /\
    Z.of_nat (List.length kn) = numkn h /\
    Forall (fun f => fst f = "knum") kn /\
    if Strip di then dbg = []
    else exists db,
        dbg = [("debug", VArray db)] /\
        Z.of_nat (List.length db) = debuglen h /\
        Forall (fun f => fst f = "db") db.
Proof.
  unfold LuaJITDecodePData. intros H.
  apply bind_Ok in H. destruct H as (h & d1 & H1 & H).
  apply bind_Ok in H. destruct H as ([] & d2 & H2 & H).
  apply bind_Ok in H. destruct H as ([] & d3 & H3 & H).
  apply bind_Ok in H. destruct H as ([] & d4 & H4 & H).
  apply bind_Ok in H. destruct H as ([] & d5 & H5 & H).
  apply fieldCompound_Ok in H1. destruct H1 as (ph & Hph & ->).
  pose proof (LuaJITDecodePHead_Ok _ _ _ _ Hph)
    as (Pph & Ruv & Rkgc & Rkn & Rbc & Rdl & _ & _ & _ & tl & _ & Htl).
  cbn [pos] in Pph.
  apply (FieldArray_for_lt_Ok _ "ins" _ 32) in H2;
    [| lia | apply AddsOne_fieldCompound |].
  2:{ intros x x' Hx. apply fieldCompound_Ok in Hx.
      destruct Hx as (xc & Hx & ->). apply LuaJITDecodeBCIns_Ok in Hx.
      cbn [pos] in *. lia. }
  apply (FieldArray_for_lt_Ok _ "uv" _ 16) in H3;
    [| lia | apply AddsOne_FieldU16 |].
  2:{ intros x x' Hx. apply bind_Ok in Hx. destruct Hx as (v & x1 & Hx & Hr).
      inversion Hr; subst. apply FieldU16_Ok in Hx. lia. }
  apply (FieldArray_for_lt_Ok _ "kgc" _ 8) in H4;
    [| lia | apply AddsOne_fieldCompound |].
  2:{ intros x x' Hx.
      exact (Advances_fieldCompound _ _ _ Advances_LuaJITDecodeKGC _ _ _ Hx). }
  apply (FieldArray_for_lt_Ok _ "knum" _ 8) in H5;
    [| lia | apply AddsOne_FieldAnyFn, LuaJITDecodeKNum_fields |].
  2:{ intros x x' Hx. unfold FieldAnyFn in Hx. apply bind_Ok in Hx.
      destruct Hx as (v & x1 & Hx & Hr).
      apply Advances_LuaJITDecodeKNum in Hx.
      unfold AddChild in Hr. inversion Hr; subst. cbn [pos]. exact Hx. }
  destruct H2 as (P2 & bc & F2 & L2 & A2).
  destruct H3 as (P3 & uv & F3 & L3 & A3).
  destruct H4 as (P4 & kgc & F4 & L4 & A4).
  destruct H5 as (P5 & kn & F5 & L5 & A5).
  cbn [pos fields] in *.
  assert (Hbase : fields d5 =
            fields d ++
            [("phead", VStruct (fields ph)); ("bcins", VArray bc);
             ("uvdata", VArray uv); ("kgc", VArray kgc);
             ("knum", VArray kn)])
    by (rewrite F5, F4, F3, F2, <- !app_assoc; reflexivity).
  exists h, ph, bc, uv, kgc, kn.
  destruct (Strip di); cbn [negb] in H.
  - inversion H; subst d'; clear H. exists [].
    destruct Htl as [_ Hdl].
    split; [lia |]. split; [exact Hph |].
    split; [rewrite app_nil_r; exact Hbase |].
    repeat (split; [assumption |]). reflexivity.
  - apply (FieldArray_for_lt_Ok _ "db" _ 8) in H;
      [| lia | apply AddsOne_FieldU8 |].
    2:{ intros x x' Hx. apply bind_Ok in Hx.
        destruct Hx as (v & x1 & Hx & Hr).
        inversion Hr; subst. apply FieldU8_Ok in Hx. lia. }
    destruct H as (P6 & db & F6 & L6 & A6).
    exists [("debug", VArray db)].
    split; [lia |]. split; [exact Hph |].
    split; [rewrite F6, Hbase, <- app_assoc; reflexivity |].
    repeat (split; [assumption |]). exists db. auto.
Qed.

(** X9. The data of a proto: on success the record holds the head, whose
    first seven fields are flags, numparams, framesize, numuv, numkgc, numkn
    and numbc, and then the arrays bcins, uvdata, kgc and knum, with exactly
    numbc entries ins, numuv entries uv, numkgc entries kgc and numkn entries
    knum. In a stripped dump that is all; otherwise the head also has
    debuglen (and firstline and numline when it is positive) and the record
    ends with the array debug of exactly debuglen entries db. *)
Theorem X9_proto_arrays opcodes bcOpSyms di d d' :
  LuaJITDecodePData opcodes bcOpSyms di d = Ok tt d' ->
  exists flags numparams framesize numuv numkgc numkn numbc tl
         bc uv kgc kn dbg,
    fields d' =
    fields d ++
    [("phead",
      VStruct
        ([("flags", VUint flags None); ("numparams", VUint numparams None);
          ("framesize", VUint framesize None); ("numuv", VUint numuv None);
          ("numkgc", VUint numkgc None); ("numkn", VUint numkn None);
          ("numbc", VUint numbc None)] ++ tl));
     ("bcins", VArray bc); ("uvdata", VArray uv); ("kgc", VArray kgc);
     ("knum", VArray kn)] ++ dbg /\
    Z.of_nat (List.length bc) = numbc /\
    Forall (fun f => fst f = "ins") bc /\
    Z.of_nat (List.length uv) = numuv /\
    Forall (fun f => fst f = "uv") uv /\
    Z.of_nat (List.length kgc) = numkgc /\
    Forall (fun f => fst f = "kgc") kgc /\
    Z.of_nat (List.length kn) = numkn /\
    Forall (fun f => fst f = "knum") kn /\
    if Strip di then tl = [] /\ dbg = []
    else
      exists debuglen rest db,
        tl = ("debuglen", VUint debuglen None) :: rest /\
        (if 0 <? debuglen then
           exists firstline numline,
             rest = [("firstline", VUint firstline None);
                     ("numline", VUint numline None)]
         else rest = []) /\
        dbg = [("debug", VArray db)] /\
        Z.of_nat (List.length db) = debuglen /\
        Forall (fun f => fst f = "db") db.
Proof.
  intros H. apply LuaJITDecodePData_Ok in H.
  destruct H as (h & ph & bc & uv & kgc & kn & dbg & _ & Hph & Hf &
                 Lbc & Abc & Luv & Auv & Lkgc & Akgc & Lkn & Akn & Hdbg).
  apply LuaJITDecodePHead_Ok in Hph.
  destruct Hph as (_ & _ & _ & _ & _ & _ & fl & np & fs & tl & Hfp & Htl).
  cbn [fields app] in Hfp.
  exists fl, np, fs, (numuv h), (numkgc h), (numkn h), (numbc h), tl,
         bc, uv, kgc, kn, dbg.
  split; [rewrite Hf, Hfp; reflexivity |].
  repeat (split; [assumption |]).
  destruct (Strip di).
  - destruct Htl as [-> _]. now subst dbg.
  - destruct Hdbg as (db & -> & Ldb & Adb).
    destruct (0 <? debuglen h) eqn:Hdl.
    + destruct Htl as (fline & nline & ->).
      exists (debuglen h). eexists. exists db.
      split; [reflexivity |]. rewrite Hdl. split; [eauto |]. auto.
    + subst tl. exists (debuglen h), [], db.
      split; [reflexivity |]. rewrite Hdl. auto.
Qed.

(** The data of the proto with debug bytes: one instruction, one upvalue, no
    constant, two debug bytes. *)
Lemma X9_proto_arrays_witness :
  LuaJITDecodePData test_opcodes test_syms (mkDumpInfo false false)
    (state_after (FieldULEB128 "length" []) debug_proto_example)
  = Ok tt
       (state_after
          (LuaJITDecodePData test_opcodes test_syms (mkDumpInfo false false))
          (state_after (FieldULEB128 "length" []) debug_proto_example)) /\
  exists dbg,
    skipn 6
      (fields
         (state_after
            (LuaJITDecodePData test_opcodes test_syms
               (mkDumpInfo false false))
            (state_after (FieldULEB128 "length" []) debug_proto_example)))
    = dbg.
Proof.
  assert (H : LuaJITDecodePData test_opcodes test_syms
                (mkDumpInfo false false)
                (state_after (FieldULEB128 "length" []) debug_proto_example)
              = Ok tt
                   (state_after
                      (LuaJITDecodePData test_opcodes test_syms
                         (mkDumpInfo false false))
                      (state_after (FieldULEB128 "length" [])
                                   debug_proto_example)))
    by (vm_compute; reflexivity).
  split; [exact H |].
  destruct (X9_proto_arrays _ _ _ _ _ H)
    as (fl & np & fs & nuv & nkgc & nkn & nbc & tl & bc & uv & kgc & kn &
        dbg & Hf & _).
  exists dbg. rewrite Hf. reflexivity.
Defined.

(** The declared length of a proto covers what the proto holds. *)
Lemma LuaJITDecodeProto_Ok opcodes bcOpSyms di d d' :
  LuaJITDecodeProto opcodes bcOpSyms di d = Ok tt d' ->
  exists length d1 h ph pd,
    FieldULEB128 "length" [] d = Ok length d1 /\
    LuaJITDecodePHead di
      (mkD (buf d1) (pos d1) (Z.min (lim d1)
                                    (pos d1 + mul_int64 8 (int64 length)))
           (Endian_ d1) [] (trace d1))
    = Ok h ph /\
    fields d' =
    fields d ++
    [("length", VUint length None);
     ("pdata", VStruct (("phead", VStruct (fields ph)) :: pd))] /\
    7 + 4 * numbc h + 2 * numuv h + numkgc h + numkn h + debuglen h
    <= length /\
    pos d1 + 56 + 32 * numbc h + 16 * numuv h + 8 * numkgc h + 8 * numkn h
      + 8 * debuglen h <= pos d' <= pos d1 + 8 * length.
Proof.
  unfold LuaJITDecodeProto. intros H.
  apply bind_Ok in H. destruct H as (len & d1 & Hlen & H).
  pose proof (FieldULEB128_range _ _ _ _ Hlen) as Hrange.
  pose proof (proto_nBits_le len Hrange) as Hn.
  pose proof (FieldULEB128_nomap_Ok _ _ _ _ Hlen) as Hf1.
  apply LimitedFn_Ok in H. destruct H as (Hn0 & d2 & H & ->).
  pose proof (Preserves_FieldStruct _ _
                (Preserves_LuaJITDecodePData opcodes bcOpSyms di) _ _ _ H)
    as (_ & _ & _ & _ & Hq & _).
  apply fieldCompound_Ok in H. destruct H as (d3 & H & ->).
  apply LuaJITDecodePData_Ok in H.
  destruct H as (h & ph & bc & uv & kgc & kn & dbg & Hp & Hph & Hf & _).
  pose proof (LuaJITDecodePHead_Ok _ _ _ _ Hph)
    as (_ & Ruv & Rkgc & Rkn & Rbc & Rdl & _).
  cbn [buf pos lim Endian_ fields trace app] in *.
  destruct Hq as [Hq _]; [lia |].
  exists len, d1, h, ph. eexists.
  split; [exact Hlen |]. split; [exact Hph |].
  split; [rewrite Hf, Hf1, <- app_assoc; reflexivity |].
  split; lia.
Qed.

(** X10. A proto that decodes is at least as long as its head announces: the
    declared length is at least 7 bytes of head, 4 bytes for each of the
    numbc instructions, 2 for each of the numuv upvalues, 1 for each of the
    numkgc and numkn constants and 1 for each of the debuglen debug bytes,
    and the cursor ends within length bytes of the end of the length field. *)
Theorem X10_proto_length_covers_counts opcodes bcOpSyms di d d' :
  LuaJITDecodeProto opcodes bcOpSyms di d = Ok tt d' ->
  exists length d1 flags numparams framesize numuv numkgc numkn numbc tl pd,
    FieldULEB128 "length" [] d = Ok length d1 /\
    fields d' =
    fields d ++
    [("length", VUint length None);
     ("pdata",
      VStruct
        (("phead",
          VStruct
            ([("flags", VUint flags None);
              ("numparams", VUint numparams None);
              ("framesize", VUint framesize None);
              ("numuv", VUint numuv None); ("numkgc", VUint numkgc None);
              ("numkn", VUint numkn None); ("numbc", VUint numbc None)]
             ++ tl)) :: pd))] /\
    7 + 4 * numbc + 2 * numuv + numkgc + numkn <= length /\
    (forall debuglen rest,
       tl = ("debuglen", VUint debuglen None) :: rest ->
       7 + 4 * numbc + 2 * numuv + numkgc + numkn + debuglen <= length) /\
    pos d1 + 56 <= pos d' <= pos d1 + 8 * length.
Proof.
  intros H. apply LuaJITDecodeProto_Ok in H.
  destruct H as (len & d1 & h & ph & pd & Hlen & Hph & Hf & Hsz & Hpos).
  pose proof (LuaJITDecodePHead_Ok _ _ _ _ Hph)
    as (Pph & Ruv & Rkgc & Rkn & Rbc & Rdl & fl & np & fs & tl & Hfp & Htl).
  cbn [fields app pos] in Hfp, Pph.
  exists len, d1, fl, np, fs, (numuv h), (numkgc h), (numkn h), (numbc h),
         tl, pd.
  split; [exact Hlen |]. split; [rewrite Hf, Hfp; reflexivity |].
  split; [lia |]. split; [| lia].
  intros dl rest Etl.
  destruct (Strip di); [destruct Htl as [-> _]; discriminate |].
  assert (Edl : dl = debuglen h).
  { destruct (0 <? debuglen h).
    - destruct Htl as (? & ? & ->). congruence.
    - congruence. }
  subst dl. lia.
Qed.

(** The proto with debug bytes: declared length 18, and
    7 + 4 * 1 + 2 * 1 + 0 + 0 + 2 = 15. *)
Lemma X10_proto_length_covers_counts_witness :
  LuaJITDecodeProto test_opcodes test_syms (mkDumpInfo false false)
    debug_proto_example
  = Ok tt
       (state_after
          (LuaJITDecodeProto test_opcodes test_syms (mkDumpInfo false false))
          debug_proto_example) /\
  exists length d1,
    FieldULEB128 "length" [] debug_proto_example = Ok length d1 /\
    pos d1 + 56
    <= pos (state_after
              (LuaJITDecodeProto test_opcodes test_syms
                 (mkDumpInfo false false))
              debug_proto_example)
    <= pos d1 + 8 * length.
Proof.
  assert (H : LuaJITDecodeProto test_opcodes test_syms
                (mkDumpInfo false false) debug_proto_example
              = Ok tt
                   (state_after
                      (LuaJITDecodeProto test_opcodes test_syms
                         (mkDumpInfo false false))
                      debug_proto_example))
    by (vm_compute; reflexivity).
  split; [exact H |].
  destruct (X10_proto_length_covers_counts _ _ _ _ _ H)
    as (len & d1 & fl & np & fs & nuv & nkgc & nkn & nbc & tl & pd &
        Hlen & _ & _ & _ & Hpos).
  exists len, d1. split; assumption.
Defined.

(* ===================================================================== *)
(** * Further properties: the tree and the size of a dump *)
(* ===================================================================== *)

Lemma LuaJITDecodeHeader_pos di0 d di d' :
  LuaJITDecodeHeader di0 d = Ok di d' -> pos d + 40 <= pos d'.
Proof.
  unfold LuaJITDecodeHeader. intros H.
  apply bind_Ok in H. destruct H as ([] & d1 & Hmagic & H).
  apply bind_Ok in H. destruct H as (version & d2 & Hver & H).
  apply bind_Ok in H. destruct H as (flags & d3 & Hflags & H).
  assert (P1 : pos d + 24 <= pos d1).
  { unfold FieldRawLen in Hmagic. change (3 * 8 / 8) with 3 in Hmagic.
    apply bind_Ok in Hmagic. destruct Hmagic as (bs & x1 & H1 & Hm).
    apply bind_Ok in Hm. destruct Hm as ([] & x2 & H2 & Hm).
    apply tryBytes_Ok in H1. destruct H1 as (_ & _ & _ & _ & ->).
    apply Preserves_mapBitBuf in H2. destruct H2 as (_ & _ & _ & Q2 & _).
    unfold AddChild in Hm. inversion Hm; subst d1. cbn [pos] in *. lia. }
  apply FieldU8_Ok in Hver. destruct Hver as (P2 & _).
  assert (P3 : pos d2 + 8 <= pos d3).
  { eapply Advances_fieldCompound; [| exact Hflags].
    apply Advances_bind_l; [apply Advances_FieldUintFn, Advances_ULEB128 |].
    intros f. frame. }
  assert (P4 : pos d3 <= pos d').
  { assert (HP : Preserves
        (if negb (Strip (mkDumpInfo (Strip
               (mkDumpInfo (0 <? Z.land flags 2) (BigEndian di0)))
               (0 <? Z.land flags 1)))
         then namelen <- FieldU8 "namelen" [] ;;
              FieldStr "name" (int64 namelen) ;;
              ret (mkDumpInfo (Strip
                     (mkDumpInfo (0 <? Z.land flags 2) (BigEndian di0)))
                     (0 <? Z.land flags 1))
         else ret (mkDumpInfo (Strip
                     (mkDumpInfo (0 <? Z.land flags 2) (BigEndian di0)))
                     (0 <? Z.land flags 1)))) by frame.
    apply HP in H. destruct H as (_ & _ & _ & Hp & _). exact Hp. }
  lia.
Qed.

(** The entries left by the proto loop: one record per proto, each with its
    length and its data, and each at least 8 bytes long. *)
Lemma proto_loop_fields opcodes bcOpSyms di : forall steps d d',
  proto_loop opcodes bcOpSyms steps di d = Ok tt d' ->
  exists ps,
    fields d' = fields d ++ ps /\
    Forall (fun f => exists length pd,
                f = ("proto", VStruct [("length", VUint length None);
                                       ("pdata", VStruct pd)])) ps /\
    pos d + 64 * Z.of_nat (List.length ps) <= pos d'.
Proof.
  induction steps as [| steps IH]; intros d d' H; cbn [proto_loop] in H;
    [discriminate |].
  apply bind_Ok in H. destruct H as (bs & d1 & Hpeek & H).
  apply PeekBytes_Ok in Hpeek. destruct Hpeek as (_ & _ & _ & _ & ->).
  destruct (bytes_eqb bs [x00]).
  - inversion H; subst d'; clear H. exists []. cbn [fields pos List.length].
    rewrite app_nil_r. split; [reflexivity |]. split; [constructor | lia].
  - apply bind_Ok in H. destruct H as ([] & d2 & Hproto & H).
    apply fieldCompound_Ok in Hproto. destruct Hproto as (dc & Hproto & ->).
    apply LuaJITDecodeProto_Ok in Hproto.
    destruct Hproto as (len & x1 & h & ph & pd & Hlen & Hph & Hf & _ & Hp & _).
    pose proof (FieldULEB128_Ok_pos _ _ _ _ _ Hlen) as Hp1.
    pose proof (LuaJITDecodePHead_Ok _ _ _ _ Hph)
      as (_ & Ruv & Rkgc & Rkn & Rbc & Rdl & _).
    apply IH in H. destruct H as (ps & Hfs & Hall & Hpos).
    cbn [buf pos lim Endian_ fields trace app] in *.
    exists (("proto", VStruct (fields dc)) :: ps).
    split; [rewrite Hfs, <- app_assoc; reflexivity |].
    split.
    + constructor; [| assumption]. rewrite Hf. eauto.
    + cbn [List.length]. lia.
Qed.

(** What a successful decode of a dump left and consumed. *)
Lemma LuaJITDecode_Ok opcodes bcOpSyms d dEnd :
  LuaJITDecode opcodes bcOpSyms d = Ok tt dEnd ->
  exists hd ps,
    fields dEnd =
    fields d ++ [("header", VStruct hd); ("proto", VArray ps);
                 ("end", VUint 0 None)] /\
    Forall (fun f => exists length pd,
                f = ("proto", VStruct [("length", VUint length None);
                                       ("pdata", VStruct pd)])) ps /\
    pos d + 48 + 64 * Z.of_nat (List.length ps) <= pos dEnd <= lim d /\
    buf dEnd = buf d /\ lim dEnd = lim d.
Proof.
  intros H.
  pose proof (LuaJITDecode_terminator _ _ _ _ H)
    as (di' & x2 & x3 & _ & _ & _ & Hend).
  unfold LuaJITDecode in H.
  apply bind_Ok in H. destruct H as (di & d1 & Hhead & H).
  apply bind_Ok in H. destruct H as ([] & d2 & Hset & H).
  apply bind_Ok in H. destruct H as ([] & d3 & Harr & H).
  apply bind_Ok in H. destruct H as (v & d4 & Hend4 & H).
  inversion H; subst d4; clear H.
  assert (Hv : v = 0).
  { pose proof (FieldU8_nomap_Ok _ _ _ _ Hend4) as He.
    rewrite Hend in He. apply app_inj_tail in He.
    destruct He as [_ He]. congruence. }
  subst v.
  pose proof (Preserves_FieldStruct _ _
                (Preserves_LuaJITDecodeHeader (mkDumpInfo false false))
                _ _ _ Hhead) as (Hb1 & Hl1 & _).
  assert (Hrest : ext d2 dEnd).
  { assert (HP : Preserves
        (FieldArray "proto" (decode_protos opcodes bcOpSyms di) ;;
         FieldU8 "end" [] ;; ret tt)).
    { pose proof (Preserves_decode_protos opcodes bcOpSyms di). frame. }
    apply (HP d2 tt dEnd). unfold bind.
    rewrite Harr, Hend4. reflexivity. }
  destruct Hrest as (Hb2 & Hl2 & _ & _ & Hq & _).
  apply fieldCompound_Ok in Hhead. destruct Hhead as (dh & Hhead & ->).
  apply LuaJITDecodeHeader_pos in Hhead.
  assert (Hd2 : d2 = mkD (buf dh) (pos dh) (lim dh)
                         (if BigEndian di then decode.BigEndian
                          else decode.LittleEndian)
                         (fields d ++ [("header", VStruct (fields dh))])
                         (trace dh)).
  { destruct (BigEndian di); unfold SetEndian in Hset;
      inversion Hset; reflexivity. }
  subst d2.
  apply fieldCompound_Ok in Harr. destruct Harr as (da & Harr & ->).
  apply proto_loop_fields in Harr. destruct Harr as (ps & Hfs & Hall & Hpos).
  pose proof (FieldU8_Ok _ _ _ _ _ Hend4) as (Pe & _).
  apply FieldU8_nomap_Ok in Hend4.
  cbn [buf pos lim Endian_ fields trace app] in *.
  exists (fields dh), ps.
  split; [rewrite Hend4, Hfs, <- ?app_assoc; reflexivity |].
  split; [assumption |].
  split; [| split; congruence].
  split; [lia |]. destruct Hq as [Hq _]; lia.
Qed.

(** X11. A dump that decodes: the tree is the header record, the array proto
    and the field end, which is 0; every entry of the array is a record proto
    made of the field length and the record pdata; the input consumed is at
    least 6 bytes (magic, version, flags, terminator) and 8 more for each
    proto, and lies within the readable range. *)
Theorem X11_dump_tree opcodes bcOpSyms d dEnd :
  LuaJITDecode opcodes bcOpSyms d = Ok tt dEnd ->
  exists hd ps,
    fields dEnd =
    fields d ++ [("header", VStruct hd); ("proto", VArray ps);
                 ("end", VUint 0 None)] /\
    Forall (fun f => exists length pd,
                f = ("proto", VStruct [("length", VUint length None);
                                       ("pdata", VStruct pd)])) ps /\
    pos d + 48 + 64 * Z.of_nat (List.length ps) <= pos dEnd <= lim d /\
    buf dEnd = buf d /\ lim dEnd = lim d.
Proof. apply LuaJITDecode_Ok. Qed.

(** The big-endian example dump. *)
Lemma X11_dump_tree_witness :
  LuaJITDecode test_opcodes test_syms be_dump_example
  = Ok tt (state_after (LuaJITDecode test_opcodes test_syms) be_dump_example)
  /\ lim (state_after (LuaJITDecode test_opcodes test_syms) be_dump_example)
     = lim be_dump_example.
Proof.
  assert (H : LuaJITDecode test_opcodes test_syms be_dump_example
              = Ok tt (state_after (LuaJITDecode test_opcodes test_syms)
                                   be_dump_example))
    by (vm_compute; reflexivity).
  split; [exact H |].
  destruct (X11_dump_tree _ _ _ _ H) as (hd & ps & _ & _ & _ & _ & Hl).
  exact Hl.
Defined.

(* ===================================================================== *)
(** * Further properties: bytes after the dump *)
(* ===================================================================== *)

Lemma extends_refl d : extends [] d d.
Proof. unfold extends. rewrite app_nil_r. repeat split; lia. Qed.

Lemma firstn_skipn_app_more (n k : nat) (l x : list byte) :
  List.length (firstn n (skipn k l)) = n ->
  firstn n (skipn k (l ++ x)) = firstn n (skipn k l).
Proof.
  intros H. rewrite skipn_app, firstn_app.
  rewrite length_firstn in H.
  replace (n - List.length (skipn k l))%nat with 0%nat by lia.
  cbn [firstn]. apply app_nil_r.
Qed.

Lemma Stable_ret {A} (a : A) : Stable (ret a).
Proof. intros x d e a' d' He H. inversion H; subst. exists e. now split. Qed.

Lemma Stable_raise {A} err : Stable (@raise A err).
Proof. intros x d e a d' _ H. discriminate. Qed.

Lemma Stable_go_panic {A} : Stable (@go_panic A).
Proof. intros x d e a d' _ H. discriminate. Qed.

Lemma Stable_bind {A B} (m : M A) (k : A -> M B) :
  Stable m -> (forall a, Stable (k a)) -> Stable (bind m k).
Proof.
  intros Hm Hk x d e b d2 He H.
  apply bind_Ok in H. destruct H as (a & d1 & H1 & H2).
  destruct (Hm _ _ _ _ _ He H1) as (e1 & E1 & He1).
  destruct (Hk a _ _ _ _ _ He1 H2) as (e2 & E2 & He2).
  exists e2. split; [| assumption]. unfold bind. rewrite E1. exact E2.
Qed.

Lemma Stable_if {A} (b : bool) (m1 m2 : M A) :
  Stable m1 -> Stable m2 -> Stable (if b then m1 else m2).
Proof. destruct b; auto. Qed.

Lemma Stable_tryBytes k n : Stable (tryBytes k n).
Proof.
  intros x d e bs d' (Hb & Hp & Hl & He & Hf & Ht) H.
  apply tryBytes_Ok in H. destruct H as (Hn & Hlim & Hbs & Hlen & ->).
  unfold tryBytes. cbv zeta. rewrite Hb, Hp, He, Hf, Ht.
  rewrite firstn_skipn_app_more by (rewrite <- Hbs; lia).
  rewrite <- Hbs.
  destruct (n <? 0) eqn:E0; [apply Z.ltb_lt in E0; lia |].
  destruct (lim e <? pos d + 8 * n) eqn:E1; [apply Z.ltb_lt in E1; lia |].
  destruct (Z.of_nat (List.length bs) <? n) eqn:E2;
    [apply Z.ltb_lt in E2; lia |].
  eexists. split; [reflexivity |].
  unfold extends. cbn [buf pos lim Endian_ fields trace]. repeat split.
  exact Hl.
Qed.

Lemma Stable_PeekBytes n : Stable (PeekBytes n).
Proof.
  intros x d e bs d' He H. unfold PeekBytes in *.
  destruct (tryBytes RPeek n d) as [bs1 d1 | | |] eqn:H1; try discriminate.
  inversion H; subst bs1 d'; clear H.
  destruct (Stable_tryBytes _ _ _ _ _ _ _ He H1) as (e1 & E1 & He1).
  rewrite E1. eexists. split; [reflexivity |].
  destruct He as (Hb & Hp & Hl & Hen & Hf & Ht).
  destruct He1 as (_ & _ & _ & _ & _ & Ht1).
  unfold extends. cbn [buf pos lim Endian_ fields trace].
  repeat split; assumption.
Qed.

Lemma Stable_U8 : Stable U8.
Proof.
  unfold U8. apply Stable_bind; [apply Stable_tryBytes |].
  intros [| b [| b' bs]]; first [apply Stable_ret | apply Stable_raise].
Qed.

Lemma Stable_U16 : Stable U16.
Proof.
  intros x d e v d' He H. unfold U16 in *.
  assert (Hen : Endian_ e = Endian_ d) by apply He. rewrite Hen.
  apply bind_Ok in H. destruct H as (bs & d1 & H1 & H2).
  destruct (Stable_tryBytes _ _ _ _ _ _ _ He H1) as (e1 & E1 & He1).
  unfold bind. rewrite E1.
  destruct bs as [| b0 [| b1 [| b2 bs]]]; try discriminate.
  destruct (Endian_ d); unfold ret in *;
    (exists e1; split; [congruence |]);
    replace d' with d1 by congruence; assumption.
Qed.

Lemma Stable_uleb128_loop n : forall result shift,
  Stable (uleb128_loop n result shift).
Proof.
  induction n as [| n IH]; intros result shift; cbn [uleb128_loop].
  - apply Stable_raise.
  - apply Stable_bind; [apply Stable_U8 |]. intros b.
    apply Stable_if; [apply Stable_raise |].
    apply Stable_if; [apply Stable_ret | apply IH].
Qed.

Lemma Stable_ULEB128 : Stable ULEB128.
Proof. apply Stable_uleb128_loop. Qed.

Lemma Stable_AddChild name v : Stable (AddChild name v).
Proof.
  intros x d e a d' (Hb & Hp & Hl & He & Hf & Ht) H.
  unfold AddChild in *. inversion H; subst a d'; clear H.
  eexists. split; [reflexivity |].
  unfold extends. cbn [buf pos lim Endian_ fields trace].
  rewrite Hf. repeat split; assumption.
Qed.

Lemma Stable_mapUint sms : forall u, Stable (mapUint sms u).
Proof.
  induction sms as [| sm sms IH]; intros u; cbn [mapUint].
  - apply Stable_ret.
  - destruct (sm u) as [u' [err |]]; [apply Stable_raise | apply IH].
Qed.

Lemma Stable_FieldUintFn name fn sms :
  Stable fn -> Stable (FieldUintFn name fn sms).
Proof.
  intros Hfn. unfold FieldUintFn.
  apply Stable_bind; [assumption |]. intros v.
  apply Stable_bind; [apply Stable_mapUint |]. intros u.
  apply Stable_bind; [apply Stable_AddChild |]. intros _. apply Stable_ret.
Qed.

Lemma Stable_FieldU8 name sms : Stable (FieldU8 name sms).
Proof. apply Stable_FieldUintFn, Stable_U8. Qed.

Lemma Stable_FieldU16 name sms : Stable (FieldU16 name sms).
Proof. apply Stable_FieldUintFn, Stable_U16. Qed.

Lemma Stable_FieldULEB128 name sms : Stable (FieldULEB128 name sms).
Proof. apply Stable_FieldUintFn, Stable_ULEB128. Qed.

Lemma Stable_FieldAnyFn name fn : Stable fn -> Stable (FieldAnyFn name fn).
Proof.
  intros Hfn. unfold FieldAnyFn. apply Stable_bind; [assumption |].
  intros v. apply Stable_AddChild.
Qed.

Lemma Stable_FieldValueBool name b : Stable (FieldValueBool name b).
Proof. apply Stable_AddChild. Qed.

Lemma Stable_FieldStr name n : Stable (FieldStr name n).
Proof.
  unfold FieldStr. apply Stable_bind; [apply Stable_tryBytes |].
  intros bs. apply Stable_AddChild.
Qed.

Lemma Stable_mapBitBuf sms bs : Stable (mapBitBuf sms bs).
Proof.
  induction sms as [| sm sms IH]; cbn [mapBitBuf].
  - apply Stable_ret.
  - destruct (sm bs); [apply Stable_raise | apply IH].
Qed.

Lemma Stable_FieldRawLen name nBits sms : Stable (FieldRawLen name nBits sms).
Proof.
  unfold FieldRawLen. apply Stable_bind; [apply Stable_tryBytes |].
  intros bs. apply Stable_bind; [apply Stable_mapBitBuf |].
  intros _. apply Stable_AddChild.
Qed.

Lemma Stable_fieldCompound {A} mk name (fn : M A) :
  Stable fn -> Stable (fieldCompound mk name fn).
Proof.
  intros Hfn x d e a d2 He H. apply fieldCompound_Ok in H.
  destruct H as (d1 & H1 & ->).
  destruct He as (Hb & Hp & Hl & Hen & Hf & Ht).
  assert (He0 : extends x
            (mkD (buf d) (pos d) (lim d) (Endian_ d) [] (trace d))
            (mkD (buf e) (pos e) (lim e) (Endian_ e) [] (trace e)))
    by (unfold extends; cbn [buf pos lim Endian_ fields trace];
        repeat split; assumption).
  destruct (Hfn _ _ _ _ _ He0 H1) as (e1 & E1 & He1).
  unfold fieldCompound. rewrite E1. eexists. split; [reflexivity |].
  destruct He1 as (Hb1 & Hp1 & Hl1 & _ & Hf1 & Ht1).
  unfold extends. cbn [buf pos lim Endian_ fields trace].
  rewrite Hf, Hf1. repeat split; assumption.
Qed.

Lemma Stable_FieldStruct {A} name (fn : M A) :
  Stable fn -> Stable (FieldStruct name fn).
Proof. apply Stable_fieldCompound. Qed.

Lemma Stable_FieldArray {A} name (fn : M A) :
  Stable fn -> Stable (FieldArray name fn).
Proof. apply Stable_fieldCompound. Qed.

Lemma Stable_LimitedFn {A} nBits (fn : M A) :
  Stable fn -> Stable (LimitedFn nBits fn).
Proof.
  intros Hfn x d e a d2 He H. apply LimitedFn_Ok in H.
  destruct H as (Hn & d1 & H1 & ->).
  destruct He as (Hb & Hp & Hl & Hen & Hf & Ht).
  assert (He0 : extends x
            (mkD (buf d) (pos d) (Z.min (lim d) (pos d + nBits)) (Endian_ d)
                 [] (trace d))
            (mkD (buf e) (pos e) (Z.min (lim e) (pos e + nBits)) (Endian_ e)
                 [] (trace e)))
    by (unfold extends; cbn [buf pos lim Endian_ fields trace];
        repeat split; first [assumption | lia]).
  destruct (Hfn _ _ _ _ _ He0 H1) as (e1 & E1 & He1).
  unfold LimitedFn. rewrite E1.
  destruct (nBits <? 0) eqn:E0; [apply Z.ltb_lt in E0; lia |].
  eexists. split; [reflexivity |].
  destruct He1 as (_ & Hp1 & _ & _ & Hf1 & Ht1).
  unfold extends. cbn [buf pos lim Endian_ fields trace].
  rewrite Hf, Hf1. repeat split; assumption.
Qed.

Lemma Stable_SetEndian en : Stable (SetEndian en).
Proof.
  intros x d e a d' (Hb & Hp & Hl & He & Hf & Ht) H.
  unfold SetEndian in *. inversion H; subst a d'; clear H.
  eexists. split; [reflexivity |].
  unfold extends. cbn [buf pos lim Endian_ fields trace].
  repeat split; assumption.
Qed.

Lemma Stable_index {A} (xs : list A) i : Stable (index xs i).
Proof.
  unfold index. apply Stable_if; [apply Stable_go_panic |].
  destruct (nth_error xs (Z.to_nat i));
    [apply Stable_ret | apply Stable_go_panic].
Qed.

Lemma Stable_repeatM n body : Stable body -> Stable (repeatM n body).
Proof.
  intros Hb. induction n as [| n IH]; cbn [repeatM].
  - apply Stable_ret.
  - apply Stable_bind; [assumption | intros _; assumption].
Qed.

Lemma Stable_for_lt n body : Stable body -> Stable (for_lt n body).
Proof. apply Stable_repeatM. Qed.

Create HintDb stable.

#[export] Hint Resolve Stable_ret Stable_raise Stable_go_panic
  Stable_tryBytes Stable_PeekBytes Stable_U8 Stable_U16 Stable_ULEB128
  Stable_AddChild Stable_mapUint Stable_FieldU8 Stable_FieldU16
  Stable_FieldULEB128 Stable_FieldValueBool Stable_FieldStr
  Stable_FieldRawLen Stable_SetEndian Stable_index : stable.

Ltac stable_step :=
  match goal with
  | H : Stable ?m |- Stable ?m => exact H
  | |- Stable (bind _ _) => apply Stable_bind; [| intros ?]
  | |- Stable (if ?b then _ else _) => destruct b
  | |- Stable (FieldAnyFn _ _) => apply Stable_FieldAnyFn
  | |- Stable (FieldStruct _ _) => apply Stable_FieldStruct
  | |- Stable (FieldArray _ _) => apply Stable_FieldArray
  | |- Stable (LimitedFn _ _) => apply Stable_LimitedFn
  | |- Stable (for_lt _ _) => apply Stable_for_lt
  | |- Stable (match ?x with _ => _ end) => destruct x
  | |- Stable _ => solve [eauto with stable]
  end.

Ltac stable := repeat stable_step.

Lemma Stable_lohi : Stable lohi.
Proof. unfold lohi. stable. Qed.

Lemma Stable_LuaJITDecodeKTabK : Stable LuaJITDecodeKTabK.
Proof. pose proof Stable_lohi. unfold LuaJITDecodeKTabK. stable. Qed.

Lemma Stable_LuaJITDecodeKNum : Stable LuaJITDecodeKNum.
Proof. unfold LuaJITDecodeKNum. stable. Qed.

Lemma Stable_LuaJITDecodeKGC : Stable LuaJITDecodeKGC.
Proof.
  pose proof Stable_lohi. pose proof Stable_LuaJITDecodeKTabK.
  unfold LuaJITDecodeKGC. stable.
Qed.

Lemma Stable_LuaJITDecodeHeader di : Stable (LuaJITDecodeHeader di).
Proof. unfold LuaJITDecodeHeader. stable. Qed.

Lemma Stable_LuaJITDecodeBCIns opcodes bcOpSyms :
  Stable (LuaJITDecodeBCIns opcodes bcOpSyms).
Proof. unfold LuaJITDecodeBCIns. stable. Qed.

Lemma Stable_LuaJITDecodePHead di : Stable (LuaJITDecodePHead di).
Proof. unfold LuaJITDecodePHead. stable. Qed.

Lemma Stable_LuaJITDecodePData opcodes bcOpSyms di :
  Stable (LuaJITDecodePData opcodes bcOpSyms di).
Proof.
  pose proof (Stable_LuaJITDecodeBCIns opcodes bcOpSyms).
  pose proof Stable_LuaJITDecodeKGC.
  pose proof Stable_LuaJITDecodeKNum.
  pose proof (Stable_LuaJITDecodePHead di).
  unfold LuaJITDecodePData. stable.
Qed.

Lemma Stable_LuaJITDecodeProto opcodes bcOpSyms di :
  Stable (LuaJITDecodeProto opcodes bcOpSyms di).
Proof.
  pose proof (Stable_LuaJITDecodePData opcodes bcOpSyms di).
  unfold LuaJITDecodeProto. stable.
Qed.

Lemma Stable_proto_loop opcodes bcOpSyms di steps :
  Stable (proto_loop opcodes bcOpSyms steps di).
Proof.
  pose proof (Stable_LuaJITDecodeProto opcodes bcOpSyms di).
  induction steps as [| steps IH]; cbn [proto_loop].
  - intros x d e a d' _ H'. discriminate.
  - stable.
Qed.

(** More steps do not change a loop that came to its end. *)
Lemma proto_loop_more_steps opcodes bcOpSyms di : forall n m d d',
  (n <= m)%nat ->
  proto_loop opcodes bcOpSyms n di d = Ok tt d' ->
  proto_loop opcodes bcOpSyms m di d = Ok tt d'.
Proof.
  induction n as [| n IH]; intros m d d' Hnm H; cbn [proto_loop] in H;
    [discriminate |].
  destruct m as [| m]; [lia |]. cbn [proto_loop].
  apply bind_Ok in H. destruct H as (bs & d1 & Hpeek & H).
  unfold bind at 1. rewrite Hpeek.
  destruct (bytes_eqb bs [x00]); [exact H |].
  apply bind_Ok in H. destruct H as ([] & d2 & Hproto & H).
  unfold bind. rewrite Hproto. apply IH; [lia | exact H].
Qed.

Lemma Stable_decode_protos opcodes bcOpSyms di :
  Stable (decode_protos opcodes bcOpSyms di).
Proof.
  intros x d e a d' He H. unfold decode_protos in *. destruct a.
  destruct (Stable_proto_loop _ _ _ _ _ _ _ _ _ He H) as (e' & E & He').
  exists e'. split; [| assumption].
  eapply proto_loop_more_steps; [| exact E].
  unfold enough_steps. destruct He as (Hb & _). rewrite Hb, length_app. lia.
Qed.

Lemma Stable_LuaJITDecode opcodes bcOpSyms :
  Stable (LuaJITDecode opcodes bcOpSyms).
Proof.
  pose proof (Stable_LuaJITDecodeHeader (mkDumpInfo false false)).
  unfold LuaJITDecode. apply Stable_bind.
  - now apply Stable_FieldStruct.
  - intros di. pose proof (Stable_decode_protos opcodes bcOpSyms di).
    stable.
Qed.

(** X12. Bytes after the dump are not looked at: when an input decodes, the
    same input followed by any other bytes decodes too, with the same tree,
    the same reads and the cursor at the same place, right after the
    terminator. *)
Theorem X12_trailing_bytes_ignored opcodes bcOpSyms input extra d' :
  LuaJITDecode opcodes bcOpSyms (newD input) = Ok tt d' ->
  exists e',
    LuaJITDecode opcodes bcOpSyms (newD (input ++ extra)) = Ok tt e' /\
    fields e' = fields d' /\ pos e' = pos d' /\ trace e' = trace d'.
Proof.
  intros H.
  assert (He : extends extra (newD input) (newD (input ++ extra))).
  { unfold extends, newD. cbn [buf pos lim Endian_ fields trace].
    rewrite length_app. repeat split. lia. }
  destruct (Stable_LuaJITDecode _ _ _ _ _ _ _ He H) as (e' & E & He').
  exists e'. split; [exact E |].
  destruct He' as (_ & Hp & _ & _ & Hf & Ht).
  repeat split; assumption.
Qed.

(** The big-endian example dump, followed by two bytes FF. *)
Lemma X12_trailing_bytes_ignored_witness :
  LuaJITDecode test_opcodes test_syms be_dump_example
  = Ok tt (state_after (LuaJITDecode test_opcodes test_syms) be_dump_example)
  /\
  exists e',
    LuaJITDecode test_opcodes test_syms
      (newD (buf be_dump_example ++ [xff; xff])) = Ok tt e' /\
    fields e'
    = fields (state_after (LuaJITDecode test_opcodes test_syms)
                          be_dump_example).
Proof.
  assert (H : LuaJITDecode test_opcodes test_syms be_dump_example
              = Ok tt (state_after (LuaJITDecode test_opcodes test_syms)
                                   be_dump_example))
    by (vm_compute; reflexivity).
  split; [exact H |].
  destruct (X12_trailing_bytes_ignored test_opcodes test_syms
              (buf be_dump_example) [xff; xff] _ H)
    as (e' & E & Hf & _).
  exists e'. split; assumption.
Defined.

(* ===================================================================== *)
(** * Further properties: the byte order on entry *)
(* ===================================================================== *)

Lemma EndianFree_ret {A} (a : A) : EndianFree (ret a).
Proof. intros en d. reflexivity. Qed.

Lemma EndianFree_raise {A} err : EndianFree (@raise A err).
Proof. intros en d. reflexivity. Qed.

Lemma EndianFree_bind {A B} (m : M A) (k : A -> M B) :
  EndianFree m -> (forall a, EndianFree (k a)) -> EndianFree (bind m k).
Proof.
  intros Hm Hk en d. unfold bind. rewrite Hm.
  destruct (m d) as [a d1 | | |]; try reflexivity. apply Hk.
Qed.

Lemma EndianFree_if {A} (b : bool) (m1 m2 : M A) :
  EndianFree m1 -> EndianFree m2 -> EndianFree (if b then m1 else m2).
Proof. destruct b; auto. Qed.

Lemma EndianFree_tryBytes k n : EndianFree (tryBytes k n).
Proof.
  intros en d. unfold tryBytes, with_endian. cbv zeta.
  cbn [buf pos lim Endian_ fields trace].
  destruct (n <? 0); [reflexivity |].
  destruct (lim d <? pos d + 8 * n); [reflexivity |].
  destruct (Z.of_nat _ <? n); reflexivity.
Qed.

Lemma EndianFree_U8 : EndianFree U8.
Proof.
  unfold U8. apply EndianFree_bind; [apply EndianFree_tryBytes |].
  intros [| b [| b' bs]]; first [apply EndianFree_ret | apply EndianFree_raise].
Qed.

Lemma EndianFree_uleb128_loop n : forall result shift,
  EndianFree (uleb128_loop n result shift).
Proof.
  induction n as [| n IH]; intros result shift; cbn [uleb128_loop].
  - apply EndianFree_raise.
  - apply EndianFree_bind; [apply EndianFree_U8 |]. intros b.
    apply EndianFree_if; [apply EndianFree_raise |].
    apply EndianFree_if; [apply EndianFree_ret | apply IH].
Qed.

Lemma EndianFree_AddChild name v : EndianFree (AddChild name v).
Proof. intros en d. reflexivity. Qed.

Lemma EndianFree_mapUint sms : forall u, EndianFree (mapUint sms u).
Proof.
  induction sms as [| sm sms IH]; intros u; cbn [mapUint].
  - apply EndianFree_ret.
  - destruct (sm u) as [u' [err |]]; [apply EndianFree_raise | apply IH].
Qed.

Lemma EndianFree_FieldUintFn name fn sms :
  EndianFree fn -> EndianFree (FieldUintFn name fn sms).
Proof.
  intros Hfn. unfold FieldUintFn.
  apply EndianFree_bind; [assumption |]. intros v.
  apply EndianFree_bind; [apply EndianFree_mapUint |]. intros u.
  apply EndianFree_bind; [apply EndianFree_AddChild |]. intros _.
  apply EndianFree_ret.
Qed.

Lemma EndianFree_mapBitBuf sms bs : EndianFree (mapBitBuf sms bs).
Proof.
  induction sms as [| sm sms IH]; cbn [mapBitBuf].
  - apply EndianFree_ret.
  - destruct (sm bs); [apply EndianFree_raise | apply IH].
Qed.

Lemma EndianFree_fieldCompound {A} mk name (fn : M A) :
  EndianFree fn -> EndianFree (fieldCompound mk name fn).
Proof.
  intros Hfn en d. unfold fieldCompound.
  change (mkD (buf (with_endian en d)) (pos (with_endian en d))
              (lim (with_endian en d)) (Endian_ (with_endian en d)) []
              (trace (with_endian en d)))
    with (with_endian en
            (mkD (buf d) (pos d) (lim d) (Endian_ d) [] (trace d))).
  rewrite Hfn. destruct (fn _) as [a d1 | | |]; reflexivity.
Qed.

Lemma EndianFree_LuaJITDecodeHeader di : EndianFree (LuaJITDecodeHeader di).
Proof.
  unfold LuaJITDecodeHeader, FieldRawLen, FieldU8, FieldULEB128, FieldStruct,
    FieldValueBool, FieldStr, ULEB128.
  repeat match goal with
    | |- EndianFree U8 => apply EndianFree_U8
    | |- EndianFree (uleb128_loop _ _ _) => apply EndianFree_uleb128_loop
    | |- EndianFree (FieldUintFn _ _ _) => apply EndianFree_FieldUintFn
    | |- EndianFree (fieldCompound _ _ _) => apply EndianFree_fieldCompound
    | |- EndianFree (tryBytes _ _) => apply EndianFree_tryBytes
    | |- EndianFree (mapBitBuf _ _) => apply EndianFree_mapBitBuf
    | |- EndianFree (AddChild _ _) => apply EndianFree_AddChild
    | |- EndianFree (ret _) => apply EndianFree_ret
    | |- EndianFree (if _ then _ else _) => apply EndianFree_if
    | |- EndianFree (bind _ _) => apply EndianFree_bind; [| intros ?]
    end.
Qed.

(** X13. The byte order that the decoder has on entry does not matter: the
    header is read byte by byte, and the byte order is set from its flags
    before anything wider is read; so the decode gives the same result,
    error or tree, from either byte order. *)
Theorem X13_entry_byte_order_irrelevant opcodes bcOpSyms en d :
  LuaJITDecode opcodes bcOpSyms (with_endian en d)
  = LuaJITDecode opcodes bcOpSyms d.
Proof.
  unfold LuaJITDecode. unfold bind at 1 5.
  pose proof (EndianFree_fieldCompound VStruct "header" _
                (EndianFree_LuaJITDecodeHeader (mkDumpInfo false false))
                en d) as Hh.
  unfold FieldStruct. rewrite Hh.
  destruct (fieldCompound VStruct "header" _ d) as [di d1 | | |];
    try reflexivity.
  unfold bind at 1 4.
  destruct (BigEndian di); reflexivity.
Qed.

(** X14. A dump cut short does not decode: when an input decodes and the
    decode consumed more than the first [n] bytes, these [n] bytes alone do
    not decode to any tree. *)
Theorem X14_truncated_dump_fails opcodes bcOpSyms input extra d' :
  LuaJITDecode opcodes bcOpSyms (newD (input ++ extra)) = Ok tt d' ->
  8 * Z.of_nat (List.length input) < pos d' ->
  forall r, LuaJITDecode opcodes bcOpSyms (newD input) <> Ok tt r.
Proof.
  intros H Hcut r Hr.
  assert (He : extends extra (newD input) (newD (input ++ extra))).
  { unfold extends, newD. cbn [buf pos lim Endian_ fields trace].
    rewrite length_app. repeat split. lia. }
  destruct (Stable_LuaJITDecode _ _ _ _ _ _ _ He Hr) as (e' & E & He').
  rewrite H in E. inversion E; subst e'; clear E.
  destruct He' as (_ & Hp & _).
  apply LuaJITDecode_Ok in Hr.
  destruct Hr as (hd & ps & _ & _ & Hpos & _).
  cbn [newD lim pos] in Hpos. lia.
Qed.

(** The big-endian example dump without its last byte, the terminator. *)
Lemma X14_truncated_dump_fails_witness :
  ~ exists r,
      LuaJITDecode test_opcodes test_syms
        (newD (firstn 17 (buf be_dump_example))) = Ok tt r.
Proof.
  intros [r Hr]. revert r Hr.
  apply (X14_truncated_dump_fails test_opcodes test_syms
           (firstn 17 (buf be_dump_example))
           (skipn 17 (buf be_dump_example))
           (state_after (LuaJITDecode test_opcodes test_syms)
                        be_dump_example)).
  - vm_compute; reflexivity.
  - vm_compute; reflexivity.
Defined.

(* ===================================================================== *)
(** * Further properties: the order of the reads *)
(* ===================================================================== *)

Lemma covers_app p evs1 q evs2 r :
  covers p evs1 q -> covers q evs2 r -> covers p (evs1 ++ evs2) r.
Proof.
  revert p. induction evs1 as [| ev evs1 IH]; intros p H1 H2; cbn in *.
  - subst q. exact H2.
  - destruct H1 as (Hp & Hb & H1). split; [assumption |].
    split; [assumption |].
    destruct (ev_kind ev); now apply IH.
Qed.

Lemma Contiguous_ret {A} (a : A) : Contiguous (ret a).
Proof.
  intros d a' d' H. inversion H; subst. exists [].
  rewrite app_nil_r. split; reflexivity.
Qed.

Lemma Contiguous_raise {A} err : Contiguous (@raise A err).
Proof. intros d a d' H. discriminate. Qed.

Lemma Contiguous_go_panic {A} : Contiguous (@go_panic A).
Proof. intros d a d' H. discriminate. Qed.

Lemma Contiguous_bind {A B} (m : M A) (k : A -> M B) :
  Contiguous m -> (forall a, Contiguous (k a)) -> Contiguous (bind m k).
Proof.
  intros Hm Hk d b d2 H.
  apply bind_Ok in H. destruct H as (a & d1 & H1 & H2).
  destruct (Hm _ _ _ H1) as (evs1 & T1 & C1).
  destruct (Hk a _ _ _ H2) as (evs2 & T2 & C2).
  exists (evs1 ++ evs2). split.
  - rewrite T2, T1, app_assoc. reflexivity.
  - eapply covers_app; eassumption.
Qed.

Lemma Contiguous_if {A} (b : bool) (m1 m2 : M A) :
  Contiguous m1 -> Contiguous m2 -> Contiguous (if b then m1 else m2).
Proof. destruct b; auto. Qed.

Lemma Contiguous_tryBytes k n : k <> RPeek -> Contiguous (tryBytes k n).
Proof.
  intros Hk d bs d' H. apply tryBytes_Ok in H.
  destruct H as (Hn & _ & _ & _ & ->). cbn [trace pos].
  eexists. split; [reflexivity |]. cbn [covers ev_pos ev_bits ev_kind].
  split; [reflexivity |]. split; [lia |].
  destruct k; try reflexivity. now elim Hk.
Qed.

Lemma Contiguous_PeekBytes n : Contiguous (PeekBytes n).
Proof.
  intros d bs d' H. apply PeekBytes_Ok in H.
  destruct H as (Hn & _ & _ & _ & ->). cbn [trace pos].
  eexists. split; [reflexivity |]. cbn [covers ev_pos ev_bits ev_kind].
  split; [reflexivity |]. split; [lia | reflexivity].
Qed.

Lemma Contiguous_U8 : Contiguous U8.
Proof.
  unfold U8. apply Contiguous_bind;
    [apply Contiguous_tryBytes; discriminate |].
  intros [| b [| b' bs]];
    first [apply Contiguous_ret | apply Contiguous_raise].
Qed.

Lemma Contiguous_U16 : Contiguous U16.
Proof.
  intros d v d' H. unfold U16 in H.
  apply bind_Ok in H. destruct H as (bs & d1 & H1 & H2).
  apply (Contiguous_tryBytes (RU16 (Endian_ d)) 2) in H1; [| discriminate].
  destruct bs as [| b0 [| b1 [| b2 bs]]]; try discriminate.
  destruct (Endian_ d); unfold ret in H2;
    replace d' with d1 by congruence; exact H1.
Qed.

Lemma Contiguous_uleb128_loop n : forall result shift,
  Contiguous (uleb128_loop n result shift).
Proof.
  induction n as [| n IH]; intros result shift; cbn [uleb128_loop].
  - apply Contiguous_raise.
  - apply Contiguous_bind; [apply Contiguous_U8 |]. intros b.
    apply Contiguous_if; [apply Contiguous_raise |].
    apply Contiguous_if; [apply Contiguous_ret | apply IH].
Qed.

Lemma Contiguous_ULEB128 : Contiguous ULEB128.
Proof. apply Contiguous_uleb128_loop. Qed.

Lemma Contiguous_AddChild name v : Contiguous (AddChild name v).
Proof.
  intros d a d' H. unfold AddChild in H. inversion H; subst a d'; clear H.
  exists []. cbn [trace pos]. rewrite app_nil_r. split; reflexivity.
Qed.

Lemma Contiguous_mapUint sms : forall u, Contiguous (mapUint sms u).
Proof.
  induction sms as [| sm sms IH]; intros u; cbn [mapUint].
  - apply Contiguous_ret.
  - destruct (sm u) as [u' [err |]]; [apply Contiguous_raise | apply IH].
Qed.

Lemma Contiguous_FieldUintFn name fn sms :
  Contiguous fn -> Contiguous (FieldUintFn name fn sms).
Proof.
  intros Hfn. unfold FieldUintFn.
  apply Contiguous_bind; [assumption |]. intros v.
  apply Contiguous_bind; [apply Contiguous_mapUint |]. intros u.
  apply Contiguous_bind; [apply Contiguous_AddChild |]. intros _.
  apply Contiguous_ret.
Qed.

Lemma Contiguous_FieldU8 name sms : Contiguous (FieldU8 name sms).
Proof. apply Contiguous_FieldUintFn, Contiguous_U8. Qed.

Lemma Contiguous_FieldU16 name sms : Contiguous (FieldU16 name sms).
Proof. apply Contiguous_FieldUintFn, Contiguous_U16. Qed.

Lemma Contiguous_FieldULEB128 name sms : Contiguous (FieldULEB128 name sms).
Proof. apply Contiguous_FieldUintFn, Contiguous_ULEB128. Qed.

Lemma Contiguous_FieldAnyFn name fn :
  Contiguous fn -> Contiguous (FieldAnyFn name fn).
Proof.
  intros Hfn. unfold FieldAnyFn. apply Contiguous_bind; [assumption |].
  intros v. apply Contiguous_AddChild.
Qed.

Lemma Contiguous_FieldValueBool name b : Contiguous (FieldValueBool name b).
Proof. apply Contiguous_AddChild. Qed.

Lemma Contiguous_FieldStr name n : Contiguous (FieldStr name n).
Proof.
  unfold FieldStr. apply Contiguous_bind;
    [apply Contiguous_tryBytes; discriminate |].
  intros bs. apply Contiguous_AddChild.
Qed.

Lemma Contiguous_mapBitBuf sms bs : Contiguous (mapBitBuf sms bs).
Proof.
  induction sms as [| sm sms IH]; cbn [mapBitBuf].
  - apply Contiguous_ret.
  - destruct (sm bs); [apply Contiguous_raise | apply IH].
Qed.

Lemma Contiguous_FieldRawLen name nBits sms :
  Contiguous (FieldRawLen name nBits sms).
Proof.
  unfold FieldRawLen. apply Contiguous_bind;
    [apply Contiguous_tryBytes; discriminate |].
  intros bs. apply Contiguous_bind; [apply Contiguous_mapBitBuf |].
  intros _. apply Contiguous_AddChild.
Qed.

Lemma Contiguous_fieldCompound {A} mk name (fn : M A) :
  Contiguous fn -> Contiguous (fieldCompound mk name fn).
Proof.
  intros Hfn d a d2 H. apply fieldCompound_Ok in H.
  destruct H as (d1 & H1 & ->). apply Hfn in H1. exact H1.
Qed.

Lemma Contiguous_FieldStruct {A} name (fn : M A) :
  Contiguous fn -> Contiguous (FieldStruct name fn).
Proof. apply Contiguous_fieldCompound. Qed.

Lemma Contiguous_FieldArray {A} name (fn : M A) :
  Contiguous fn -> Contiguous (FieldArray name fn).
Proof. apply Contiguous_fieldCompound. Qed.

Lemma Contiguous_LimitedFn {A} nBits (fn : M A) :
  Contiguous fn -> Contiguous (LimitedFn nBits fn).
Proof.
  intros Hfn d a d2 H. apply LimitedFn_Ok in H.
  destruct H as (_ & d1 & H1 & ->). apply Hfn in H1. exact H1.
Qed.

Lemma Contiguous_SetEndian en : Contiguous (SetEndian en).
Proof.
  intros d a d' H. unfold SetEndian in H. inversion H; subst a d'; clear H.
  exists []. cbn [trace pos]. rewrite app_nil_r. split; reflexivity.
Qed.

Lemma Contiguous_index {A} (xs : list A) i : Contiguous (index xs i).
Proof.
  unfold index. apply Contiguous_if; [apply Contiguous_go_panic |].
  destruct (nth_error xs (Z.to_nat i));
    [apply Contiguous_ret | apply Contiguous_go_panic].
Qed.

Lemma Contiguous_repeatM n body :
  Contiguous body -> Contiguous (repeatM n body).
Proof.
  intros Hb. induction n as [| n IH]; cbn [repeatM].
  - apply Contiguous_ret.
  - apply Contiguous_bind; [assumption | intros _; assumption].
Qed.

Lemma Contiguous_for_lt n body :
  Contiguous body -> Contiguous (for_lt n body).
Proof. apply Contiguous_repeatM. Qed.

Create HintDb contiguous.

#[export] Hint Resolve Contiguous_ret Contiguous_raise Contiguous_go_panic
  Contiguous_PeekBytes Contiguous_U8 Contiguous_U16 Contiguous_ULEB128
  Contiguous_AddChild Contiguous_mapUint Contiguous_FieldU8
  Contiguous_FieldU16 Contiguous_FieldULEB128 Contiguous_FieldValueBool
  Contiguous_FieldStr Contiguous_FieldRawLen Contiguous_SetEndian
  Contiguous_index : contiguous.

Ltac contiguous_step :=
  match goal with
  | H : Contiguous ?m |- Contiguous ?m => exact H
  | |- Contiguous (bind _ _) => apply Contiguous_bind; [| intros ?]
  | |- Contiguous (if ?b then _ else _) => destruct b
  | |- Contiguous (FieldAnyFn _ _) => apply Contiguous_FieldAnyFn
  | |- Contiguous (FieldStruct _ _) => apply Contiguous_FieldStruct
  | |- Contiguous (FieldArray _ _) => apply Contiguous_FieldArray
  | |- Contiguous (LimitedFn _ _) => apply Contiguous_LimitedFn
  | |- Contiguous (for_lt _ _) => apply Contiguous_for_lt
  | |- Contiguous (match ?x with _ => _ end) => destruct x
  | |- Contiguous _ => solve [eauto with contiguous]
  end.

Ltac contiguous := repeat contiguous_step.

Lemma Contiguous_lohi : Contiguous lohi.
Proof. unfold lohi. contiguous. Qed.

Lemma Contiguous_LuaJITDecodeKTabK : Contiguous LuaJITDecodeKTabK.
Proof. pose proof Contiguous_lohi. unfold LuaJITDecodeKTabK. contiguous. Qed.

Lemma Contiguous_LuaJITDecodeKNum : Contiguous LuaJITDecodeKNum.
Proof. unfold LuaJITDecodeKNum. contiguous. Qed.

Lemma Contiguous_LuaJITDecodeKGC : Contiguous LuaJITDecodeKGC.
Proof.
  pose proof Contiguous_lohi. pose proof Contiguous_LuaJITDecodeKTabK.
  unfold LuaJITDecodeKGC. contiguous.
Qed.

Lemma Contiguous_LuaJITDecodeHeader di : Contiguous (LuaJITDecodeHeader di).
Proof. unfold LuaJITDecodeHeader. contiguous. Qed.

Lemma Contiguous_LuaJITDecodeBCIns opcodes bcOpSyms :
  Contiguous (LuaJITDecodeBCIns opcodes bcOpSyms).
Proof. unfold LuaJITDecodeBCIns. contiguous. Qed.

Lemma Contiguous_LuaJITDecodePHead di : Contiguous (LuaJITDecodePHead di).
Proof. unfold LuaJITDecodePHead. contiguous. Qed.

Lemma Contiguous_LuaJITDecodePData opcodes bcOpSyms di :
  Contiguous (LuaJITDecodePData opcodes bcOpSyms di).
Proof.
  pose proof (Contiguous_LuaJITDecodeBCIns opcodes bcOpSyms).
  pose proof Contiguous_LuaJITDecodeKGC.
  pose proof Contiguous_LuaJITDecodeKNum.
  pose proof (Contiguous_LuaJITDecodePHead di).
  unfold LuaJITDecodePData. contiguous.
Qed.

Lemma Contiguous_LuaJITDecodeProto opcodes bcOpSyms di :
  Contiguous (LuaJITDecodeProto opcodes bcOpSyms di).
Proof.
  pose proof (Contiguous_LuaJITDecodePData opcodes bcOpSyms di).
  unfold LuaJITDecodeProto. contiguous.
Qed.

Lemma Contiguous_proto_loop opcodes bcOpSyms di steps :
  Contiguous (proto_loop opcodes bcOpSyms steps di).
Proof.
  pose proof (Contiguous_LuaJITDecodeProto opcodes bcOpSyms di).
  induction steps as [| steps IH]; cbn [proto_loop].
  - intros d a d' H'. discriminate.
  - contiguous.
Qed.

Lemma Contiguous_decode_protos opcodes bcOpSyms di :
  Contiguous (decode_protos opcodes bcOpSyms di).
Proof. intros d a d' H. eapply Contiguous_proto_loop. exact H. Qed.

Lemma Contiguous_LuaJITDecode opcodes bcOpSyms :
  Contiguous (LuaJITDecode opcodes bcOpSyms).
Proof.
  pose proof (Contiguous_LuaJITDecodeHeader (mkDumpInfo false false)).
  unfold LuaJITDecode. apply Contiguous_bind.
  - now apply Contiguous_FieldStruct.
  - intros di. pose proof (Contiguous_decode_protos opcodes bcOpSyms di).
    contiguous.
Qed.

(** X15. A dump that decodes is read in order and without gaps: the reads of
    the decode, taken in the order they were made, each start where the one
    before ended, from the first bit of the input to the final cursor; a
    lookahead looks at the byte at the cursor and leaves the cursor there. So
    every byte up to the terminator belongs to exactly one field read. *)
Theorem X15_reads_in_order opcodes bcOpSyms input d' :
  LuaJITDecode opcodes bcOpSyms (newD input) = Ok tt d' ->
  covers 0 (trace d') (pos d').
Proof.
  intros H. apply Contiguous_LuaJITDecode in H.
  destruct H as (evs & Ht & Hc). cbn [newD trace pos app] in *.
  rewrite Ht. exact Hc.
Qed.

(** The big-endian example dump. *)
Lemma X15_reads_in_order_witness :
  covers 0
    (trace (state_after (LuaJITDecode test_opcodes test_syms)
                        be_dump_example))
    (pos (state_after (LuaJITDecode test_opcodes test_syms)
                      be_dump_example)).
Proof.
  apply (X15_reads_in_order test_opcodes test_syms (buf be_dump_example)).
  vm_compute; reflexivity.
Defined.
